(** * image_mosaic: a shallow embedding of [src/asp/Tools/image_mosaic.cc]

    The tool places a strip of overlapping rasters on one canvas
    ([compute_all_image_positions]), and renders the canvas tile by tile
    ([ImageMosaicView::prerasterize]), blending with weights computed by
    [centerline_weights3].

    Conventions of the embedding:
    - [int] values are integers of [Z]; where the code computes with them
      ([handle_arguments], [fix_tile_multiple]) the 32-bit wrap-around is
      written out, pixel coordinates of boxes are kept in [Z];
    - [double] and [float] values are rationals extended with a quiet NaN
      (type [double]); infinities are not modelled, a division by zero or
      an overflow yields [NaN]. The arithmetic on the [double] weights and
      cutoffs is exact; every value that the renderer stores in its
      [float] tiles is rounded as the machine does it: the [double]
      operation rounds to binary64 ([to_double]) and the store rounds to
      binary32 ([to_float]);
    - [std::vector<int>] is a [list Z] read and written by index;
    - an [ImageView] is its size and its pixel accessor;
    - code that throws returns [Err] in a small trace-and-error monad, the
      trace recording every access to the files on disk. *)

From Stdlib Require Import ZArith QArith Qabs Qround Lqa List String Bool Lia.
From stdpp Require Import base list.
Import ListNotations.
Open Scope Z_scope.

(** ** Numbers *)

Inductive double : Type :=
| NaN
| Fin (q : Q).

Definition quiet_NaN : double := NaN.
Definition d_of_Z (z : Z) : double := Fin (inject_Z z).

Definition dadd (a b : double) : double :=
  match a, b with
  | Fin x, Fin y => Fin (x + y)
  | _, _ => NaN
  end.

Definition dmul (a b : double) : double :=
  match a, b with
  | Fin x, Fin y => Fin (x * y)
  | _, _ => NaN
  end.

Definition ddiv (a b : double) : double :=
  match a, b with
  | Fin x, Fin y => if Qeq_bool y 0 then NaN else Fin (x / y)
  | _, _ => NaN
  end.

(** Comparisons are IEEE comparisons: any test against NaN is false. *)
Definition dltb (a b : double) : bool :=
  match a, b with
  | Fin x, Fin y => negb (Qle_bool y x)
  | _, _ => false
  end.

Definition dgtb (a b : double) : bool := dltb b a.

Definition deqb (a b : double) : bool :=
  match a, b with
  | Fin x, Fin y => Qeq_bool x y
  | _, _ => false
  end.

(** [std::min(a, b)] is [(b < a) ? b : a]. *)
Definition dmin (a b : double) : double := if dltb b a then b else a.

(** ** Rounding to [double] and to [float] *)

(** The integer nearest to [q], the even one when two are as near. *)
Definition round_half_even (q : Q) : Z :=
  let f := Qfloor q in
  match Qcompare (q - inject_Z f) (1 # 2) with
  | Lt => f
  | Gt => f + 1
  | Eq => if Z.even f then f else f + 1
  end.

(** The exponent [e] of [q <> 0]: [2 ^ e <= |q| < 2 ^ (e + 1)]. *)
Definition binade (q : Q) : Z :=
  let e := Z.log2 (Z.abs (Qnum q)) - Z.log2 (Zpos (Qden q)) in
  if Qle_bool (Qpower 2 e) (Qabs q) then e else e - 1.

(** The IEEE 754 rounding to nearest, ties to even, into the binary format
    with [prec] bits of precision and the exponents [emin] to [emax];
    numbers below [2 ^ emin] are rounded on the grid of the subnormals, and
    a result beyond the largest number of the format is an infinity, [NaN]
    here. *)
Definition round_binary (prec emin emax : Z) (d : double) : double :=
  match d with
  | NaN => NaN
  | Fin q =>
      if Qeq_bool q 0 then Fin 0
      else
        let e := Z.max (binade q) emin in
        let ulp := Qpower 2 (e - (prec - 1)) in
        let r := (inject_Z (round_half_even (q / ulp)) * ulp)%Q in
        if Qle_bool (Qpower 2 (emax + 1)) (Qabs r) then NaN else Fin (Qred r)
  end.

(** The value of a [double] expression, and its conversion to [float]. *)
Definition to_double : double -> double := round_binary 53 (-1022) 1023.
Definition to_float : double -> double := round_binary 24 (-126) 127.

(** ** Integers of the machine *)

Definition INT_MAX : Z := 2147483647.
Definition INT_MIN : Z := -2147483648.

(** Two's complement wrap-around of a 32-bit [int]. *)
Definition wrap_int (z : Z) : Z := (z + 2 ^ 31) mod 2 ^ 32 - 2 ^ 31.

Definition in_int_range (z : Z) : Prop := INT_MIN <= z <= INT_MAX.

(** ** Vectors, images and loops *)

(** [v[i]] and [v[i] = x] on a [std::vector<int>]; the code only indexes
    inside the vector, outside it the read gives 0 and the write is lost. *)
Definition vget (v : list Z) (i : Z) : Z := default 0 (v !! Z.to_nat i).
Definition vset (v : list Z) (i : Z) (x : Z) : list Z := <[Z.to_nat i := x]> v.

(** [for (i = lo; i < hi; ++i) s = body i s]. *)
Definition for_range {S : Type} (lo hi : Z) (body : Z -> S -> S) (s : S) : S :=
  fold_left (fun s k => body (lo + Z.of_nat k) s)
            (seq 0 (Z.to_nat (hi - lo))) s.

Record ImageView (A : Type) : Type := mkImage {
  iv_cols : Z;
  iv_rows : Z;
  iv_pix : Z -> Z -> A  (* img(col, row) *)
}.
Arguments mkImage {A} _ _ _.
Arguments iv_cols {A} _.
Arguments iv_rows {A} _.
Arguments iv_pix {A} _ _ _.

(** [ImageView<T> img(cols, rows); fill(img, x)]. *)
Definition filled {A : Type} (cols rows : Z) (x : A) : ImageView A :=
  mkImage cols rows (fun _ _ => x).

(** [img(c, r) = x]. *)
Definition set_pixel {A : Type} (img : ImageView A) (c r : Z) (x : A)
  : ImageView A :=
  mkImage (iv_cols img) (iv_rows img)
          (fun c' r' => if (c' =? c) && (r' =? r) then x else iv_pix img c' r').

(** A [PixelMask<float>]: [None] is an invalid pixel. *)
Definition PixelMask : Type := option double.
Definition is_valid (p : PixelMask) : bool :=
  match p with Some _ => true | None => false end.
Definition remove_mask (p : PixelMask) : double :=
  match p with Some v => v | None => Fin 0 end.

(** ** Bounding boxes ([vw::BBox2i], [vw::BBox2f]) *)

(** Modelled from the spec: the class [vw::BBox] is declared in the Vision
    Workbench headers, which are not under src/.  It is the axis-aligned
    box of section 3, grown to a union, cropped to an intersection and
    expanded by a margin: the pair of its minimal and maximal corners, the
    maximal one exclusive.  The operations below are the ones the tool
    calls. *)
Record BBox2i : Type := mkBBox2i {
  bmin_x : Z; bmin_y : Z; bmax_x : Z; bmax_y : Z
}.

(** [BBox2i()]: the empty box, its corners at the opposite ends of [int]. *)
Definition BBox2i_empty : BBox2i := mkBBox2i INT_MAX INT_MAX INT_MIN INT_MIN.

(** [BBox2i(x, y, width, height)]. *)
Definition BBox2i_of (x y w h : Z) : BBox2i := mkBBox2i x y (x + w) (y + h).

Definition bbox_empty (b : BBox2i) : bool :=
  (bmax_x b <=? bmin_x b) || (bmax_y b <=? bmin_y b).

Definition bbox_width (b : BBox2i) : Z := bmax_x b - bmin_x b.
Definition bbox_height (b : BBox2i) : Z := bmax_y b - bmin_y b.
Definition bbox_size (b : BBox2i) : Z * Z := (bbox_width b, bbox_height b).

(** [b.grow(Vector2i(x, y))]. *)
Definition bbox_grow (b : BBox2i) (p : Z * Z) : BBox2i :=
  let '(x, y) := p in
  mkBBox2i (if x <? bmin_x b then x else bmin_x b)
           (if y <? bmin_y b then y else bmin_y b)
           (if bmax_x b <? x then x else bmax_x b)
           (if bmax_y b <? y then y else bmax_y b).

(** [b.crop(c)]: intersection. *)
Definition bbox_crop (b c : BBox2i) : BBox2i :=
  mkBBox2i (if bmin_x b <? bmin_x c then bmin_x c else bmin_x b)
           (if bmin_y b <? bmin_y c then bmin_y c else bmin_y b)
           (if bmax_x c <? bmax_x b then bmax_x c else bmax_x b)
           (if bmax_y c <? bmax_y b then bmax_y c else bmax_y b).

(** [b.expand(k)]. *)
Definition bbox_expand (b : BBox2i) (k : Z) : BBox2i :=
  mkBBox2i (bmin_x b - k) (bmin_y b - k) (bmax_x b + k) (bmax_y b + k).

(** [b.intersects(c)]. *)
Definition bbox_intersects (b c : BBox2i) : bool :=
  negb ((bmax_x c <=? bmin_x b) || (bmax_x b <=? bmin_x c))
  && negb ((bmax_y c <=? bmin_y b) || (bmax_y b <=? bmin_y c)).

(** [b - v]. *)
Definition bbox_sub (b : BBox2i) (v : Z * Z) : BBox2i :=
  mkBBox2i (bmin_x b - fst v) (bmin_y b - snd v)
           (bmax_x b - fst v) (bmax_y b - snd v).

(** [bounding_box(img)]. *)
Definition bounding_box {A : Type} (img : ImageView A) : BBox2i :=
  BBox2i_of 0 0 (iv_cols img) (iv_rows img).

(** ** Weight Field Builder: [centerline_weights3] *)

Record LineExtents : Type := mkExtents {
  minValInRow : list Z;
  maxValInRow : list Z;
  minValInCol : list Z;
  maxValInCol : list Z
}.

(** The vectors after the two initialisation loops. *)
Definition init_extents (numRows numCols : Z) : LineExtents :=
  mkExtents (replicate (Z.to_nat numRows) numCols)
            (replicate (Z.to_nat numRows) 0)
            (replicate (Z.to_nat numCols) numRows)
            (replicate (Z.to_nat numCols) 0).

(** The body of the single pass over the image, at pixel [(col, row)]. *)
Definition scan_pixel (img : ImageView PixelMask) (row col : Z)
           (e : LineExtents) : LineExtents :=
  if negb (is_valid (iv_pix img col row)) then e
  else
    let minr := if col <? vget (minValInRow e) row
                then vset (minValInRow e) row col else minValInRow e in
    let maxr := if vget (maxValInRow e) row <? col
                then vset (maxValInRow e) row col else maxValInRow e in
    let minc := if row <? vget (minValInCol e) col
                then vset (minValInCol e) col row else minValInCol e in
    let maxc := if vget (maxValInCol e) col <? row
                then vset (maxValInCol e) col row else maxValInCol e in
    mkExtents minr maxr minc maxc.

Definition scan_extents (img : ImageView PixelMask) : LineExtents :=
  let numRows := iv_rows img in
  let numCols := iv_cols img in
  for_range 0 numRows
    (fun row => for_range 0 numCols (fun col => scan_pixel img row col))
    (init_extents numRows numCols).

(** [hCenterLine] / [vCenterLine]: the midpoints [(min + max) / 2.0]. *)
Definition center_line (mins maxs : list Z) : list double :=
  zip_with (fun lo hi => ddiv (d_of_Z (lo + hi)) (Fin 2)) mins maxs.

(** [hMaxDistArray] / [vMaxDistArray]: [max - min], floored at 0. *)
Definition max_dist_array (mins maxs : list Z) : list double :=
  zip_with (fun lo hi =>
              let d := d_of_Z (hi - lo) in
              if dltb d (Fin 0) then Fin 0 else d) mins maxs.

Definition hole_fill_value_default : double := Fin 0.
Definition border_fill_value_default : double := Fin (-1).

(** [output_bbox]: the region of interest, the whole image when none is
    given. *)
Definition weights_bbox {A : Type} (img : ImageView A) (roi : BBox2i) : BBox2i :=
  if bbox_empty roi then bounding_box img else roi.

Section CenterlineWeights.

(** [vw::compute_line_weights(pix, horizontal, centers, widths)], from the
    Vision Workbench; the tool only calls it. *)
Variable compute_line_weights :
  double * double -> bool -> list double -> list double -> double.

(** The weight the last loop stores for pixel [(col, row)] of [img]. *)
Definition new_weight (img : ImageView PixelMask) (e : LineExtents)
           (hole_fill_value border_fill_value : double)
           (col row : Z) : double :=
  let hCenterLine := center_line (minValInRow e) (maxValInRow e) in
  let hMaxDistArray := max_dist_array (minValInRow e) (maxValInRow e) in
  let vCenterLine := center_line (minValInCol e) (maxValInCol e) in
  let vMaxDistArray := max_dist_array (minValInCol e) (maxValInCol e) in
  let inner_row := (vget (minValInCol e) col <=? row)
                   && (row <=? vget (maxValInCol e) col) in
  let inner_col := (vget (minValInRow e) row <=? col)
                   && (col <=? vget (maxValInRow e) row) in
  let inner_pixel := inner_row && inner_col in
  let pix := (d_of_Z col, d_of_Z row) in
  if is_valid (iv_pix img col row) then
    let weight_h := compute_line_weights pix true hCenterLine hMaxDistArray in
    let weight_v := compute_line_weights pix false vCenterLine vMaxDistArray in
    dmin weight_h weight_v
  else if inner_pixel then hole_fill_value
  else border_fill_value.

Definition centerline_weights3 (img : ImageView PixelMask)
           (hole_fill_value border_fill_value : double) (roi : BBox2i)
  : ImageView double :=
  let e := scan_extents img in
  let output_bbox := weights_bbox img roi in
  let weights := filled (bbox_width output_bbox) (bbox_height output_bbox)
                        (Fin 0) in
  for_range (bmin_y output_bbox) (bmax_y output_bbox)
    (fun row =>
       for_range (bmin_x output_bbox) (bmax_x output_bbox)
         (fun col weights =>
            set_pixel weights
                      (col - bmin_x output_bbox) (row - bmin_y output_bbox)
                      (new_weight img e hole_fill_value border_fill_value
                                  col row)))
    weights.

(** The weight the call leaves for pixel [(col, row)] of [img]. *)
Definition weight_at (img : ImageView PixelMask)
           (hole_fill_value border_fill_value : double) (roi : BBox2i)
           (col row : Z) : double :=
  iv_pix (centerline_weights3 img hole_fill_value border_fill_value roi)
         (col - bmin_x (weights_bbox img roi))
         (row - bmin_y (weights_bbox img roi)).

End CenterlineWeights.

(** ** Transforms *)

(** [vw::Matrix<double>] of size 3x3, in homogeneous coordinates. *)
Record Matrix3 : Type := mkMatrix3 {
  a00 : Q; a01 : Q; a02 : Q;
  a10 : Q; a11 : Q; a12 : Q;
  a20 : Q; a21 : Q; a22 : Q
}.

Definition identity_matrix3 : Matrix3 :=
  mkMatrix3 1 0 0
            0 1 0
            0 0 1.

(** [a * b], the matrix product. *)
Definition mmul (a b : Matrix3) : Matrix3 :=
  (mkMatrix3
     (a00 a * a00 b + a01 a * a10 b + a02 a * a20 b)
     (a00 a * a01 b + a01 a * a11 b + a02 a * a21 b)
     (a00 a * a02 b + a01 a * a12 b + a02 a * a22 b)
     (a10 a * a00 b + a11 a * a10 b + a12 a * a20 b)
     (a10 a * a01 b + a11 a * a11 b + a12 a * a21 b)
     (a10 a * a02 b + a11 a * a12 b + a12 a * a22 b)
     (a20 a * a00 b + a21 a * a10 b + a22 a * a20 b)
     (a20 a * a01 b + a21 a * a11 b + a22 a * a21 b)
     (a20 a * a02 b + a21 a * a12 b + a22 a * a22 b))%Q.

(** [vw::AffineTransform(m, t)]: the map [p |-> m p + t]. *)
Record AffineTransform : Type := mkAffine {
  m00 : Q; m01 : Q; m10 : Q; m11 : Q;
  t0 : Q; t1 : Q
}.

Definition identity_affine : AffineTransform := mkAffine 1 0 0 1 0 0.

(** The [AffineTransform(m, t)] that the layout loop builds from the two
    upper rows of [absolute_transform]. *)
Definition affine_of_matrix (a : Matrix3) : AffineTransform :=
  mkAffine (a00 a) (a01 a) (a10 a) (a11 a) (a02 a) (a12 a).

(** [tf.forward(p)]. *)
Definition forward (tf : AffineTransform) (p : Q * Q) : Q * Q :=
  (m00 tf * fst p + m01 tf * snd p + t0 tf,
   m10 tf * fst p + m11 tf * snd p + t1 tf)%Q.

(** A [boost::shared_ptr<vw::Transform>]; [None] is the null pointer. *)
Definition TransformPtr : Type := option AffineTransform.

(** The conversion of a [double] to [int]: truncation toward zero. *)
Definition truncate (q : Q) : Z := Z.quot (Qnum q) (Zpos (Qden q)).

(** [b.grow(p)] for a box of integers and a point of doubles: the
    comparison is made on doubles, the stored corner is converted. *)
Definition bbox_grow_real (b : BBox2i) (p : Q * Q) : BBox2i :=
  let '(x, y) := p in
  mkBBox2i
    (if negb (Qle_bool (inject_Z (bmin_x b)) x) then truncate x else bmin_x b)
    (if negb (Qle_bool (inject_Z (bmin_y b)) y) then truncate y else bmin_y b)
    (if negb (Qle_bool x (inject_Z (bmax_x b))) then truncate x else bmax_x b)
    (if negb (Qle_bool y (inject_Z (bmax_y b))) then truncate y else bmax_y b).

Record BBox2f : Type := mkBBox2f {
  fmin_x : Q; fmin_y : Q; fmax_x : Q; fmax_y : Q
}.

(** [b.expand(k)] on a [BBox2f]. *)
Definition bbox2f_expand (b : BBox2f) (k : Q) : BBox2f :=
  (mkBBox2f (fmin_x b - k) (fmin_y b - k) (fmax_x b + k) (fmax_y b + k))%Q.

(** [b.crop(c)] for a [BBox2f] [b] and a [BBox2i] [c]. *)
Definition bbox2f_crop (b : BBox2f) (c : BBox2i) : BBox2f :=
  mkBBox2f
    (if negb (Qle_bool (inject_Z (bmin_x c)) (fmin_x b))
     then inject_Z (bmin_x c) else fmin_x b)
    (if negb (Qle_bool (inject_Z (bmin_y c)) (fmin_y b))
     then inject_Z (bmin_y c) else fmin_y b)
    (if negb (Qle_bool (fmax_x b) (inject_Z (bmax_x c)))
     then inject_Z (bmax_x c) else fmax_x b)
    (if negb (Qle_bool (fmax_y b) (inject_Z (bmax_y c)))
     then inject_Z (bmax_y c) else fmax_y b).

(** The conversion [BBox2i(b)] of a [BBox2f]. *)
Definition bbox2i_of_bbox2f (b : BBox2f) : BBox2i :=
  mkBBox2i (truncate (fmin_x b)) (truncate (fmin_y b))
           (truncate (fmax_x b)) (truncate (fmax_y b)).

(** The four corners of an image of the given size, mapped to the canvas. *)
Definition canvas_corners (tf : AffineTransform) (size : Z * Z)
  : list (Q * Q) :=
  let w := inject_Z (fst size) in
  let h := inject_Z (snd size) in
  [forward tf (0, 0); forward tf (w, 0); forward tf (0, h); forward tf (w, h)]%Q.

(** ** Tiled Mosaic Renderer: [ImageMosaicView] *)

Record ImageMosaicView : Type := mkView {
  m_images : list (ImageView PixelMask);
  m_transforms : list TransformPtr;
  m_bboxes : list BBox2i;
  m_blend_radius : Z;
  m_output_image_size : Z * Z;
  m_output_nodata_value : double
}.

(** [crop(view, bbox)] of a view defined on the whole plane. *)
Definition crop_plane {A : Type} (view : Z -> Z -> A) (b : BBox2i)
  : ImageView A :=
  mkImage (bbox_width b) (bbox_height b)
          (fun c r => view (c + bmin_x b) (r + bmin_y b)).

(** The accumulator tile and the weight tile of one [prerasterize] call,
    two [ImageView<float>]: every value stored in them is a [float]. *)
Record TileState : Type := mkTile {
  tile : ImageView double;
  weights : ImageView double
}.

(** [cutoff] for an intersection box and a blend radius. *)
Definition blend_cutoff (intersect : BBox2i) (blend_radius : Z) : double :=
  let dist := ddiv (d_of_Z (Z.min (bbox_height intersect)
                                   (bbox_width intersect))) (Fin 2) in
  let denom := dadd dist (d_of_Z blend_radius) in
  ddiv (d_of_Z blend_radius) denom.

(** The loop that caps every weight of the field at [cutoff]. *)
Definition clamp_weights (cutoff : double) (input_weights : ImageView double)
  : ImageView double :=
  for_range 0 (iv_rows input_weights)
    (fun r =>
       for_range 0 (iv_cols input_weights)
         (fun c w =>
            if dgtb (iv_pix w c r) cutoff then set_pixel w c r cutoff else w))
    input_weights.

(** [weight]: the weight the paste loop reads for pixel [(c, r)] of the
    intersection, in the field of the crop padded by [blend_radius]. *)
Definition accumulation_weight (input_weights : ImageView double)
           (blend_radius : Z) (c r : Z) : double :=
  iv_pix input_weights (c + blend_radius) (r + blend_radius).

(** The body of the loop that pastes one image into the tile, at pixel
    [(c, r)] of the intersection. *)
Definition paste_pixel (trans_input : ImageView PixelMask)
           (input_weights : ImageView double) (blend_radius : Z)
           (tile_bbox : BBox2i) (c r : Z) (st : TileState) : TileState :=
  let weight := accumulation_weight input_weights blend_radius c r in
  let pixel := iv_pix trans_input (c + blend_radius) (r + blend_radius) in
  if is_valid pixel then
    let value := remove_mask pixel in
    let o_c := c + bmin_x tile_bbox in
    let o_r := r + bmin_y tile_bbox in
    (* [value * weight] is a product of [double]s *)
    let product := to_double (dmul value weight) in
    let tile' :=
      if deqb (iv_pix (weights st) o_c o_r) (Fin 0)
      then set_pixel (tile st) o_c o_r (to_float product)
      else set_pixel (tile st) o_c o_r
                     (to_float
                        (to_double (dadd (iv_pix (tile st) o_c o_r) product))) in
    let weights' :=
      set_pixel (weights st) o_c o_r
                (to_float
                   (to_double (dadd (iv_pix (weights st) o_c o_r) weight))) in
    mkTile tile' weights'
  else st.

(** The final loop: [if (weights(c, r) > 0) tile(c, r) /= weights(c, r)],
    a division of two [float]s. *)
Definition normalize_tile (bbox : BBox2i) (st : TileState) : ImageView double :=
  for_range 0 (bbox_width bbox)
    (fun c =>
       for_range 0 (bbox_height bbox)
         (fun r t =>
            if dgtb (iv_pix (weights st) c r) (Fin 0)
            then set_pixel t c r
                           (to_float (ddiv (iv_pix t c r)
                                           (iv_pix (weights st) c r)))
            else t))
    (tile st).

Section Renderer.

Variable compute_line_weights :
  double * double -> bool -> list double -> list double -> double.

(** [transform(img, tf, ZeroEdgeExtension(), BilinearInterpolation())] of
    the Vision Workbench: the resampled image, read at a canvas pixel. *)
Variable vw_transform :
  ImageView PixelMask -> AffineTransform -> Z -> Z -> PixelMask.

(** The blend weights of one image for one tile: the centerline weights
    of the padded crop, capped at the cutoff of the intersection. *)
Definition clamped_input_weights (trans_input : ImageView PixelMask)
           (intersect : BBox2i) (blend_radius : Z) : ImageView double :=
  let input_weights :=
    centerline_weights3 compute_line_weights trans_input
                        hole_fill_value_default border_fill_value_default
                        BBox2i_empty in
  clamp_weights (blend_cutoff intersect blend_radius) input_weights.

(** One turn of the loop over the input images. The boxes [temp_bbox] and
    [input_bbox] of the code are computed but never read. *)
Definition paste_image (v : ImageMosaicView) (bbox : BBox2i) (i : nat)
           (st : TileState) : TileState :=
  match m_bboxes v !! i, m_images v !! i, m_transforms v !! i with
  | Some bbox_i, Some image_i, Some (Some temp) =>
      if negb (bbox_intersects bbox_i bbox) then st
      else
        let intersect := bbox_crop bbox_i bbox in
        let tile_bbox := bbox_sub intersect (bmin_x bbox, bmin_y bbox) in
        let expanded_intersect := bbox_expand intersect (m_blend_radius v) in
        let trans_input :=
          crop_plane (vw_transform image_i temp) expanded_intersect in
        let input_weights :=
          clamped_input_weights trans_input intersect (m_blend_radius v) in
        for_range 0 (bbox_height intersect)
          (fun r =>
             for_range 0 (bbox_width intersect)
               (fun c => paste_pixel trans_input input_weights
                                     (m_blend_radius v) tile_bbox c r))
          st
  | _, _, _ => st
  end.

(** The tile and its weights when the loop over the images is over. *)
Definition accumulate (v : ImageMosaicView) (bbox : BBox2i) : TileState :=
  let tile0 := filled (bbox_width bbox) (bbox_height bbox)
                      (to_float (m_output_nodata_value v)) in
  let weights0 := filled (bbox_width bbox) (bbox_height bbox) (Fin 0) in
  fold_left (fun st i => paste_image v bbox i st)
            (seq 0 (length (m_images v)))
            (mkTile tile0 weights0).

(** [prerasterize(bbox)]: the tile, whose pixel [(c, r)] is the canvas
    pixel [(c + bbox.min().x(), r + bbox.min().y())]. *)
Definition prerasterize (v : ImageMosaicView) (bbox : BBox2i)
  : ImageView double :=
  normalize_tile bbox (accumulate v bbox).

End Renderer.

(** ** Options and the command line *)

Record Options : Type := mkOptions {
  raster_tile_size : Z * Z;  (* inherited from [GdalWriteOptions] *)
  image_files : list string;
  orientation : string;
  output_image : string;
  output_type : string;
  overlap_width : Z;
  band : Z;
  blend_radius : Z;
  has_input_nodata_value : bool;
  has_output_nodata_value : bool;
  input_nodata_value : double;
  output_nodata_value : double
}.

(** [opt.image_files[i]]; the code only reads inside the vector. *)
Definition image_file (opt : Options) (i : nat) : string :=
  default ""%string (image_files opt !! i).

(** The command line as [asp::check_command_line] has parsed it: an option
    that was not given is [None]; [cl_tile_size] is the tile size that the
    parser leaves in [raster_tile_size], given or default.  Two more fields
    stand for what the code reads and the command line does not fix:
    [cl_indeterminate_band] is the value that the member [band] of
    [Options], which no constructor initialises, holds when the option is
    not given; [cl_options_help] is the description of the options, as
    [boost::program_options] streams [general_options] into a message. *)
Record CommandLine : Type := mkCommandLine {
  cl_input_files : list string;
  cl_orientation : option string;
  cl_overlap_width : option Z;
  cl_blend_radius : option Z;
  cl_output_image : option string;
  cl_ot : option string;
  cl_band : option Z;
  cl_input_nodata_value : option double;
  cl_output_nodata_value : option double;
  cl_tile_size : Z * Z;
  cl_indeterminate_band : Z;
  cl_options_help : string
}.

(** ** Errors, events and the monad of the run *)

Inductive Error : Type :=
| ArgumentErr (msg : string)
| NoImplErr (msg : string)
| MathErr (msg : string)
| IOErr (path : string).

(** What the run does to the outside, in the order it does it. *)
Inductive Event : Type :=
| EvFileImageSize (path : string)
    (* [file_image_size(path)]: the file is opened and its size read *)
| EvGetInputImage (path : string)
    (* [get_input_image(path, ...)]: the file is opened for its pixels *)
| EvWriteSelectedImageType (out_img : ImageMosaicView) (nodata : double)
    (* [write_selected_image_type(out_img, nodata, opt)] is entered *)
| EvBlockWrite (path type : string) (nodata : double)
    (* [block_write_gdal_image] is called: the mosaic is rendered, tile by
       tile, and written *).

Inductive Result (A : Type) : Type :=
| Ok (a : A)
| Err (e : Error).
Arguments Ok {A} _.
Arguments Err {A} _.

Definition M (A : Type) : Type := list Event -> Result A * list Event.

Definition ret {A : Type} (a : A) : M A := fun t => (Ok a, t).

Definition bind {A B : Type} (m : M A) (k : A -> M B) : M B :=
  fun t =>
    match m t with
    | (Ok a, t') => k a t'
    | (Err e, t') => (Err e, t')
    end.

Definition vw_throw {A : Type} (e : Error) : M A := fun t => (Err e, t).

Definition emit (ev : Event) : M unit := fun t => (Ok tt, t ++ [ev]).

#[global] Instance M_ret : MRet M := @ret.
#[global] Instance M_bind : MBind M := fun A B k m => bind m k.

(** [for (size_t i = lo; i < hi; ++i)] with a body that may throw. *)
Fixpoint for_each {S : Type} (idx : list nat) (body : nat -> S -> M S) (s : S)
  : M S :=
  match idx with
  | [] => ret s
  | i :: rest => s' ← body i s ; for_each rest body s'
  end.

(** ** The outside world *)

Record DiskImage : Type := mkDiskImage {
  di_size : Z * Z;
  di_num_channels : Z;
  di_channel : Z -> ImageView double;
  di_nodata : option double
}.

Record InterestPoint : Type := mkIP {
  ip_x : Q; ip_y : Q; ip_ix : Z; ip_iy : Z
}.

(** The arguments given to [vw::math::RandomSampleConsensus]. *)
Record RansacParams : Type := mkRansacParams {
  num_iterations : Z;
  inlier_threshold : Q;
  min_num_output_inliers : Z;
  reduce_min_num_output_inliers_if_no_fit : bool
}.

(** The collaborators the tool calls but does not define: the rasters on
    disk, and the routines of the Vision Workbench and of [asp/Core]. A
    routine that can throw returns [None] when it does. The views are
    lazy: the pixels of the inputs are read and the tiles rendered inside
    [block_write_gdal_image], and [write_failure path out_img type nodata]
    is the exception that this call ends with, if it fails. *)
Record World : Type := mkWorld {
  disk : string -> option DiskImage;
  detect_match_ip :
    ImageView double -> ImageView double -> Z -> double -> double ->
    list InterestPoint * list InterestPoint;
  ransac :
    RansacParams -> list (Q * Q * Q) -> list (Q * Q * Q) -> option Matrix3;
  inlier_indices :
    RansacParams -> Matrix3 -> list (Q * Q * Q) -> list (Q * Q * Q) ->
    option (list nat);
  inverse : Matrix3 -> option Matrix3;
  compute_transformed_bbox_fast : BBox2i -> AffineTransform -> BBox2f;
  round_and_clamp : string -> double -> double;
  write_failure :
    string -> ImageMosaicView -> string -> double -> option Error
}.

(** [x.size() / 2], stored in an [int]. *)
Definition half_size {A : Type} (l : list A) : Z :=
  Z.of_nat (length l / 2).

Definition iplist_to_vectorlist (l : list InterestPoint) : list (Q * Q * Q) :=
  map (fun p => (ip_x p, ip_y p, 1%Q)) l.

(** The shift of a matched point by the corner of its search region. *)
Definition shift_ip (roi : BBox2i) (p : InterestPoint) : InterestPoint :=
  (mkIP (ip_x p + inject_Z (bmin_x roi)) (ip_y p + inject_Z (bmin_y roi))
        (ip_ix p + bmin_x roi) (ip_iy p + bmin_y roi))%Q.

(** [crop(img, roi)] of an image in memory. *)
Definition crop {A : Type} (img : ImageView A) (roi : BBox2i) : ImageView A :=
  crop_plane (iv_pix img) roi.

(** [create_mask_less_or_equal(img, nodata)]. *)
Definition create_mask_less_or_equal (img : ImageView double) (nodata : double)
  : ImageView PixelMask :=
  mkImage (iv_cols img) (iv_rows img)
          (fun c r =>
             let v := iv_pix img c r in
             if dltb v nodata || deqb v nodata then None else Some v).

Section Run.

Variable w : World.

(** [vw::file_image_size(path)]. *)
Definition file_image_size (path : string) : M (Z * Z) :=
  emit (EvFileImageSize path);;
  match disk w path with
  | Some d => ret (di_size d)
  | None => vw_throw (IOErr path)
  end.

Definition get_input_image (path : string) (opt : Options)
  : M (ImageView double * double) :=
  emit (EvGetInputImage path);;
  match disk w path with
  | None => vw_throw (IOErr path)
  | Some d =>
      let image :=
        if di_num_channels d =? 1 then di_channel d 0
        else let channel := band opt - 1 in di_channel d channel in
      let nodata :=
        match di_nodata d with
        | Some v => v
        | None => quiet_NaN
        end in
      ret (image, nodata)
  end.

Definition match_ip_in_regions (image_file1 image_file2 : string)
           (roi1 roi2 : BBox2i) (opt : Options)
  : M (list InterestPoint * list InterestPoint) :=
  '(image1, nodata1) ← get_input_image image_file1 opt;
  '(image2, nodata2) ← get_input_image image_file2 opt;
  let ip_per_tile := 0 in
  let '(matched_ip1, matched_ip2) :=
    detect_match_ip w (crop image1 roi1) (crop image2 roi2) ip_per_tile
                    nodata1 nodata2 in
  ret (map (shift_ip roi1) matched_ip1, map (shift_ip roi2) matched_ip2).

(** The parameters [affine_ip_matching] gives to RANSAC for a list of
    matches. *)
Definition ransac_params (ransac_ip1 : list (Q * Q * Q)) : RansacParams :=
  mkRansacParams 100 10 (half_size ransac_ip1) true.

Definition affine_ip_matching (image_file1 image_file2 : string)
           (roi1 roi2 : BBox2i) (opt : Options) : M Matrix3 :=
  '(matched_ip1, matched_ip2) ←
    match_ip_in_regions image_file1 image_file2 roi1 roi2 opt;
  let ransac_ip1 := iplist_to_vectorlist matched_ip1 in
  let ransac_ip2 := iplist_to_vectorlist matched_ip2 in
  let params := ransac_params ransac_ip1 in
  (* try { ... } catch (...) { vw_throw(ArgumentErr() << ...) } *)
  match ransac w params ransac_ip2 ransac_ip1 with
  | None => vw_throw (ArgumentErr "Automatic Alignment failed in RANSAC fit!")
  | Some tf =>
      match inlier_indices w params tf ransac_ip2 ransac_ip1 with
      | None =>
          vw_throw (ArgumentErr "Automatic Alignment failed in RANSAC fit!")
      | Some _ => ret tf
      end
  end.

Definition compute_relative_transform (image1 image2 : string)
           (opt : Options) : M Matrix3 :=
  size1 ← file_image_size image1;
  size2 ← file_image_size image2;
  let '(roi1, roi2) :=
    if String.eqb (orientation opt) "horizontal" then
      (mkBBox2i (fst size1 - overlap_width opt) 0 (fst size1) (snd size1),
       mkBBox2i 0 0 (overlap_width opt) (snd size2))
    else (BBox2i_empty, BBox2i_empty) in
  if bbox_empty roi1 || bbox_empty roi2
  then vw_throw (ArgumentErr "Unrecognized image orientation!")
  else affine_ip_matching image1 image2 roi1 roi2 opt.

(** The variables of [compute_all_image_positions] that its loop updates. *)
Record Positions : Type := mkPositions {
  transforms : list TransformPtr;
  bboxes : list BBox2i;
  output_bbox : BBox2i;
  last_transform : Matrix3
}.

(** The body of the loop over the images [i >= 1]. *)
Definition position_image (opt : Options) (i : nat) (p : Positions)
  : M Positions :=
  relative_transform ←
    compute_relative_transform (image_file opt (i - 1))
                               (image_file opt i) opt;
  image_size ← file_image_size (image_file opt i);
  let absolute_transform :=
    if (i =? 0)%nat then relative_transform
    else mmul (last_transform p) relative_transform in
  let tf_ptr := affine_of_matrix absolute_transform in
  match inverse w absolute_transform with
  | None => vw_throw (MathErr "Matrix is singular in inverse()")
  | Some _ =>
      let new_bot_right_corner :=
        forward tf_ptr (inject_Z (fst image_size), inject_Z (snd image_size)) in
      let output_bbox' := bbox_grow_real (output_bbox p) new_bot_right_corner in
      let this_bbox :=
        compute_transformed_bbox_fast w
          (BBox2i_of 0 0 (fst image_size) (snd image_size)) tf_ptr in
      let this_bbox := bbox2f_expand this_bbox 1 in
      let this_bbox := bbox2f_crop this_bbox output_bbox' in
      ret (mkPositions (<[i := Some tf_ptr]> (transforms p))
                       (<[i := bbox2i_of_bbox2f this_bbox]> (bboxes p))
                       output_bbox'
                       absolute_transform)
  end.

(** The function up to the end of the first [turns] turns of its loop. *)
Definition compute_positions_upto (opt : Options) (turns : nat)
  : M Positions :=
  let num_images := length (image_files opt) in
  let transforms := replicate num_images (None : TransformPtr) in
  let bboxes := replicate num_images BBox2i_empty in
  image_size ← file_image_size (image_file opt 0);
  let output_bbox := bbox_grow (bbox_grow BBox2i_empty (0, 0)) image_size in
  let transforms := <[0%nat := Some identity_affine]> transforms in
  let bboxes := <[0%nat := output_bbox]> bboxes in
  for_each (seq 1 turns) (position_image opt)
           (mkPositions transforms bboxes output_bbox identity_matrix3).

(** The function up to the end of its loop, [for (i = 1; i < num_images;
    ++i)]. *)
Definition compute_positions (opt : Options) : M Positions :=
  compute_positions_upto opt (length (image_files opt) - 1).

(** [compute_all_image_positions(opt, transforms, bboxes,
    output_image_size)]: the three results. *)
Definition compute_all_image_positions (opt : Options)
  : M (list TransformPtr * list BBox2i * (Z * Z)) :=
  p ← compute_positions opt;
  ret (transforms p, bboxes p, bbox_size (output_bbox p)).

End Run.

(** ** Argument handling *)

(** [fix_tile_multiple(size)]: the new value of [size]. [%] and [/] are the
    truncating operations of C++. *)
Definition TILE_MULTIPLE : Z := 16.

Definition fix_tile_multiple (size : Z) : Z :=
  if negb (Z.rem size TILE_MULTIPLE =? 0)
  then wrap_int (wrap_int (Z.quot size TILE_MULTIPLE + 1) * TILE_MULTIPLE)
  else size.

(** [Options()] followed by the values [boost::program_options] stores: an
    option with a [default_value] always gets a value, [band] and the two
    nodata values are written only when given; [band] is indeterminate
    otherwise. *)
Definition parsed_options (cl : CommandLine) : Options :=
  mkOptions (cl_tile_size cl)
            (cl_input_files cl)
            (default "horizontal"%string (cl_orientation cl))
            (default ""%string (cl_output_image cl))
            (default "Float32"%string (cl_ot cl))
            (default 2000 (cl_overlap_width cl))
            (default (cl_indeterminate_band cl) (cl_band cl))
            (default 0 (cl_blend_radius cl))
            false false
            (default quiet_NaN (cl_input_nodata_value cl))
            (default quiet_NaN (cl_output_nodata_value cl)).

Definition is_Some_b {A : Type} (o : option A) : bool :=
  match o with Some _ => true | None => false end.

(** The tile dimension [handle_arguments] leaves for a given dimension. *)
Definition fix_tile_dimension (min_tile_size size : Z) : Z :=
  if size <? min_tile_size then fix_tile_multiple min_tile_size else size.

(** The line feed that ends a line of a message. *)
Definition newline : string := String (Ascii.ascii_of_nat 10) EmptyString.

Definition usage : string := "image_mosaic <images> [options]".

Definition handle_arguments (cl : CommandLine) : M Options :=
  let opt := parsed_options cl in
  let has_in := is_Some_b (cl_input_nodata_value cl) in
  let has_out := is_Some_b (cl_output_nodata_value cl) in
  if decide (image_files opt = []) then
    vw_throw (ArgumentErr ("No images to mosaic." ++ newline ++ usage
                             ++ cl_options_help cl))
  else if String.eqb (output_image opt) "" then
    vw_throw (ArgumentErr ("Missing output image name." ++ newline ++ usage
                             ++ cl_options_help cl))
  else
    let blend_radius' :=
      if blend_radius opt =? 0 then overlap_width opt else blend_radius opt in
    let min_tile_size := wrap_int (2 * blend_radius') in
    let tile' :=
      (fix_tile_dimension min_tile_size (fst (raster_tile_size opt)),
       fix_tile_dimension min_tile_size (snd (raster_tile_size opt))) in
    mret (mkOptions tile' (image_files opt) (orientation opt)
                    (output_image opt) (output_type opt) (overlap_width opt)
                    (band opt) blend_radius' has_in has_out
                    (input_nodata_value opt) (output_nodata_value opt)).

(** ** Output and [main] *)

Section Main.

Variable w : World.

Definition integer_output_types : list string :=
  ["Byte"; "UInt16"; "Int16"; "UInt32"; "Int32"]%string.

(** [vw::cartography::block_write_gdal_image(path, view, nodata, opt,
    tpc)], for the view of the sample type [type]. *)
Definition block_write_gdal_image (path : string) (out_img : ImageMosaicView)
           (type : string) (nodata : double) : M unit :=
  emit (EvBlockWrite path type nodata);;
  match write_failure w path out_img type nodata with
  | Some e => vw_throw e
  | None => mret tt
  end.

Definition write_selected_image_type (out_img : ImageMosaicView)
           (output_nodata_value : double) (opt : Options) : M unit :=
  emit (EvWriteSelectedImageType out_img output_nodata_value);;
  if String.eqb (output_type opt) "Float32" then
    block_write_gdal_image (output_image opt) out_img (output_type opt)
                           output_nodata_value
  else if existsb (String.eqb (output_type opt)) integer_output_types then
    (* [per_pixel_filter(out_img, RoundAndClamp<T, float>())] *)
    block_write_gdal_image (output_image opt) out_img (output_type opt)
                           (round_and_clamp w (output_type opt)
                                            output_nodata_value)
  else
    vw_throw (NoImplErr ("Unsupported output type: " ++ output_type opt
                           ++ "." ++ newline))%string.

(** One turn of the loop of [main] that gets the handles of the input
    images; the state is [images] and the local [nodata]. *)
Definition load_image (opt : Options) (i : nat)
           (st : list (ImageView PixelMask) * double)
  : M (list (ImageView PixelMask) * double) :=
  '(temp, nodata) ←
    get_input_image w (image_file opt i) opt;
  mret (<[i := create_mask_less_or_equal temp nodata]> (fst st), nodata).

Definition main (cl : CommandLine) : M unit :=
  opt ← handle_arguments cl;
  '(transforms, bboxes, output_image_size) ←
    compute_all_image_positions w opt;
  let num_images := length (image_files opt) in
  (* [double nodata;] is indeterminate until the first turn *)
  '(images, nodata) ←
    for_each (seq 0 num_images) (load_image opt)
             (replicate num_images (filled 0 0 None), quiet_NaN);
  (* the local [output_nodata_value] of [main], which nothing reads *)
  let local_output_nodata_value :=
    if has_output_nodata_value opt then output_nodata_value opt
    else nodata in
  let out_img :=
    mkView images transforms bboxes (blend_radius opt) output_image_size
           (output_nodata_value opt) in
  write_selected_image_type out_img (output_nodata_value opt) opt.

End Main.

(** ** Predicates of the specification *)

Definition valid_at (img : ImageView PixelMask) (col row : Z) : Prop :=
  is_valid (iv_pix img col row) = true.

(** Column [col] lies in the valid column span of row [row]: between two
    valid pixels of the row, ends included. *)
Definition in_row_span (img : ImageView PixelMask) (row col : Z) : Prop :=
  exists c1 c2,
    0 <= c1 <= col /\ col <= c2 < iv_cols img /\
    valid_at img c1 row /\ valid_at img c2 row.

(** Row [row] lies in the valid row span of column [col]. *)
Definition in_col_span (img : ImageView PixelMask) (col row : Z) : Prop :=
  exists r1 r2,
    0 <= r1 <= row /\ row <= r2 < iv_rows img /\
    valid_at img col r1 /\ valid_at img col r2.

(** What a pair of vectors (first and last valid position per line) knows
    once the pixels of [V] have been visited: every visited valid pixel is
    inside the recorded extent of its line, and a recorded end is either
    the initial value or a visited valid pixel. [at_ i j] is the pixel at
    position [j] of line [i]. *)
Definition extent_ok (img : ImageView PixelMask) (V : Z -> Z -> Prop)
           (len other : Z) (mins maxs : list Z) (at_ : Z -> Z -> Z * Z)
  : Prop :=
  length mins = Z.to_nat len /\ length maxs = Z.to_nat len /\
  forall i, 0 <= i < len ->
    (forall j, V (fst (at_ i j)) (snd (at_ i j)) ->
               valid_at img (fst (at_ i j)) (snd (at_ i j)) ->
               vget mins i <= j <= vget maxs i) /\
    (vget mins i = other \/
     (V (fst (at_ i (vget mins i))) (snd (at_ i (vget mins i))) /\
      valid_at img (fst (at_ i (vget mins i))) (snd (at_ i (vget mins i))))) /\
    (vget maxs i = 0 \/
     (V (fst (at_ i (vget maxs i))) (snd (at_ i (vget maxs i))) /\
      valid_at img (fst (at_ i (vget maxs i))) (snd (at_ i (vget maxs i))))).

(** The invariant of the single pass of [centerline_weights3]. *)
Definition scan_inv (img : ImageView PixelMask) (V : Z -> Z -> Prop)
           (e : LineExtents) : Prop :=
  extent_ok img V (iv_rows img) (iv_cols img) (minValInRow e) (maxValInRow e)
            (fun row col => (col, row)) /\
  extent_ok img V (iv_cols img) (iv_rows img) (minValInCol e) (maxValInCol e)
            (fun col row => (col, row)).

(** A point of the canvas lies in a box, its border included. *)
Definition bbox_covers (b : BBox2i) (p : Q * Q) : bool :=
  Qle_bool (inject_Z (bmin_x b)) (fst p) && Qle_bool (fst p) (inject_Z (bmax_x b))
  && Qle_bool (inject_Z (bmin_y b)) (snd p)
  && Qle_bool (snd p) (inject_Z (bmax_y b)).

(** The events that open an input image. *)
Definition opens_image (ev : Event) : bool :=
  match ev with
  | EvFileImageSize _ | EvGetInputImage _ => true
  | _ => false
  end.


(** Trace [t'] is trace [t] followed by events that all satisfy [P]. *)
Definition extends_by (P : Event -> bool) (t t' : list Event) : Prop :=
  exists evs, t' = t ++ evs /\ forallb P evs = true.

(** A computation that, whatever its result, only adds events that
    satisfy [P] to the trace. *)
Definition emits_only {A : Type} (P : Event -> bool) (m : M A) : Prop :=
  forall t r t', m t = (r, t') -> extends_by P t t'.

(** The events of one turn of the layout loop, for the pair of files
    [(f1, f2)]: both sizes are read, both images are loaded for matching,
    and the size of the second is read again. *)
Definition pair_events (f1 f2 : string) : list Event :=
  [EvFileImageSize f1; EvFileImageSize f2;
   EvGetInputImage f1; EvGetInputImage f2; EvFileImageSize f2].

(** ** Concrete inputs *)

Definition dsub (a b : double) : double :=
  match a, b with
  | Fin x, Fin y => Fin (x - y)
  | _, _ => NaN
  end.

Definition dabs (a : double) : double :=
  match a with
  | Fin x => Fin (Qabs x)
  | NaN => NaN
  end.

(** Modelled from the spec: [vw::compute_line_weights] is only declared in
    the Vision Workbench headers, which are not under src/.  This is the
    confidence of section 4.1: it is 1 at the centre of the valid run of
    the pixel's line, falls linearly to 0 at the ends of the run, and is 0
    on a line whose run has no extent. *)
Definition vw_compute_line_weights (pix : double * double) (horizontal : bool)
           (centers widths : list double) : double :=
  let '(along, across) :=
    if horizontal then (fst pix, snd pix) else (snd pix, fst pix) in
  match across with
  | NaN => Fin 0
  | Fin a =>
      let pos := Z.to_nat (truncate a) in
      match centers !! pos, widths !! pos with
      | Some center, Some width =>
          let max_dist := ddiv width (Fin 2) in
          let dist := dabs (dsub along center) in
          if negb (dltb (Fin 0) max_dist) then Fin 0
          else
            let x := ddiv (dsub max_dist dist) max_dist in
            if dltb x (Fin 0) then Fin 0 else x
      | _, _ => Fin 0
      end
  end.

(** Modelled from the spec: [transform], [ZeroEdgeExtension] and
    [BilinearInterpolation] belong to the Vision Workbench, whose sources
    are not under src/.  Section 4.4 asks for a bilinear resampling kernel
    with zero-fill outside the source bounds, and section 3 for the
    inverse of the transform to pull a canvas position back into the
    source image.  A pixel outside the source is the default pixel of the
    masked type, which is invalid; the four pixels around the source
    position are mixed with the bilinear coefficients, also when a
    coefficient is 0, and a mix of masked pixels is valid only when all of
    them are. *)
Definition zero_edge_extension (img : ImageView PixelMask) (x y : Z)
  : PixelMask :=
  if (0 <=? x) && (x <? iv_cols img) && (0 <=? y) && (y <? iv_rows img)
  then iv_pix img x y else None.

(** The source position of a canvas position; a transform that cannot be
    inverted does not reach the renderer, the layout throws on it. *)
Definition affine_reverse (tf : AffineTransform) (p : Q * Q) : option (Q * Q) :=
  let det := (m00 tf * m11 tf - m01 tf * m10 tf)%Q in
  if Qeq_bool det 0 then None
  else
    let u := (fst p - t0 tf)%Q in
    let v := (snd p - t1 tf)%Q in
    Some ((m11 tf * u - m01 tf * v) / det, (m00 tf * v - m10 tf * u) / det)%Q.

Definition bilinear_interpolation (img : ImageView PixelMask) (i j : Q)
  : PixelMask :=
  let x := Qfloor i in
  let y := Qfloor j in
  let normx := (i - inject_Z x)%Q in
  let normy := (j - inject_Z y)%Q in
  match zero_edge_extension img x y, zero_edge_extension img (x + 1) y,
        zero_edge_extension img x (y + 1),
        zero_edge_extension img (x + 1) (y + 1) with
  | Some v00, Some v10, Some v01, Some v11 =>
      Some (to_float
              (dadd (dadd (dmul v00 (Fin ((1 - normx) * (1 - normy))))
                          (dmul v10 (Fin (normx * (1 - normy)))))
                    (dadd (dmul v01 (Fin ((1 - normx) * normy)))
                          (dmul v11 (Fin (normx * normy))))))
  | _, _, _, _ => None
  end.

Definition vw_bilinear_transform (img : ImageView PixelMask)
           (tf : AffineTransform) (x y : Z) : PixelMask :=
  match affine_reverse tf (inject_Z x, inject_Z y) with
  | Some (i, j) => bilinear_interpolation img i j
  | None => None
  end.

(** A 3x3 image whose only valid pixel is its centre. *)
Definition lone_pixel_image : ImageView PixelMask :=
  mkImage 3 3 (fun c r => if (c =? 1) && (r =? 1) then Some (Fin 5) else None).

(** A 3x3 image whose only invalid pixel is its centre. *)
Definition ring_image : ImageView PixelMask :=
  mkImage 3 3 (fun c r => if (c =? 1) && (r =? 1) then None else Some (Fin 5)).

Definition lone_pixel_view : ImageMosaicView :=
  mkView [lone_pixel_image] [Some identity_affine] [mkBBox2i 0 0 3 3] 1 (3, 3)
         (Fin (-32768)).

(** A 4x4 image whose valid pixels are the 2x2 block in its middle, all 5,
    and the view of it alone, with blend radius 1.  The resampled image has
    one valid pixel, (1, 1): the only one whose four pixels are valid. *)
Definition block_image : ImageView PixelMask :=
  mkImage 4 4 (fun c r => if (1 <=? c) && (c <=? 2) && (1 <=? r) && (r <=? 2)
                          then Some (Fin 5) else None).

Definition block_view : ImageMosaicView :=
  mkView [block_image] [Some identity_affine] [mkBBox2i 0 0 4 4] 1 (4, 4)
         (Fin (-32768)).

(** A 6x6 image of valid pixels, all 5, and the view of it alone, with
    blend radius 1. *)
Definition solid_image : ImageView PixelMask :=
  mkImage 6 6 (fun _ _ => Some (Fin 5)).

Definition solid_view : ImageMosaicView :=
  mkView [solid_image] [Some identity_affine] [mkBBox2i 0 0 6 6] 1 (6, 6)
         (Fin (-32768)).

Definition translation (tx ty : Q) : Matrix3 :=
  mkMatrix3 1 0 tx
            0 1 ty
            0 0 1.

Definition flat_image (cols rows : Z) (v : double) : ImageView double :=
  mkImage cols rows (fun _ _ => v).

(** Three rasters of 100x100 pixels, with nodata value -9999. *)
Definition strip_disk (path : string) : option DiskImage :=
  if existsb (String.eqb path) ["a.tif"; "b.tif"; "c.tif"]%string
  then Some (mkDiskImage (100, 100) 1 (fun _ => flat_image 100 100 (Fin 7))
                         (Some (Fin (-9999))))
  else None.

(** The box spanned by the images of the two extreme corners. *)
Definition corner_box (b : BBox2i) (tf : AffineTransform) : BBox2f :=
  let p := forward tf (inject_Z (bmin_x b), inject_Z (bmin_y b)) in
  let q := forward tf (inject_Z (bmax_x b), inject_Z (bmax_y b)) in
  mkBBox2f (fst p) (snd p) (fst q) (snd q).

Definition two_matches : list InterestPoint * list InterestPoint :=
  ([mkIP 5 10 5 10; mkIP 15 60 15 60], [mkIP 15 15 15 15; mkIP 5 65 5 65]).

(** A world whose every pair of neighbours is fitted with [rel]. *)
Definition strip_world (rel : Matrix3) : World :=
  mkWorld strip_disk
          (fun _ _ _ _ _ => two_matches)
          (fun _ _ _ => Some rel)
          (fun _ _ _ _ => Some [0%nat; 1%nat])
          (fun m => Some m)
          corner_box
          (fun _ d => d)
          (fun _ _ _ _ => None).


Definition strip_options (files : list string) : Options :=
  mkOptions (256, 256) files "horizontal" "mosaic.tif" "Float32" 20 0 20
            false false quiet_NaN quiet_NaN.

Definition strip_command_line (files : list string) (orient : option string)
           (blend : option Z) (tile : Z * Z) : CommandLine :=
  mkCommandLine files orient (Some 20) blend (Some "mosaic.tif"%string)
                None None None None tile 0 "".

(** What [handle_arguments] guarantees for one tile dimension, given the
    blend radius in force, the dimension before and the dimension after. *)
Definition tile_dimension_ok (blend_radius d_in d_out : Z) : Prop :=
  2 * blend_radius <= d_out
  /\ (d_in < 2 * blend_radius ->
      d_out mod TILE_MULTIPLE = 0 /\ d_out < 2 * blend_radius + TILE_MULTIPLE)
  /\ (2 * blend_radius <= d_in -> d_out = d_in).

(** Two images of a strip, the second one 5 pixels higher than the first. *)
Definition shifted_strip_world : World := strip_world (translation 90 (-5)).

(** ** One pixel of a tile *)

Section PixelOfTile.

Variable compute_line_weights :
  double * double -> bool -> list double -> list double -> double.

Variable vw_transform :
  ImageView PixelMask -> AffineTransform -> Z -> Z -> PixelMask.

(** What image [i] brings to pixel [(x, y)] of the tile [bbox]: the value
    and the weight that the paste loop reads for it, when the box of the
    image meets the tile, the pixel lies in their intersection and the
    resampled pixel is valid; nothing otherwise. *)
Definition contribution (v : ImageMosaicView) (bbox : BBox2i) (i : nat)
           (x y : Z) : option (double * double) :=
  match m_bboxes v !! i, m_images v !! i, m_transforms v !! i with
  | Some bbox_i, Some image_i, Some (Some temp) =>
      if negb (bbox_intersects bbox_i bbox) then None
      else
        let intersect := bbox_crop bbox_i bbox in
        let tile_bbox := bbox_sub intersect (bmin_x bbox, bmin_y bbox) in
        let expanded_intersect := bbox_expand intersect (m_blend_radius v) in
        let trans_input :=
          crop_plane (vw_transform image_i temp) expanded_intersect in
        let input_weights :=
          clamped_input_weights compute_line_weights trans_input intersect
                                (m_blend_radius v) in
        let c := x - bmin_x tile_bbox in
        let r := y - bmin_y tile_bbox in
        if (bmin_x tile_bbox <=? x)
           && (x <? bbox_width intersect + bmin_x tile_bbox)
           && (bmin_y tile_bbox <=? y)
           && (y <? bbox_height intersect + bmin_y tile_bbox)
           && is_valid (iv_pix trans_input (c + m_blend_radius v)
                               (r + m_blend_radius v))
        then Some (remove_mask (iv_pix trans_input (c + m_blend_radius v)
                                       (r + m_blend_radius v)),
                   accumulation_weight input_weights (m_blend_radius v) c r)
        else None
  | _, _, _ => None
  end.

(** The contributions to a pixel, in the order of the images. *)
Definition contributions (v : ImageMosaicView) (bbox : BBox2i) (x y : Z)
  : list (double * double) :=
  omap (fun i => contribution v bbox i x y) (seq 0 (length (m_images v))).

End PixelOfTile.

(** The accumulated value and weight of a pixel after one more
    contribution [(value, weight)]: the body of the paste loop for a valid
    source pixel. *)
Definition add_contribution (st : double * double) (vw : double * double)
  : double * double :=
  let product := to_double (dmul (fst vw) (snd vw)) in
  (if deqb (snd st) (Fin 0) then to_float product
   else to_float (to_double (dadd (fst st) product)),
   to_float (to_double (dadd (snd st) (snd vw)))).

(** The accumulated value and weight of pixel [(x, y)] of a tile. *)
Definition pixel_state (st : TileState) (x y : Z) : double * double :=
  (iv_pix (tile st) x y, iv_pix (weights st) x y).

(** The final division of a pixel by its accumulated weight. *)
Definition normalize_pixel (st : double * double) : double :=
  if dgtb (snd st) (Fin 0) then to_float (ddiv (fst st) (snd st)) else fst st.

(** ** Further predicates *)

(** The corners of [b] do not pass those of [o]. *)
Definition bbox_within (b o : BBox2i) : Prop :=
  bmin_x o <= bmin_x b /\ bmin_y o <= bmin_y b
  /\ bmax_x b <= bmax_x o /\ bmax_y b <= bmax_y o.


(** An event that opens a file opens one of [files]. *)
Definition opens_one_of (files : list string) (ev : Event) : bool :=
  match ev with
  | EvFileImageSize path | EvGetInputImage path =>
      existsb (String.eqb path) files
  | _ => true
  end.

(** The output types [write_selected_image_type] knows. *)
Definition supported_output_type (type : string) : bool :=
  String.eqb type "Float32" || existsb (String.eqb type) integer_output_types.

(** The command line with another value for [input-nodata-value]. *)
Definition with_input_nodata_value (cl : CommandLine) (o : option double)
  : CommandLine :=
  mkCommandLine (cl_input_files cl) (cl_orientation cl) (cl_overlap_width cl)
                (cl_blend_radius cl) (cl_output_image cl) (cl_ot cl)
                (cl_band cl) o (cl_output_nodata_value cl) (cl_tile_size cl)
                (cl_indeterminate_band cl) (cl_options_help cl).

(** A world with one more raster of 40x30 pixels, [lone.tif]. *)
Definition lone_raster : DiskImage :=
  mkDiskImage (40, 30) 1 (fun _ => flat_image 40 30 (Fin 7)) None.

Definition lone_world : World :=
  mkWorld (fun path =>
             if String.eqb path "lone.tif" then Some lone_raster else None)
          (fun _ _ _ _ _ => ([], []))
          (fun _ _ _ => None)
          (fun _ _ _ _ => None)
          (fun _ => None)
          corner_box
          (fun _ d => d)
          (fun _ _ _ _ => None).

(** An image without any valid pixel. *)
Definition blank_image : ImageView PixelMask := mkImage 3 3 (fun _ _ => None).


(** The options of a horizontal strip whose overlap width is 0. *)
Definition no_overlap_options : Options :=
  mkOptions (256, 256) ["a.tif"; "b.tif"]%string "horizontal" "mosaic.tif"
            "Float32" 0 0 20 false false quiet_NaN quiet_NaN.

(** The raster [get_input_image] selects from a file, and the nodata value
    it reads from it. *)
Definition input_channel (opt : Options) (d : DiskImage) : ImageView double :=
  if di_num_channels d =? 1 then di_channel d 0
  else di_channel d (band opt - 1).

Definition disk_nodata (d : DiskImage) : double :=
  match di_nodata d with
  | Some v => v
  | None => quiet_NaN
  end.

(** The command line of a strip of two images, with the default options. *)
Definition two_strip_command_line : CommandLine :=
  strip_command_line ["a.tif"; "b.tif"]%string None None (256, 256).

(** The mask of [ring_image] with other pixel values. *)
Definition bright_ring_image : ImageView PixelMask :=
  mkImage 3 3 (fun c r => if (c =? 1) && (r =? 1) then None
                          else Some (Fin (inject_Z (200 + c + r)))).

(** * Properties *)

(** ** Loops *)

Ltac zbool :=
  repeat match goal with
         | |- context [Z.eqb ?a ?b] => destruct (Z.eqb_spec a b)
         | |- context [Z.leb ?a ?b] => destruct (Z.leb_spec a b)
         | |- context [Z.ltb ?a ?b] => destruct (Z.ltb_spec a b)
         end;
  simpl; try lia; try reflexivity.

Section LoopLemmas.

Context {St : Type}.
Implicit Types (body : Z -> St -> St) (s : St).

Lemma for_range_empty lo hi body s :
  hi <= lo -> for_range lo hi body s = s.
Proof.
  intros H. unfold for_range.
  replace (Z.to_nat (hi - lo)) with 0%nat by lia. reflexivity.
Qed.

Lemma for_range_last lo hi body s :
  lo <= hi ->
  for_range lo (hi + 1) body s = body hi (for_range lo hi body s).
Proof.
  intros H. unfold for_range.
  replace (Z.to_nat (hi + 1 - lo)) with (S (Z.to_nat (hi - lo))) by lia.
  rewrite seq_S, fold_left_app. simpl. f_equal. lia.
Qed.

(** The invariant rule of the loop. *)
Lemma for_range_ind (P : Z -> St -> Prop) lo hi body s :
  lo <= hi ->
  P lo s ->
  (forall i s', lo <= i < hi -> P i s' -> P (i + 1) (body i s')) ->
  P hi (for_range lo hi body s).
Proof.
  intros Hle H0 Hstep.
  assert (Hn : forall n : nat,
             Z.of_nat n <= hi - lo ->
             P (lo + Z.of_nat n) (for_range lo (lo + Z.of_nat n) body s)).
  { induction n as [|n IH]; intros Hn.
    - rewrite for_range_empty by lia.
      replace (lo + Z.of_nat 0) with lo by lia. exact H0.
    - replace (lo + Z.of_nat (S n)) with (lo + Z.of_nat n + 1) by lia.
      rewrite for_range_last by lia.
      apply Hstep; [lia | apply IH; lia]. }
  specialize (Hn (Z.to_nat (hi - lo))).
  replace (lo + Z.of_nat (Z.to_nat (hi - lo))) with hi in Hn by lia.
  apply Hn. lia.
Qed.

(** A loop whose turn [i] rewrites the one cell [i + o] of its state. *)
Lemma for_range_get {P : Type} (get : St -> Z -> P) (g : Z -> P -> P)
      body (o : Z) :
  (forall i s x,
      get (body i s) x = if x =? i + o then g i (get s x) else get s x) ->
  forall lo hi s x,
    get (for_range lo hi body s) x =
    if (lo + o <=? x) && (x <? hi + o) then g (x - o) (get s x)
    else get s x.
Proof.
  intros Hbody lo hi s x.
  destruct (Z_le_gt_dec lo hi) as [Hle | Hgt].
  - apply (for_range_ind
             (fun i s' =>
                get s' x =
                if (lo + o <=? x) && (x <? i + o) then g (x - o) (get s x)
                else get s x)); [exact Hle | zbool |].
    intros i s' Hi IH. rewrite Hbody, IH.
    zbool; replace (x - o) with i by lia; reflexivity.
  - rewrite for_range_empty by lia. zbool.
Qed.

(** Two nested loops whose turn [(c, r)] rewrites the one cell
    [(c + ox, r + oy)]. *)
Lemma for_pixels_get {P : Type} (get : St -> Z -> Z -> P)
      (g : Z -> Z -> P -> P) (body : Z -> Z -> St -> St) (ox oy : Z) :
  (forall c r s x y,
      get (body c r s) x y =
      if (x =? c + ox) && (y =? r + oy) then g c r (get s x y)
      else get s x y) ->
  forall r0 r1 c0 c1 s x y,
    get (for_range r0 r1 (fun r => for_range c0 c1 (fun c => body c r)) s)
        x y =
    if (c0 + ox <=? x) && (x <? c1 + ox) && (r0 + oy <=? y) && (y <? r1 + oy)
    then g (x - ox) (y - oy) (get s x y)
    else get s x y.
Proof.
  intros Hbody r0 r1 c0 c1 s x y.
  rewrite (for_range_get
             (fun s' y' => get s' x y')
             (fun r p => if (c0 + ox <=? x) && (x <? c1 + ox)
                         then g (x - ox) r p else p)
             (fun r => for_range c0 c1 (fun c => body c r)) oy).
  - zbool.
  - intros r s' y'.
    rewrite (for_range_get
               (fun s'' x' => get s'' x' y')
               (fun c p => if y' =? r + oy then g c r p else p)
               (fun c => body c r) ox).
    + zbool.
    + intros c s'' x'. rewrite Hbody. zbool.
Qed.

End LoopLemmas.

(** ** Vectors *)

Lemma vget_vset (v : list Z) (i j x : Z) :
  0 <= i -> 0 <= j -> (Z.to_nat i < length v)%nat ->
  vget (vset v i x) j = if j =? i then x else vget v j.
Proof.
  intros Hi Hj Hlen. unfold vget, vset.
  destruct (Z.eqb_spec j i) as [-> | Hne].
  - rewrite list_lookup_insert_eq by exact Hlen. reflexivity.
  - rewrite list_lookup_insert_ne by lia. reflexivity.
Qed.

Lemma vget_replicate (n : nat) (x i : Z) :
  0 <= i < Z.of_nat n -> vget (replicate n x) i = x.
Proof.
  intros Hi. unfold vget.
  rewrite lookup_replicate_2 by lia. reflexivity.
Qed.

Lemma vset_length (v : list Z) (i x : Z) : length (vset v i x) = length v.
Proof. apply length_insert. Qed.

(** The two conditional writes of the scan. *)
Lemma vget_lower (v : list Z) (i j x : Z) :
  0 <= i -> 0 <= j -> (Z.to_nat i < length v)%nat ->
  vget (if x <? vget v i then vset v i x else v) j =
  if j =? i then Z.min x (vget v i) else vget v j.
Proof.
  intros Hi Hj Hlen.
  destruct (Z.ltb_spec x (vget v i)).
  - rewrite vget_vset by assumption. zbool.
  - destruct (Z.eqb_spec j i) as [-> | _]; [lia | reflexivity].
Qed.

Lemma vget_raise (v : list Z) (i j x : Z) :
  0 <= i -> 0 <= j -> (Z.to_nat i < length v)%nat ->
  vget (if vget v i <? x then vset v i x else v) j =
  if j =? i then Z.max x (vget v i) else vget v j.
Proof.
  intros Hi Hj Hlen.
  destruct (Z.ltb_spec (vget v i) x).
  - rewrite vget_vset by assumption. zbool.
  - destruct (Z.eqb_spec j i) as [-> | _]; [lia | reflexivity].
Qed.

(** ** Weight Field Builder *)

Section Scan.

Variable img : ImageView PixelMask.
Local Abbreviation numRows := (iv_rows img).
Local Abbreviation numCols := (iv_cols img).

Lemma extent_ok_ext V V' len other mins maxs at_ :
  (forall x y, V x y <-> V' x y) ->
  extent_ok img V len other mins maxs at_ -> extent_ok img V' len other mins maxs at_.
Proof.
  intros HV (Hl1 & Hl2 & H). repeat split; try assumption;
    destruct (H i ltac:(assumption)) as (Hb & Hlo & Hhi).
  - apply Hb; [apply HV|]; assumption.
  - apply Hb; [apply HV|]; assumption.
  - destruct Hlo as [? | [? ?]]; [left | right; split; [apply HV|]]; assumption.
  - destruct Hhi as [? | [? ?]]; [left | right; split; [apply HV|]]; assumption.
Qed.

Lemma scan_inv_ext V V' e :
  (forall x y, V x y <-> V' x y) -> scan_inv img V e -> scan_inv img V' e.
Proof.
  intros HV [H1 H2]. split; eapply extent_ok_ext; eassumption.
Qed.

Lemma scan_inv_init :
  0 <= numRows -> 0 <= numCols ->
  scan_inv img (fun _ _ => False) (init_extents numRows numCols).
Proof.
  intros Hr Hc. unfold scan_inv, extent_ok, init_extents. simpl.
  rewrite !length_replicate.
  repeat split; try tauto; try (left; apply vget_replicate; lia).
Qed.

(** One conditional update of a (min, max) pair of vectors. *)
Lemma extent_ok_step V len other mins maxs at_ i0 j0 :
  0 <= i0 < len ->
  (forall i j i' j', at_ i j = at_ i' j' -> i = i' /\ j = j') ->
  valid_at img (fst (at_ i0 j0)) (snd (at_ i0 j0)) ->
  extent_ok img V len other mins maxs at_ ->
  extent_ok img (fun x y => V x y \/ (x, y) = at_ i0 j0) len other
            (if j0 <? vget mins i0 then vset mins i0 j0 else mins)
            (if vget maxs i0 <? j0 then vset maxs i0 j0 else maxs)
            at_.
Proof.
  intros Hi0 Hinj Hvalid (Hl1 & Hl2 & H).
  split; [| split].
  - destruct (j0 <? vget mins i0); [rewrite vset_length|]; exact Hl1.
  - destruct (vget maxs i0 <? j0); [rewrite vset_length|]; exact Hl2.
  - intros i Hi.
    rewrite !vget_lower, !vget_raise by lia.
    destruct (H i Hi) as (Hb & Hlo & Hhi).
    destruct (Z.eqb_spec i i0) as [-> | Hne].
    + split; [| split].
      * intros j [HV | Heq] Hval.
        -- specialize (Hb j HV Hval). lia.
        -- rewrite <- surjective_pairing in Heq.
           apply Hinj in Heq as [_ ->]. lia.
      * destruct (Z.min_spec j0 (vget mins i0)) as [[_ ->] | [_ ->]].
        -- right. split; [right; symmetry; apply surjective_pairing | exact Hvalid].
        -- destruct Hlo as [? | [? ?]]; [left | right; split; [left|]];
             assumption.
      * destruct (Z.max_spec j0 (vget maxs i0)) as [[_ ->] | [_ ->]].
        -- destruct Hhi as [? | [? ?]]; [left | right; split; [left|]];
             assumption.
        -- right. split; [right; symmetry; apply surjective_pairing | exact Hvalid].
    + split; [| split].
      * intros j [HV | Heq] Hval.
        -- exact (Hb j HV Hval).
        -- rewrite <- surjective_pairing in Heq.
           apply Hinj in Heq as [? _]. contradiction.
      * destruct Hlo as [? | [? ?]]; [left | right; split; [left|]];
          assumption.
      * destruct Hhi as [? | [? ?]]; [left | right; split; [left|]];
          assumption.
Qed.

Lemma extent_ok_skip V len other mins maxs at_ x0 y0 :
  ~ valid_at img x0 y0 ->
  extent_ok img V len other mins maxs at_ ->
  extent_ok img (fun x y => V x y \/ (x, y) = (x0, y0)) len other mins maxs at_.
Proof.
  intros Hinv (Hl1 & Hl2 & H).
  split; [exact Hl1 | split; [exact Hl2 |]].
  intros i Hi. destruct (H i Hi) as (Hb & Hlo & Hhi).
  split; [| split].
  - intros j [HV | Heq] Hval; [exact (Hb j HV Hval) |].
    rewrite <- surjective_pairing in Heq. rewrite Heq in Hval.
    simpl in Hval. contradiction.
  - destruct Hlo as [? | [? ?]]; [left | right; split; [left|]]; assumption.
  - destruct Hhi as [? | [? ?]]; [left | right; split; [left|]]; assumption.
Qed.

Lemma scan_inv_step V e row col :
  0 <= row < numRows -> 0 <= col < numCols ->
  scan_inv img V e ->
  scan_inv img (fun x y => V x y \/ (x, y) = (col, row))
           (scan_pixel img row col e).
Proof.
  intros Hrow Hcol [Hr Hc]. unfold scan_pixel.
  destruct (is_valid (iv_pix img col row)) eqn:Hval; simpl.
  - split.
    + apply (extent_ok_step V numRows numCols _ _
                            (fun row col => (col, row)) row col);
        [exact Hrow | intros ? ? ? ? [= ? ?]; tauto | exact Hval | exact Hr].
    + apply (extent_ok_step V numCols numRows _ _
                            (fun col row => (col, row)) col row);
        [exact Hcol | intros ? ? ? ? [= ? ?]; tauto | exact Hval | exact Hc].
  - assert (Hn : ~ valid_at img col row)
      by (unfold valid_at; rewrite Hval; discriminate).
    split; apply extent_ok_skip; assumption.
Qed.

(** The extents after the single pass: all pixels have been visited. *)
Lemma scan_extents_inv :
  0 <= numRows -> 0 <= numCols ->
  scan_inv img (fun x y => 0 <= x < numCols /\ 0 <= y < numRows)
           (scan_extents img).
Proof.
  intros Hr Hc. unfold scan_extents. 
  apply (scan_inv_ext (fun x y => 0 <= x < numCols /\ 0 <= y < numRows));
    [tauto |].
  apply (for_range_ind
           (fun r e => scan_inv img (fun x y => 0 <= x < numCols /\ 0 <= y < r) e));
    [exact Hr | |].
  - eapply scan_inv_ext; [| exact (scan_inv_init Hr Hc)].
    intros x y. simpl. lia.
  - intros r e Hrange IH.
    apply (scan_inv_ext
             (fun x y => (0 <= x < numCols /\ 0 <= y < r)
                         \/ (y = r /\ 0 <= x < numCols)));
      [intros x y; lia |].
    apply (for_range_ind
             (fun c e' =>
                scan_inv img (fun x y => (0 <= x < numCols /\ 0 <= y < r)
                                     \/ (y = r /\ 0 <= x < c)) e'));
      [exact Hc | |].
    + eapply scan_inv_ext; [| exact IH]. intros x y. simpl. lia.
    + intros c e' Hcr IH'.
      eapply scan_inv_ext; [| apply (scan_inv_step _ e' r c Hrange Hcr IH')].
      intros x y. simpl. split.
      * intros [[H | H] | [= -> ->]]; lia.
      * intros [H | [-> H]]; [left; left; exact H |].
        destruct (Z.eq_dec x c) as [-> | Hne];
          [right; reflexivity | left; right; lia].
Qed.

(** The test [inner_col] of the code is membership in the row's span. *)
Lemma inner_col_spec row col :
  0 <= row < numRows -> 0 <= col < numCols ->
  (vget (minValInRow (scan_extents img)) row <= col
   /\ col <= vget (maxValInRow (scan_extents img)) row)
  <-> in_row_span img row col.
Proof.
  intros Hrow Hcol.
  destruct (scan_extents_inv ltac:(lia) ltac:(lia)) as [(_ & _ & H) _].
  destruct (H row Hrow) as (Hb & Hlo & Hhi). simpl in *.
  split.
  - intros [Hmin Hmax].
    destruct Hlo as [Heq | [[Hin _] Hv1]]; [lia |].
    destruct Hhi as [Heq | [[Hin' _] Hv2]].
    + exists (vget (minValInRow (scan_extents img)) row),
             (vget (minValInRow (scan_extents img)) row).
      repeat split; try assumption; lia.
    + exists (vget (minValInRow (scan_extents img)) row),
             (vget (maxValInRow (scan_extents img)) row).
      repeat split; try assumption; lia.
  - intros (c1 & c2 & Hc1 & Hc2 & Hv1 & Hv2).
    pose proof (Hb c1 ltac:(lia) Hv1). pose proof (Hb c2 ltac:(lia) Hv2).
    lia.
Qed.

(** The test [inner_row] of the code is membership in the column's span. *)
Lemma inner_row_spec row col :
  0 <= row < numRows -> 0 <= col < numCols ->
  (vget (minValInCol (scan_extents img)) col <= row
   /\ row <= vget (maxValInCol (scan_extents img)) col)
  <-> in_col_span img col row.
Proof.
  intros Hrow Hcol.
  destruct (scan_extents_inv ltac:(lia) ltac:(lia)) as [_ (_ & _ & H)].
  destruct (H col Hcol) as (Hb & Hlo & Hhi). simpl in *.
  split.
  - intros [Hmin Hmax].
    destruct Hlo as [Heq | [[_ Hin] Hv1]]; [lia |].
    destruct Hhi as [Heq | [[_ Hin'] Hv2]].
    + exists (vget (minValInCol (scan_extents img)) col),
             (vget (minValInCol (scan_extents img)) col).
      repeat split; try assumption; lia.
    + exists (vget (minValInCol (scan_extents img)) col),
             (vget (maxValInCol (scan_extents img)) col).
      repeat split; try assumption; lia.
  - intros (r1 & r2 & Hr1 & Hr2 & Hv1 & Hv2).
    pose proof (Hb r1 ltac:(lia) Hv1). pose proof (Hb r2 ltac:(lia) Hv2).
    lia.
Qed.

End Scan.

Lemma for_range_preserves {St : Type} (P : St -> Prop) lo hi
      (body : Z -> St -> St) (s : St) :
  P s -> (forall i s', P s' -> P (body i s')) -> P (for_range lo hi body s).
Proof.
  intros H0 Hstep. destruct (Z_le_gt_dec lo hi) as [Hle | Hgt].
  - apply (for_range_ind (fun _ s' => P s')); auto.
  - rewrite for_range_empty by lia. exact H0.
Qed.

Section WeightField.

Variable compute_line_weights :
  double * double -> bool -> list double -> list double -> double.

Lemma centerline_weights3_size img hole border roi :
  iv_cols (centerline_weights3 compute_line_weights img hole border roi)
  = bbox_width (weights_bbox img roi)
  /\ iv_rows (centerline_weights3 compute_line_weights img hole border roi)
     = bbox_height (weights_bbox img roi).
Proof.
  unfold centerline_weights3.
  apply (for_range_preserves
           (fun s => iv_cols s = bbox_width (weights_bbox img roi)
                     /\ iv_rows s = bbox_height (weights_bbox img roi)));
    [split; reflexivity |].
  intros row s Hs. apply for_range_preserves; [exact Hs |].
  intros col s' Hs'. exact Hs'.
Qed.

(** The last loop stores [new_weight] for every pixel of the region. *)
Lemma weight_at_new_weight img hole border roi col row :
  bmin_x (weights_bbox img roi) <= col < bmax_x (weights_bbox img roi) ->
  bmin_y (weights_bbox img roi) <= row < bmax_y (weights_bbox img roi) ->
  weight_at compute_line_weights img hole border roi col row
  = new_weight compute_line_weights img (scan_extents img) hole border
               col row.
Proof.
  intros Hcol Hrow. unfold weight_at, centerline_weights3.
  rewrite (for_pixels_get
             (fun s x y => iv_pix s x y)
             (fun c r _ =>
                new_weight compute_line_weights img (scan_extents img)
                           hole border c r)
             (fun c r s =>
                set_pixel s (c - bmin_x (weights_bbox img roi))
                          (r - bmin_y (weights_bbox img roi))
                          (new_weight compute_line_weights img
                                      (scan_extents img) hole border c r))
             (- bmin_x (weights_bbox img roi))
             (- bmin_y (weights_bbox img roi))).
  - replace (col - bmin_x (weights_bbox img roi)
             - - bmin_x (weights_bbox img roi)) with col by lia.
    replace (row - bmin_y (weights_bbox img roi)
             - - bmin_y (weights_bbox img roi)) with row by lia.
    zbool.
  - intros c r s x y. simpl. zbool.
Qed.

(** C6. For every invalid pixel of the input mask inside the region the
    weights are computed for: the pixel gets the hole-fill weight when it
    lies in the valid column span of its row and in the valid row span of
    its column, and the border weight otherwise; in particular an invalid
    pixel whose four neighbours are valid gets the hole-fill weight. *)
Theorem C6_invalid_pixel_weight img hole border roi col row :
  0 <= col < iv_cols img -> 0 <= row < iv_rows img ->
  bmin_x (weights_bbox img roi) <= col < bmax_x (weights_bbox img roi) ->
  bmin_y (weights_bbox img roi) <= row < bmax_y (weights_bbox img roi) ->
  is_valid (iv_pix img col row) = false ->
  (in_row_span img row col /\ in_col_span img col row ->
   weight_at compute_line_weights img hole border roi col row = hole)
  /\ (~ (in_row_span img row col /\ in_col_span img col row) ->
      weight_at compute_line_weights img hole border roi col row = border)
  /\ (0 < col -> col + 1 < iv_cols img -> 0 < row -> row + 1 < iv_rows img ->
      valid_at img (col - 1) row -> valid_at img (col + 1) row ->
      valid_at img col (row - 1) -> valid_at img col (row + 1) ->
      weight_at compute_line_weights img hole border roi col row = hole).
Proof.
  intros Hcol Hrow Hbx Hby Hinv.
  rewrite weight_at_new_weight by assumption.
  unfold new_weight. rewrite Hinv.
  pose proof (inner_col_spec img row col Hrow Hcol) as Hc.
  pose proof (inner_row_spec img row col Hrow Hcol) as Hr.
  assert (Hhole :
            in_row_span img row col /\ in_col_span img col row ->
            (if (vget (minValInCol (scan_extents img)) col <=? row)
                && (row <=? vget (maxValInCol (scan_extents img)) col)
                && ((vget (minValInRow (scan_extents img)) row <=? col)
                    && (col <=? vget (maxValInRow (scan_extents img)) row))
             then hole else border) = hole).
  { intros [Hrs Hcs]. apply Hc in Hrs. apply Hr in Hcs. zbool. }
  split; [exact Hhole | split].
  - intros Hnot.
    destruct (Z.leb_spec (vget (minValInCol (scan_extents img)) col) row);
      [| reflexivity].
    destruct (Z.leb_spec row (vget (maxValInCol (scan_extents img)) col));
      [| reflexivity].
    destruct (Z.leb_spec (vget (minValInRow (scan_extents img)) row) col);
      [| reflexivity].
    destruct (Z.leb_spec col (vget (maxValInRow (scan_extents img)) row));
      [| reflexivity].
    exfalso. apply Hnot. split; [apply Hc | apply Hr]; split; assumption.
  - intros ? ? ? ? Hl Hrt Hu Hd. apply Hhole. split.
    + exists (col - 1), (col + 1). repeat split; try assumption; lia.
    + exists (row - 1), (row + 1). repeat split; try assumption; lia.
Qed.

End WeightField.

(** The weights the renderer asks for: holes 0, borders -1. *)
Remark default_fill_values :
  hole_fill_value_default = Fin 0 /\ border_fill_value_default = Fin (-1).
Proof. split; reflexivity. Qed.

(** The invalid centre of [ring_image] is a hole. *)
Lemma C6_invalid_pixel_weight_witness :
  weight_at vw_compute_line_weights ring_image
            hole_fill_value_default border_fill_value_default BBox2i_empty 1 1
  = hole_fill_value_default.
Proof.
  apply (C6_invalid_pixel_weight vw_compute_line_weights ring_image
           hole_fill_value_default border_fill_value_default BBox2i_empty 1 1);
    try (cbn; lia); reflexivity.
Defined.

(** ** Tiled Mosaic Renderer: the weight ceiling *)

Lemma clamp_weights_pix (cutoff : double) (wts : ImageView double) (c r : Z) :
  iv_pix (clamp_weights cutoff wts) c r =
  if (0 <=? c) && (c <? iv_cols wts) && (0 <=? r) && (r <? iv_rows wts)
  then (if dgtb (iv_pix wts c r) cutoff then cutoff else iv_pix wts c r)
  else iv_pix wts c r.
Proof.
  unfold clamp_weights.
  rewrite (for_pixels_get
             (fun s x y => iv_pix s x y)
             (fun _ _ p => if dgtb p cutoff then cutoff else p)
             (fun c r s =>
                if dgtb (iv_pix s c r) cutoff then set_pixel s c r cutoff
                else s)
             0 0).
  - rewrite !Z.add_0_r. reflexivity.
  - intros c' r' s x y. rewrite !Z.add_0_r.
    destruct (Z.eqb_spec x c') as [-> | Hx];
      destruct (Z.eqb_spec y r') as [-> | Hy]; simpl;
        destruct (dgtb (iv_pix s c' r') cutoff) eqn:Hgt; simpl;
          try reflexivity; zbool.
Qed.

Lemma dgtb_irrefl (a : double) : dgtb a a = false.
Proof.
  destruct a as [| q]; [reflexivity |]. unfold dgtb, dltb.
  apply negb_false_iff, Qle_bool_iff, Qle_refl.
Qed.

(** With a blend radius that is not negative and an intersection that is
    not empty, the cutoff is the finite ratio of the code. *)
Lemma blend_cutoff_finite (intersect : BBox2i) (blend_radius : Z) :
  0 <= blend_radius ->
  0 < bbox_width intersect -> 0 < bbox_height intersect ->
  blend_cutoff intersect blend_radius =
  Fin (inject_Z blend_radius /
       (inject_Z (Z.min (bbox_height intersect) (bbox_width intersect)) / 2
        + inject_Z blend_radius)).
Proof.
  intros Hbr Hw Hh. unfold blend_cutoff, d_of_Z. simpl.
  destruct (Qeq_bool _ 0) eqn:Heq; [| reflexivity].
  exfalso. apply Qeq_bool_iff in Heq.
  assert (H1 : (inject_Z 1 <= inject_Z (Z.min (bbox_height intersect)
                                              (bbox_width intersect)))%Q)
    by (rewrite <- Zle_Qle; lia).
  assert (H2 : (inject_Z 0 <= inject_Z blend_radius)%Q)
    by (rewrite <- Zle_Qle; lia).
  change (inject_Z 1) with 1%Q in H1. change (inject_Z 0) with 0%Q in H2.
  revert Heq H1 H2.
  generalize (inject_Z (Z.min (bbox_height intersect) (bbox_width intersect))).
  generalize (inject_Z blend_radius).
  intros b m Heq H1 H2. unfold Qdiv in Heq.
  change (/ 2)%Q with (1 # 2)%Q in Heq. lra.
Qed.

Section WeightCeiling.

Variable compute_line_weights :
  double * double -> bool -> list double -> list double -> double.

(** Every weight of the field left for the accumulation: the centerline
    weight, replaced by the cutoff when it is above it. *)
Lemma clamped_input_weights_pix (trans_input : ImageView PixelMask)
      (intersect : BBox2i) (blend_radius x y : Z) :
  0 <= x < iv_cols trans_input -> 0 <= y < iv_rows trans_input ->
  iv_pix (clamped_input_weights compute_line_weights trans_input
                                intersect blend_radius) x y
  = (if dgtb (iv_pix (centerline_weights3 compute_line_weights
                        trans_input hole_fill_value_default
                        border_fill_value_default BBox2i_empty) x y)
             (blend_cutoff intersect blend_radius)
     then blend_cutoff intersect blend_radius
     else iv_pix (centerline_weights3 compute_line_weights trans_input
                    hole_fill_value_default border_fill_value_default
                    BBox2i_empty) x y).
Proof.
  intros Hx Hy. unfold clamped_input_weights. rewrite clamp_weights_pix.
  destruct (centerline_weights3_size compute_line_weights trans_input
              hole_fill_value_default border_fill_value_default
              BBox2i_empty) as [-> ->].
  unfold weights_bbox, bbox_width, bbox_height. simpl. zbool.
Qed.

End WeightCeiling.

(** ** The monad of the run *)

Lemma bind_run {A B : Type} (m : M A) (k : A -> M B) (t : list Event) :
  (m ≫= k) t =
  match m t with
  | (Ok a, t') => k a t'
  | (Err e, t') => (Err e, t')
  end.
Proof. reflexivity. Qed.

Lemma for_each_app {St : Type} (l1 l2 : list nat) (body : nat -> St -> M St)
      (s : St) (t : list Event) :
  for_each (l1 ++ l2) body s t =
  match for_each l1 body s t with
  | (Ok s1, t1) => for_each l2 body s1 t1
  | (Err e, t1) => (Err e, t1)
  end.
Proof.
  revert s t. induction l1 as [| i l1 IH]; intros s t; [reflexivity |].
  simpl. rewrite !bind_run.
  destruct (body i s t) as [[s' | e] t1]; [apply IH | reflexivity].
Qed.

Lemma extends_by_refl P t : extends_by P t t.
Proof. exists []. split; [symmetry; apply app_nil_r | reflexivity]. Qed.

Lemma extends_by_trans P t1 t2 t3 :
  extends_by P t1 t2 -> extends_by P t2 t3 -> extends_by P t1 t3.
Proof.
  intros (e1 & -> & H1) (e2 & -> & H2). exists (e1 ++ e2).
  split; [symmetry; apply app_assoc |].
  rewrite forallb_app, H1, H2. reflexivity.
Qed.

Lemma emits_only_ret {A : Type} P (a : A) : emits_only P (mret a).
Proof. intros t r t' [= _ <-]. apply extends_by_refl. Qed.

Lemma emits_only_throw {A : Type} P (e : Error) :
  emits_only P (vw_throw e : M A).
Proof. intros t r t' [= _ <-]. apply extends_by_refl. Qed.

Lemma emits_only_emit (P : Event -> bool) (ev : Event) :
  P ev = true -> emits_only P (emit ev).
Proof.
  intros HP t r t' [= _ <-]. exists [ev]. split; [reflexivity |].
  simpl. rewrite HP. reflexivity.
Qed.

Lemma emits_only_bind {A B : Type} P (m : M A) (k : A -> M B) :
  emits_only P m -> (forall a, emits_only P (k a)) -> emits_only P (m ≫= k).
Proof.
  intros Hm Hk t r t'. rewrite bind_run.
  destruct (m t) as [[a | e] t1] eqn:Hrun.
  - intros H. eapply extends_by_trans; [eapply Hm | eapply Hk]; eassumption.
  - intros [= _ <-]. eapply Hm; eassumption.
Qed.

Lemma emits_only_for_each {St : Type} P (l : list nat)
      (body : nat -> St -> M St) (s : St) :
  (forall i s', emits_only P (body i s')) -> emits_only P (for_each l body s).
Proof.
  intros Hbody. revert s. induction l as [| i l IH]; intros s; simpl.
  - apply emits_only_ret.
  - apply emits_only_bind; [apply Hbody | intros s'; apply IH].
Qed.

Ltac emits :=
  repeat first
         [ apply emits_only_ret
         | apply emits_only_throw
         | apply emits_only_emit; reflexivity
         | apply emits_only_bind; [| intros ?]
         | apply emits_only_for_each; intros ? ?
         | match goal with
           | |- emits_only _ (match ?x with _ => _ end) => destruct x
           end ].

(** ** What the layout stage does to the files *)

Section RunLemmas.

Variable w : World.

Lemma file_image_size_opens path :
  emits_only opens_image (file_image_size w path).
Proof. unfold file_image_size. emits. Qed.

Lemma get_input_image_opens path opt :
  emits_only opens_image (get_input_image w path opt).
Proof. unfold get_input_image. emits. Qed.

Lemma compute_relative_transform_opens f1 f2 opt :
  emits_only opens_image (compute_relative_transform w f1 f2 opt).
Proof.
  unfold compute_relative_transform.
  apply emits_only_bind; [apply file_image_size_opens | intros size1].
  apply emits_only_bind; [apply file_image_size_opens | intros size2].
  destruct (if String.eqb (orientation opt) "horizontal" then _ else _)
    as [roi1 roi2].
  destruct (bbox_empty roi1 || bbox_empty roi2); [apply emits_only_throw |].
  unfold affine_ip_matching, match_ip_in_regions.
  apply emits_only_bind.
  - apply emits_only_bind; [apply get_input_image_opens | intros [i1 n1]].
    apply emits_only_bind; [apply get_input_image_opens | intros [i2 n2]].
    emits.
  - intros [ip1 ip2]. emits.
Qed.

Lemma position_image_opens opt i p :
  emits_only opens_image (position_image w opt i p).
Proof.
  unfold position_image.
  apply emits_only_bind;
    [apply compute_relative_transform_opens | intros rel].
  apply emits_only_bind; [apply file_image_size_opens | intros size].
  emits.
Qed.

Lemma compute_positions_upto_opens opt k :
  emits_only opens_image (compute_positions_upto w opt k).
Proof.
  unfold compute_positions_upto.
  apply emits_only_bind; [apply file_image_size_opens | intros size].
  apply emits_only_for_each. intros i p. apply position_image_opens.
Qed.

Lemma compute_all_image_positions_opens opt :
  emits_only opens_image (compute_all_image_positions w opt).
Proof.
  unfold compute_all_image_positions, compute_positions.
  apply emits_only_bind; [apply compute_positions_upto_opens | intros p].
  apply emits_only_ret.
Qed.

Lemma load_image_opens opt i st :
  emits_only opens_image (load_image w opt i st).
Proof.
  unfold load_image.
  apply emits_only_bind; [apply get_input_image_opens | intros [img nd]].
  apply emits_only_ret.
Qed.

End RunLemmas.

Lemma handle_arguments_silent cl t r t' :
  handle_arguments cl t = (r, t') -> t' = t.
Proof.
  unfold handle_arguments.
  destruct (decide _); [intros [= _ <-]; reflexivity |].
  destruct (String.eqb _ _); intros [= _ <-]; reflexivity.
Qed.


(** ** Layout Chain Builder *)

Section Layout.

Variable w : World.

Lemma file_image_size_run path t :
  file_image_size w path t =
  match disk w path with
  | Some d => (Ok (di_size d), t ++ [EvFileImageSize path])
  | None => (Err (IOErr path), t ++ [EvFileImageSize path])
  end.
Proof.
  unfold file_image_size. rewrite bind_run. simpl.
  destruct (disk w path); reflexivity.
Qed.

(** A pair is aligned after both sizes are read and both images loaded. *)
Lemma compute_relative_transform_ok f1 f2 opt t rel t' :
  compute_relative_transform w f1 f2 opt t = (Ok rel, t') ->
  t' = t ++ [EvFileImageSize f1; EvFileImageSize f2;
             EvGetInputImage f1; EvGetInputImage f2].
Proof.
  unfold compute_relative_transform, affine_ip_matching,
    match_ip_in_regions, get_input_image, file_image_size.
  unfold mbind, M_bind, bind, mret, M_ret, ret, vw_throw, emit.
  destruct (disk w f1) as [d1 |] eqn:Hd1; [| discriminate].
  destruct (disk w f2) as [d2 |] eqn:Hd2; [| discriminate].
  destruct (if String.eqb (orientation opt) "horizontal" then _ else _)
    as [roi1 roi2].
  destruct (bbox_empty roi1 || bbox_empty roi2); [discriminate |].
  destruct (detect_match_ip w _ _ _ _ _) as [m1 m2].
  destruct (ransac w _ _ _); [| discriminate].
  destruct (inlier_indices w _ _ _ _); [| discriminate].
  intros [= _ <-]. rewrite <- !app_assoc. reflexivity.
Qed.

(** One successful turn of the loop. *)
Lemma position_image_ok opt i p t p' t' :
  position_image w opt i p t = (Ok p', t') ->
  exists rel,
    compute_relative_transform w (image_file opt (i - 1)) (image_file opt i)
                               opt t
    = (Ok rel, t ++ [EvFileImageSize (image_file opt (i - 1));
                     EvFileImageSize (image_file opt i);
                     EvGetInputImage (image_file opt (i - 1));
                     EvGetInputImage (image_file opt i)])
    /\ t' = t ++ pair_events (image_file opt (i - 1)) (image_file opt i)
    /\ last_transform p' =
       (if (i =? 0)%nat then rel else mmul (last_transform p) rel)
    /\ transforms p' =
       <[i := Some (affine_of_matrix (last_transform p'))]> (transforms p)
    /\ (exists b, bboxes p' = <[i := b]> (bboxes p))
    /\ (exists pt, output_bbox p' = bbox_grow_real (output_bbox p) pt).
Proof.
  unfold position_image. rewrite bind_run.
  destruct (compute_relative_transform w _ _ opt t) as [[rel | e] t1]
    eqn:Hrel; [| discriminate].
  pose proof (compute_relative_transform_ok _ _ _ _ _ _ Hrel) as ->.
  cbv beta iota. rewrite bind_run, file_image_size_run.
  destruct (disk w (image_file opt i)) as [d |]; [| discriminate].
  destruct (inverse w _); [| discriminate].
  intros [= <- <-]. exists rel.
  cbn [last_transform transforms bboxes output_bbox].
  split; [reflexivity |].
  split; [rewrite <- app_assoc; reflexivity |].
  split; [reflexivity |].
  split; [reflexivity |]. split; [eexists; reflexivity |].
  exists (forward (affine_of_matrix
                     (if (i =? 0)%nat then rel
                      else mmul (last_transform p) rel))
                  (inject_Z (fst (di_size d)), inject_Z (snd (di_size d)))).
  reflexivity.
Qed.

Lemma compute_positions_upto_S opt k t :
  compute_positions_upto w opt (S k) t =
  match compute_positions_upto w opt k t with
  | (Ok p, t1) => position_image w opt (S k) p t1
  | (Err e, t1) => (Err e, t1)
  end.
Proof.
  unfold compute_positions_upto. rewrite !bind_run.
  destruct (file_image_size w (image_file opt 0) t) as [[size | e] t1];
    [| reflexivity].
  rewrite seq_S, for_each_app. simpl.
  destruct (for_each (seq 1 k) _ _ t1) as [[p | e] t2]; [| reflexivity].
  rewrite bind_run. destruct (position_image w opt (S k) p t2) as [[p' | e] t3];
    reflexivity.
Qed.

(** The loop never touches the entries of image 0. *)
Lemma positions_first opt k t p t' :
  (1 <= length (image_files opt))%nat ->
  compute_positions_upto w opt k t = (Ok p, t') ->
  exists d0,
    disk w (image_file opt 0) = Some d0
    /\ transforms p !! 0%nat = Some (Some identity_affine)
    /\ bboxes p !! 0%nat =
       Some (bbox_grow (bbox_grow BBox2i_empty (0, 0)) (di_size d0))
    /\ length (transforms p) = length (image_files opt)
    /\ length (bboxes p) = length (image_files opt).
Proof.
  intros Hn. revert p t'. induction k as [| k IH]; intros p t'.
  - unfold compute_positions_upto. rewrite bind_run, file_image_size_run.
    destruct (disk w (image_file opt 0)) as [d0 |]; [| discriminate].
    simpl. intros [= <- _]. exists d0. simpl.
    rewrite !length_insert, !length_replicate.
    rewrite !list_lookup_insert_eq by (rewrite length_replicate; lia).
    repeat split; reflexivity.
  - rewrite compute_positions_upto_S.
    destruct (compute_positions_upto w opt k t) as [[p1 | e] t1];
      [| discriminate].
    intros Hstep.
    destruct (IH _ _ eq_refl) as (d0 & Hd0 & Htr & Hbb & Hl1 & Hl2).
    destruct (position_image_ok _ _ _ _ _ _ Hstep)
      as (rel & _ & _ & _ & Htr' & [b Hbb'] & _).
    exists d0. rewrite Htr', Hbb', !length_insert.
    rewrite !list_lookup_insert_ne by lia. auto.
Qed.

Lemma first_bbox_is_extent (cols rows : Z) :
  0 <= cols -> 0 <= rows ->
  bbox_grow (bbox_grow BBox2i_empty (0, 0)) (cols, rows)
  = mkBBox2i 0 0 cols rows.
Proof.
  intros Hc Hr. unfold bbox_grow, BBox2i_empty, INT_MAX, INT_MIN. simpl.
  f_equal; zbool.
Qed.

(** C5. For every non-empty ordered image list, the layout gives image 0
    the identity affine transform (identity 2x2 matrix, zero
    translation), and a canvas box that is exactly its native extent,
    from (0, 0) to its size. *)
Theorem C5_first_image_anchors_canvas opt t trs bbs size t' :
  (1 <= length (image_files opt))%nat ->
  compute_all_image_positions w opt t = (Ok (trs, bbs, size), t') ->
  exists d0,
    disk w (image_file opt 0) = Some d0
    /\ trs !! 0%nat = Some (Some (mkAffine 1 0 0 1 0 0))
    /\ (0 <= fst (di_size d0) -> 0 <= snd (di_size d0) ->
        bbs !! 0%nat
        = Some (mkBBox2i 0 0 (fst (di_size d0)) (snd (di_size d0)))).
Proof.
  intros Hn. unfold compute_all_image_positions, compute_positions.
  rewrite bind_run.
  destruct (compute_positions_upto w opt _ t) as [[p | e] t1] eqn:Hrun;
    [| discriminate].
  intros [= <- <- _ _].
  destruct (positions_first _ _ _ _ _ Hn Hrun) as (d0 & Hd0 & Htr & Hbb & _).
  exists d0. split; [exact Hd0 | split; [exact Htr |]].
  intros Hc Hr. rewrite Hbb. f_equal.
  destruct (di_size d0) as [cols rows]. apply first_bbox_is_extent; assumption.
Qed.

(** The chain of absolute transforms after [k] turns. *)
Lemma positions_chain opt k t p t' :
  (k < length (image_files opt))%nat ->
  compute_positions_upto w opt k t = (Ok p, t') ->
  exists absolute : list Matrix3,
    length absolute = S k
    /\ absolute !! 0%nat = Some identity_matrix3
    /\ absolute !! k = Some (last_transform p)
    /\ (forall i a, absolute !! i = Some a ->
                    transforms p !! i = Some (Some (affine_of_matrix a)))
    /\ (forall i, (1 <= i <= k)%nat ->
          exists prev cur rel ti ti',
            absolute !! (i - 1)%nat = Some prev
            /\ absolute !! i = Some cur
            /\ compute_relative_transform
                 w (image_file opt (i - 1)) (image_file opt i) opt ti
               = (Ok rel, ti')
            /\ cur = mmul prev rel)
    /\ t' = t ++ EvFileImageSize (image_file opt 0)
              :: flat_map (fun i => pair_events (image_file opt (i - 1))
                                                (image_file opt i))
                          (seq 1 k).
Proof.
  revert p t'. induction k as [| k IH]; intros p t' Hk.
  - unfold compute_positions_upto. rewrite bind_run, file_image_size_run.
    destruct (disk w (image_file opt 0)) as [d0 |]; [| discriminate].
    simpl. intros [= <- <-]. exists [identity_matrix3]. simpl.
    repeat split; try reflexivity.
    + intros [| i] a Ha; [| discriminate].
      injection Ha as <-.
      rewrite list_lookup_insert_eq by (rewrite length_replicate; lia).
      reflexivity.
    + intros i Hi. lia.
  - rewrite compute_positions_upto_S.
    destruct (compute_positions_upto w opt k t) as [[p1 | e] t1] eqn:Hrun;
      [| discriminate].
    intros Hstep.
    destruct (IH _ _ ltac:(lia) eq_refl)
      as (absolute & Hlen & H0 & Hlast & Hstored & Hchain & ->).
    destruct (positions_first opt k t p1 _ ltac:(lia) Hrun)
      as (_ & _ & _ & _ & Hl1 & _).
    destruct (position_image_ok _ _ _ _ _ _ Hstep)
      as (rel & Hrel & -> & Hnew & Htr' & _ & _).
    simpl in Hnew. replace (S k - 1)%nat with k in * by lia.
    exists (absolute ++ [last_transform p]).
    split; [rewrite length_app, Hlen; simpl; lia |].
    split; [rewrite lookup_app_l by lia; exact H0 |].
    split; [rewrite lookup_app_r by lia;
            replace (S k - length absolute)%nat with 0%nat by lia;
            reflexivity |].
    split; [| split].
    + intros i a Ha. rewrite Htr'.
      destruct (Nat.eq_dec i (S k)) as [-> | Hne].
      * rewrite lookup_app_r in Ha by lia.
        replace (S k - length absolute)%nat with 0%nat in Ha by lia.
        injection Ha as <-.
        apply list_lookup_insert_eq. unfold TransformPtr in *. lia.
      * rewrite list_lookup_insert_ne by lia. apply Hstored.
        destruct (Nat.lt_ge_cases i (length absolute)) as [Hlt | Hge].
        -- rewrite lookup_app_l in Ha by exact Hlt. exact Ha.
        -- rewrite lookup_app_r in Ha by exact Hge.
           destruct (i - length absolute)%nat as [| j] eqn:Hj;
             [lia | discriminate].
    + intros i Hi. destruct (Nat.eq_dec i (S k)) as [-> | Hne].
      * exists (last_transform p1), (last_transform p), rel.
        eexists; eexists.
        replace (S k - 1)%nat with k by lia.
        split; [rewrite lookup_app_l by lia; exact Hlast |].
        split; [rewrite lookup_app_r by lia;
                replace (S k - length absolute)%nat with 0%nat by lia;
                reflexivity |].
        split; [exact Hrel | exact Hnew].
      * destruct (Hchain i ltac:(lia))
          as (prev & cur & rel' & ti & ti' & Hp & Hc & Hr & Hm).
        exists prev, cur, rel', ti, ti'.
        split; [rewrite lookup_app_l by lia; exact Hp |].
        split; [rewrite lookup_app_l by lia; exact Hc |].
        split; [exact Hr | exact Hm].
    + rewrite seq_S, flat_map_app. cbn [flat_map].
      rewrite app_nil_r, <- app_assoc.
      replace (1 + k - 1)%nat with k by lia. reflexivity.
Qed.

(** C4. For every image [i >= 1] the absolute transform is the matrix
    product of the absolute transform of image [i - 1] with the transform
    just fitted for the pair [(i - 1, i)]; the transform stored for an
    image is made of the two upper rows of its absolute transform, the
    identity for image 0; and the files are read pair by pair along the
    strip, so only neighbours are aligned. *)
Theorem C4_absolute_transform_chain opt t trs bbs size t' :
  (1 <= length (image_files opt))%nat ->
  compute_all_image_positions w opt t = (Ok (trs, bbs, size), t') ->
  exists absolute : list Matrix3,
    length absolute = length (image_files opt)
    /\ absolute !! 0%nat = Some identity_matrix3
    /\ (forall i a, absolute !! i = Some a ->
                    trs !! i = Some (Some (affine_of_matrix a)))
    /\ (forall i, (1 <= i < length (image_files opt))%nat ->
          exists prev cur rel ti ti',
            absolute !! (i - 1)%nat = Some prev
            /\ absolute !! i = Some cur
            /\ compute_relative_transform
                 w (image_file opt (i - 1)) (image_file opt i) opt ti
               = (Ok rel, ti')
            /\ cur = mmul prev rel)
    /\ t' = t ++ EvFileImageSize (image_file opt 0)
              :: flat_map (fun i => pair_events (image_file opt (i - 1))
                                                (image_file opt i))
                          (seq 1 (length (image_files opt) - 1)).
Proof.
  intros Hn. unfold compute_all_image_positions, compute_positions.
  rewrite bind_run.
  destruct (compute_positions_upto w opt _ t) as [[p | e] t1] eqn:Hrun;
    [| discriminate].
  intros [= <- _ _ <-].
  destruct (positions_chain opt (length (image_files opt) - 1) t p t1
                            ltac:(lia) Hrun)
    as (absolute & Hlen & H0 & _ & Hstored & Hchain & Htrace).
  exists absolute.
  split; [lia |]. split; [exact H0 |]. split; [exact Hstored |].
  split; [| exact Htrace].
  intros i Hi. apply Hchain. lia.
Qed.

End Layout.

(** ** Errors of the layout stage *)

Section Abort.

Variable w : World.

Lemma compute_relative_transform_unsupported f1 f2 opt t d1 d2 :
  String.eqb (orientation opt) "horizontal" = false ->
  disk w f1 = Some d1 -> disk w f2 = Some d2 ->
  compute_relative_transform w f1 f2 opt t
  = (Err (ArgumentErr "Unrecognized image orientation!"),
     t ++ [EvFileImageSize f1; EvFileImageSize f2]).
Proof.
  intros Ho Hd1 Hd2.
  unfold compute_relative_transform, file_image_size.
  unfold mbind, M_bind, bind, mret, M_ret, ret, vw_throw, emit.
  rewrite Hd1, Hd2, Ho. simpl. rewrite <- app_assoc. reflexivity.
Qed.

Lemma position_image_error opt i p t e t' :
  compute_relative_transform w (image_file opt (i - 1)) (image_file opt i)
                             opt t = (Err e, t') ->
  position_image w opt i p t = (Err e, t').
Proof.
  intros H. unfold position_image. rewrite bind_run, H. reflexivity.
Qed.

Lemma compute_positions_upto_add opt k m t :
  compute_positions_upto w opt (k + m) t =
  match compute_positions_upto w opt k t with
  | (Ok p, t1) => for_each (seq (S k) m) (position_image w opt) p t1
  | (Err e, t1) => (Err e, t1)
  end.
Proof.
  unfold compute_positions_upto. rewrite !bind_run.
  destruct (file_image_size w (image_file opt 0) t) as [[size | e] t1];
    [| reflexivity].
  rewrite seq_app, for_each_app. reflexivity.
Qed.

(** The error of the first pair that cannot be aligned is the error of
    the whole layout stage. *)
Lemma compute_all_image_positions_error opt k p t tk e t' :
  (S k < length (image_files opt))%nat ->
  compute_positions_upto w opt k t = (Ok p, tk) ->
  compute_relative_transform w (image_file opt k) (image_file opt (S k))
                             opt tk = (Err e, t') ->
  compute_all_image_positions w opt t = (Err e, t').
Proof.
  intros Hk Hrun Hrel.
  unfold compute_all_image_positions, compute_positions.
  replace (length (image_files opt) - 1)%nat
    with (S k + (length (image_files opt) - 2 - k))%nat by lia.
  rewrite bind_run, compute_positions_upto_add, compute_positions_upto_S, Hrun.
  rewrite (position_image_error opt (S k) p tk e t'); [reflexivity |].
  replace (S k - 1)%nat with k by lia. exact Hrel.
Qed.

Lemma main_layout_error cl opt e t :
  handle_arguments cl [] = (Ok opt, []) ->
  compute_all_image_positions w opt [] = (Err e, t) ->
  main w cl [] = (Err e, t).
Proof.
  intros Hargs Hpos. unfold main. rewrite bind_run, Hargs.
  cbv beta iota. rewrite bind_run, Hpos. reflexivity.
Qed.

(** C3, as the code has it. For every run configured with an unsupported
    orientation, an output image name and at least two images whose two
    first files can be read, the program raises the configuration error
    of the orientation; it does so when it aligns the first pair, after
    the sizes of the two first images have been read from their files
    and before any image is loaded, matched, rendered or written. *)
Theorem C3_unsupported_orientation_error cl o f0 f1 rest name d0 d1 :
  cl_orientation cl = Some o -> o <> "horizontal"%string ->
  cl_input_files cl = f0 :: f1 :: rest ->
  cl_output_image cl = Some name -> name <> ""%string ->
  disk w f0 = Some d0 -> disk w f1 = Some d1 ->
  main w cl []
  = (Err (ArgumentErr "Unrecognized image orientation!"),
     [EvFileImageSize f0; EvFileImageSize f0; EvFileImageSize f1]).
Proof.
  intros Ho Hneq Hfiles Hout Hname Hd0 Hd1.
  apply String.eqb_neq in Hneq. apply String.eqb_neq in Hname.
  assert (Hargs : exists opt,
             handle_arguments cl [] = (Ok opt, [])
             /\ image_files opt = f0 :: f1 :: rest
             /\ orientation opt = o).
  { unfold handle_arguments, parsed_options.
    cbn [image_files output_image orientation].
    rewrite Hfiles, Hout, Ho. cbn [default from_option]. unfold id.
    destruct (decide _) as [Hnil | _]; [discriminate |].
    rewrite Hname. eexists. split; [reflexivity |]. split; reflexivity. }
  destruct Hargs as (opt & Hargs & Hf & Hor).
  apply (main_layout_error cl opt); [exact Hargs |].
  assert (H0 : image_file opt 0 = f0)
    by (unfold image_file; rewrite Hf; reflexivity).
  assert (H1 : image_file opt 1 = f1)
    by (unfold image_file; rewrite Hf; reflexivity).
  assert (Hfirst : compute_positions_upto w opt 0 []
                   = (Ok (mkPositions
                            (<[0%nat := Some identity_affine]>
                               (replicate (length (image_files opt)) None))
                            (<[0%nat := bbox_grow (bbox_grow BBox2i_empty (0, 0))
                                                  (di_size d0)]>
                               (replicate (length (image_files opt))
                                          BBox2i_empty))
                            (bbox_grow (bbox_grow BBox2i_empty (0, 0))
                                       (di_size d0))
                            identity_matrix3),
                      [EvFileImageSize f0])).
  { unfold compute_positions_upto. rewrite bind_run, file_image_size_run.
    rewrite H0, Hd0. reflexivity. }
  apply (compute_all_image_positions_error opt 0 _ [] _ _ _
           ltac:(rewrite Hf; simpl; lia) Hfirst).
  rewrite H0, H1.
  rewrite (compute_relative_transform_unsupported f0 f1 opt _ d0 d1);
    [reflexivity | rewrite Hor; exact Hneq | exact Hd0 | exact Hd1].
Qed.


End Abort.

(** ** Argument handling *)

Lemma wrap_int_id (z : Z) : in_int_range z -> wrap_int z = z.
Proof.
  unfold in_int_range, INT_MIN, INT_MAX, wrap_int. intros H.
  rewrite Z.mod_small by lia. lia.
Qed.

Lemma fix_tile_multiple_round_up (size : Z) :
  0 <= size <= INT_MAX - TILE_MULTIPLE ->
  fix_tile_multiple size mod TILE_MULTIPLE = 0
  /\ size <= fix_tile_multiple size < size + TILE_MULTIPLE.
Proof.
  unfold fix_tile_multiple, TILE_MULTIPLE, INT_MAX. intros H.
  rewrite Z.rem_mod_nonneg, Z.quot_div_nonneg by lia.
  pose proof (Z.div_mod size 16 ltac:(lia)) as Hdiv.
  pose proof (Z.mod_pos_bound size 16 ltac:(lia)) as Hmod.
  destruct (Z.eqb_spec (size mod 16) 0) as [Hz | Hnz]; simpl.
  - split; [exact Hz | lia].
  - rewrite (wrap_int_id (size / 16 + 1))
      by (unfold in_int_range, INT_MIN, INT_MAX; lia).
    rewrite wrap_int_id by (unfold in_int_range, INT_MIN, INT_MAX; lia).
    split; [apply Z_mod_mult | lia].
Qed.

Lemma fix_tile_dimension_ok (blend_radius d_in : Z) :
  0 <= blend_radius <= 1073741815 ->
  tile_dimension_ok blend_radius d_in
                    (fix_tile_dimension (wrap_int (2 * blend_radius)) d_in).
Proof.
  intros H. unfold tile_dimension_ok, fix_tile_dimension.
  rewrite wrap_int_id by (unfold in_int_range, INT_MIN, INT_MAX; lia).
  pose proof (fix_tile_multiple_round_up (2 * blend_radius)
                ltac:(unfold INT_MAX, TILE_MULTIPLE; lia)) as [Hm Hb].
  destruct (Z.ltb_spec d_in (2 * blend_radius)); repeat split; lia.
Qed.

(** C9, as the code has it. After argument handling each dimension of the
    raster tile size is at least twice the blend radius; a dimension that
    was smaller is replaced by twice the blend radius rounded up to a
    multiple of 16, and a dimension that was large enough is kept as it
    was given, whether or not it is a multiple of 16. *)
Theorem C9_tile_size_after_arguments cl opt t :
  handle_arguments cl [] = (Ok opt, t) ->
  0 <= blend_radius opt <= 1073741815 ->
  tile_dimension_ok (blend_radius opt) (fst (cl_tile_size cl))
                    (fst (raster_tile_size opt))
  /\ tile_dimension_ok (blend_radius opt) (snd (cl_tile_size cl))
                       (snd (raster_tile_size opt)).
Proof.
  unfold handle_arguments.
  destruct (decide _); [discriminate |].
  destruct (String.eqb _ _); [discriminate |].
  intros [= <- _]. cbn [blend_radius raster_tile_size fst snd parsed_options].
  intros Hbr. split; apply fix_tile_dimension_ok; exact Hbr.
Qed.

(** A tile of 40x300 with blend radius 21 becomes 48x300. *)
Lemma C9_tile_size_after_arguments_witness :
  tile_dimension_ok 21 40 48 /\ tile_dimension_ok 21 300 300.
Proof.
  apply (C9_tile_size_after_arguments
           (strip_command_line ["a.tif"; "b.tif"]%string None (Some 21)
                               (40, 300))
           (mkOptions (48, 300) ["a.tif"; "b.tif"]%string "horizontal"
                      "mosaic.tif" "Float32" 20 0 21 false false
                      quiet_NaN quiet_NaN)
           []); [reflexivity | simpl; lia].
Defined.

(** C9 as stated fails: a tile of 40x40 with a blend radius of 20 is left
    as it is; it does not exceed twice the blend radius and is not a
    multiple of 16. *)
Lemma C9_counterexample :
  exists opt,
    handle_arguments
      (strip_command_line ["a.tif"; "b.tif"]%string None (Some 20) (40, 40)) []
    = (Ok opt, [])
    /\ blend_radius opt = 20
    /\ raster_tile_size opt = (40, 40)
    /\ ~ (2 * blend_radius opt < fst (raster_tile_size opt))
    /\ fst (raster_tile_size opt) mod 16 <> 0.
Proof.
  eexists. split; [reflexivity |].
  split; [reflexivity |]. split; [reflexivity |].
  split; vm_compute; intros H; discriminate H.
Qed.

(** ** The nodata value of the output *)

Lemma handle_arguments_nodata cl t opt t' :
  handle_arguments cl t = (Ok opt, t') ->
  output_nodata_value opt = default quiet_NaN (cl_output_nodata_value cl).
Proof.
  unfold handle_arguments.
  destruct (decide _); [discriminate |].
  destruct (String.eqb _ _); [discriminate |].
  intros [= <- _]. reflexivity.
Qed.

Section Output.

Variable w : World.

Lemma block_write_gdal_image_run path out_img type nodata t :
  block_write_gdal_image w path out_img type nodata t
  = (match write_failure w path out_img type nodata with
     | Some e => Err e
     | None => Ok tt
     end, t ++ [EvBlockWrite path type nodata]).
Proof.
  unfold block_write_gdal_image. rewrite bind_run. unfold emit.
  destruct (write_failure w path out_img type nodata); reflexivity.
Qed.

Lemma write_selected_image_type_run out_img nodata opt t r t' :
  write_selected_image_type w out_img nodata opt t = (r, t') ->
  exists evs,
    t' = t ++ EvWriteSelectedImageType out_img nodata :: evs
    /\ (forall view nd, ~ In (EvWriteSelectedImageType view nd) evs)
    /\ (forall path type nd,
           In (EvBlockWrite path type nd) evs ->
           (type = "Float32"%string -> nd = nodata)
           /\ (nd = nodata \/ nd = round_and_clamp w type nodata)).
Proof.
  unfold write_selected_image_type. rewrite bind_run.
  unfold emit at 1. cbv beta iota.
  destruct (String.eqb (output_type opt) "Float32") eqn:Hf.
  - rewrite block_write_gdal_image_run.
    intros [= _ <-]. eexists. rewrite <- app_assoc.
    split; [reflexivity |]. split.
    + intros view nd [H | []]. discriminate.
    + intros path type nd [[= _ _ <-] | []]. auto.
  - destruct (existsb _ _).
    + rewrite block_write_gdal_image_run.
      intros [= _ <-]. eexists. rewrite <- app_assoc.
      split; [reflexivity |]. split.
      * intros view nd [H | []]. discriminate.
      * intros path type nd [[= _ <- <-] | []].
        apply String.eqb_neq in Hf. split; [contradiction | auto].
    + intros [= _ <-]. exists []. split; [reflexivity |].
      split; [intros view nd [] | intros path type nd []].
Qed.

Lemma opens_image_no_write evs ev :
  forallb opens_image evs = true -> In ev evs -> opens_image ev = true.
Proof.
  intros H Hin. rewrite forallb_forall in H. apply H. exact Hin.
Qed.

(** C10. In every run without the output-nodata-value option, the nodata
    sentinel of the mosaic view and the nodata value given to the writer
    are both the quiet NaN that [Options] starts with, whatever nodata
    values the input images carry on disk. *)
Theorem C10_default_output_nodata cl r t :
  cl_output_nodata_value cl = None ->
  main w cl [] = (r, t) ->
  (forall out_img nodata,
      In (EvWriteSelectedImageType out_img nodata) t ->
      m_output_nodata_value out_img = quiet_NaN /\ nodata = quiet_NaN)
  /\ (forall path type nodata,
         In (EvBlockWrite path type nodata) t ->
         (type = "Float32"%string -> nodata = quiet_NaN)
         /\ (nodata = quiet_NaN
             \/ nodata = round_and_clamp w type quiet_NaN))
  /\ (r = Ok tt ->
      exists out_img,
        In (EvWriteSelectedImageType out_img quiet_NaN) t
        /\ m_output_nodata_value out_img = quiet_NaN).
Proof.
  intros Hnone. unfold main. rewrite bind_run.
  destruct (handle_arguments cl []) as [[opt | e] t0] eqn:Hargs.
  2: { intros [= <- <-].
       pose proof (handle_arguments_silent _ _ _ _ Hargs) as ->.
       repeat split; try (intros; contradiction); discriminate. }
  pose proof (handle_arguments_silent _ _ _ _ Hargs) as ->.
  pose proof (handle_arguments_nodata _ _ _ _ Hargs) as Hnd.
  rewrite Hnone in Hnd. cbn [default] in Hnd.
  cbv beta iota. rewrite bind_run.
  destruct (compute_all_image_positions w opt [])
    as [[[[trs bbs] size] | e] t1] eqn:Hpos.
  2: { intros [= <- <-].
       destruct (compute_all_image_positions_opens w opt _ _ _ Hpos)
         as (evs & -> & Hevs). simpl.
       repeat split; try discriminate;
         intros; exfalso;
           match goal with
           | H : In _ _ |- _ =>
               apply (opens_image_no_write _ _ Hevs) in H; discriminate
           end. }
  destruct (compute_all_image_positions_opens w opt _ _ _ Hpos)
    as (evs1 & -> & Hevs1). simpl app.
  cbv beta iota. rewrite bind_run.
  destruct (for_each _ (load_image w opt) _ evs1)
    as [[[images nodata] | e] t2] eqn:Hload.
  2: { intros [= <- <-].
       destruct (emits_only_for_each opens_image _ _ _
                   (load_image_opens w opt) _ _ _ Hload)
         as (evs & -> & Hevs).
       assert (Hall : forallb opens_image (evs1 ++ evs) = true)
         by (rewrite forallb_app, Hevs1, Hevs; reflexivity).
       repeat split; try discriminate;
         intros; exfalso;
           match goal with
           | H : In _ _ |- _ =>
               apply (opens_image_no_write _ _ Hall) in H; discriminate
           end. }
  destruct (emits_only_for_each opens_image _ _ _
              (load_image_opens w opt) _ _ _ Hload)
    as (evs2 & -> & Hevs2).
  assert (Hall : forallb opens_image (evs1 ++ evs2) = true)
    by (rewrite forallb_app, Hevs1, Hevs2; reflexivity).
  cbv beta iota zeta. rewrite Hnd. intros Hwrite.
  destruct (write_selected_image_type_run _ _ _ _ _ _ Hwrite)
    as (evs & -> & Hno & Hblock).
  split; [| split].
  - intros out_img nd [Hin | [[= <- <-] | Hin]]%in_app_or.
    + apply (opens_image_no_write _ _ Hall) in Hin. discriminate.
    + split; reflexivity.
    + exfalso. exact (Hno _ _ Hin).
  - intros path type nd [Hin | [Heq | Hin]]%in_app_or.
    + apply (opens_image_no_write _ _ Hall) in Hin. discriminate.
    + discriminate.
    + exact (Hblock _ _ _ Hin).
  - intros _.
    exists (mkView images trs bbs (blend_radius opt) size quiet_NaN).
    split; [| reflexivity].
    apply in_or_app. right. left. reflexivity.
Qed.

End Output.

(** ** The overall box only grows *)

Lemma truncate_below (q : Q) (z : Z) :
  (q < inject_Z z)%Q -> truncate q <= z.
Proof.
  destruct q as [n d]. unfold Qlt, truncate. simpl. rewrite Z.mul_1_r.
  intros H. pose proof (Z.quot_rem' n (Zpos d)) as Hqr.
  destruct (Z_le_gt_dec 0 n) as [Hn | Hn].
  - pose proof (Z.rem_bound_pos_pos n (Zpos d) ltac:(lia) Hn). nia.
  - pose proof (Z.rem_bound_pos_neg n (Zpos d) ltac:(lia) ltac:(lia)). nia.
Qed.

Lemma truncate_above (q : Q) (z : Z) :
  (inject_Z z < q)%Q -> z <= truncate q.
Proof.
  destruct q as [n d]. unfold Qlt, truncate. simpl. rewrite Z.mul_1_r.
  intros H. pose proof (Z.quot_rem' n (Zpos d)) as Hqr.
  destruct (Z_le_gt_dec 0 n) as [Hn | Hn].
  - pose proof (Z.rem_bound_pos_pos n (Zpos d) ltac:(lia) Hn). nia.
  - pose proof (Z.rem_bound_pos_neg n (Zpos d) ltac:(lia) ltac:(lia)). nia.
Qed.

(** Growing a box by a point never moves a corner inwards. *)
Lemma bbox_grow_real_includes (b : BBox2i) (p : Q * Q) :
  bmin_x (bbox_grow_real b p) <= bmin_x b
  /\ bmin_y (bbox_grow_real b p) <= bmin_y b
  /\ bmax_x b <= bmax_x (bbox_grow_real b p)
  /\ bmax_y b <= bmax_y (bbox_grow_real b p).
Proof.
  destruct p as [x y]. unfold bbox_grow_real. simpl.
  repeat split;
    match goal with
    | |- context [Qle_bool ?a ?c] =>
        destruct (Qle_bool a c) eqn:Hle; simpl; [lia |];
          assert (Hlt : (c < a)%Q)
            by (apply Qnot_le_lt; rewrite <- Qle_bool_iff, Hle; discriminate)
    end;
    first [apply truncate_below; exact Hlt | apply truncate_above; exact Hlt].
Qed.

(** Every turn of the layout loop leaves an overall box that includes the
    one it found. *)
Lemma output_bbox_grows (w : World) opt i p t p' t' :
  position_image w opt i p t = (Ok p', t') ->
  bmin_x (output_bbox p') <= bmin_x (output_bbox p)
  /\ bmin_y (output_bbox p') <= bmin_y (output_bbox p)
  /\ bmax_x (output_bbox p) <= bmax_x (output_bbox p')
  /\ bmax_y (output_bbox p) <= bmax_y (output_bbox p').
Proof.
  intros H.
  destruct (position_image_ok _ _ _ _ _ _ _ H)
    as (rel & _ & _ & _ & _ & _ & [pt ->]).
  apply bbox_grow_real_includes.
Qed.

(** ** The final loop of the renderer *)

(** A pixel of the tile is divided by its accumulated weight when that
    weight is positive, and is left as the paste loops made it otherwise. *)
Lemma normalize_tile_pix (bbox : BBox2i) (st : TileState) (c r : Z) :
  iv_pix (normalize_tile bbox st) c r =
  if (0 <=? c) && (c <? bbox_width bbox) && (0 <=? r) && (r <? bbox_height bbox)
     && dgtb (iv_pix (weights st) c r) (Fin 0)
  then to_float (ddiv (iv_pix (tile st) c r) (iv_pix (weights st) c r))
  else iv_pix (tile st) c r.
Proof.
  unfold normalize_tile.
  rewrite (for_pixels_get
             (fun s y x => iv_pix s x y)
             (fun y x p => if dgtb (iv_pix (weights st) x y) (Fin 0)
                           then to_float (ddiv p (iv_pix (weights st) x y))
                           else p)
             (fun r' c' t =>
                if dgtb (iv_pix (weights st) c' r') (Fin 0)
                then set_pixel t c' r'
                               (to_float (ddiv (iv_pix t c' r')
                                               (iv_pix (weights st) c' r')))
                else t)
             0 0).
  - rewrite !Z.add_0_r, !Z.sub_0_r.
    destruct (dgtb (iv_pix (weights st) c r) (Fin 0)); zbool.
  - intros r' c' s y x. rewrite !Z.add_0_r.
    destruct (dgtb (iv_pix (weights st) c' r') (Fin 0)).
    + cbn [iv_pix set_pixel].
      destruct (Z.eqb_spec y r') as [-> | Hy];
        destruct (Z.eqb_spec x c') as [-> | Hx]; reflexivity.
    + destruct ((y =? r') && (x =? c')); reflexivity.
Qed.

(** What the paste loop of one image does to the pixel [(x, y)] of the
    tile: a valid source pixel replaces the tile value by [value * weight]
    where the accumulated weight tests equal to 0, adds to it elsewhere,
    and adds its weight to the accumulated weight. *)
Lemma paste_loop_pix (trans_input : ImageView PixelMask)
      (input_weights : ImageView double) (blend_radius : Z)
      (tile_bbox : BBox2i) (height width : Z) (st : TileState) (x y : Z) :
  pixel_state (for_range 0 height
                 (fun r =>
                    for_range 0 width
                      (fun c => paste_pixel trans_input input_weights
                                            blend_radius tile_bbox c r))
                 st) x y
  = if (bmin_x tile_bbox <=? x) && (x <? width + bmin_x tile_bbox)
       && (bmin_y tile_bbox <=? y) && (y <? height + bmin_y tile_bbox)
       && is_valid (iv_pix trans_input
                           (x - bmin_x tile_bbox + blend_radius)
                           (y - bmin_y tile_bbox + blend_radius))
    then
      add_contribution
        (pixel_state st x y)
        (remove_mask (iv_pix trans_input
                             (x - bmin_x tile_bbox + blend_radius)
                             (y - bmin_y tile_bbox + blend_radius)),
         accumulation_weight input_weights blend_radius
                             (x - bmin_x tile_bbox) (y - bmin_y tile_bbox))
    else pixel_state st x y.
Proof.
  rewrite (for_pixels_get
             pixel_state
             (fun c r p =>
                if is_valid (iv_pix trans_input (c + blend_radius)
                                    (r + blend_radius))
                then
                  add_contribution
                    p
                    (remove_mask (iv_pix trans_input (c + blend_radius)
                                         (r + blend_radius)),
                     accumulation_weight input_weights blend_radius c r)
                else p)
             (fun c r s => paste_pixel trans_input input_weights blend_radius
                                       tile_bbox c r s)
             (bmin_x tile_bbox) (bmin_y tile_bbox)).
  - rewrite !Z.add_0_l.
    destruct ((bmin_x tile_bbox <=? x) && (x <? width + bmin_x tile_bbox)
              && (bmin_y tile_bbox <=? y) && (y <? height + bmin_y tile_bbox));
      [| reflexivity].
    cbn [andb].
    destruct (is_valid _); reflexivity.
  - intros c r s x' y'. unfold paste_pixel, pixel_state, add_contribution.
    destruct (is_valid (iv_pix trans_input (c + blend_radius)
                               (r + blend_radius))).
    + cbn [tile weights fst snd].
      destruct (Z.eqb_spec x' (c + bmin_x tile_bbox)) as [-> | Hx];
        destruct (Z.eqb_spec y' (r + bmin_y tile_bbox)) as [-> | Hy];
        cbn [andb];
        destruct (deqb (iv_pix (weights s) (c + bmin_x tile_bbox)
                               (r + bmin_y tile_bbox)) (Fin 0));
        cbn [iv_pix set_pixel]; zbool.
    + destruct ((x' =? c + bmin_x tile_bbox) && (y' =? r + bmin_y tile_bbox));
        reflexivity.
Qed.

(** ** Tiled Mosaic Renderer: the weight ceiling in the accumulation *)

Section Accumulation.

Variable compute_line_weights :
  double * double -> bool -> list double -> list double -> double.

Variable vw_transform :
  ImageView PixelMask -> AffineTransform -> Z -> Z -> PixelMask.

(** C7. For every image that contributes to a tile, with [intersect] the
    intersection of its box with the tile and [trans_input] its resampled
    crop padded by the blend radius: the weights of the whole field are
    capped at the ceiling [blend_radius / (min(height, width) / 2 +
    blend_radius)] of the intersection, a weight above the ceiling being
    replaced by exactly the ceiling; and for every pixel [(c, r)] of the
    intersection, the turn of the image loop of [prerasterize] accumulates
    a valid source pixel into the tile with that capped weight, and leaves
    the tile pixel alone when the source pixel is invalid. *)
Theorem C7_weight_ceiling (v : ImageMosaicView) (bbox : BBox2i) (i : nat)
        (bbox_i : BBox2i) (image_i : ImageView PixelMask)
        (temp : AffineTransform) (intersect : BBox2i)
        (trans_input : ImageView PixelMask) (st : TileState) (c r : Z) :
  m_bboxes v !! i = Some bbox_i ->
  m_images v !! i = Some image_i ->
  m_transforms v !! i = Some (Some temp) ->
  bbox_intersects bbox_i bbox = true ->
  intersect = bbox_crop bbox_i bbox ->
  trans_input = crop_plane (vw_transform image_i temp)
                           (bbox_expand intersect (m_blend_radius v)) ->
  0 <= m_blend_radius v ->
  0 <= c < bbox_width intersect -> 0 <= r < bbox_height intersect ->
  exists cutoff raw weight : double,
    cutoff = Fin (inject_Z (m_blend_radius v) /
                  (inject_Z (Z.min (bbox_height intersect)
                                   (bbox_width intersect)) / 2
                   + inject_Z (m_blend_radius v)))
    /\ raw = iv_pix (centerline_weights3 compute_line_weights trans_input
                       hole_fill_value_default border_fill_value_default
                       BBox2i_empty)
                    (c + m_blend_radius v) (r + m_blend_radius v)
    /\ weight = (if dgtb raw cutoff then cutoff else raw)
    /\ dgtb weight cutoff = false
    /\ pixel_state
         (paste_image compute_line_weights vw_transform v bbox i st)
         (c + (bmin_x intersect - bmin_x bbox))
         (r + (bmin_y intersect - bmin_y bbox))
       = (if is_valid (iv_pix trans_input (c + m_blend_radius v)
                              (r + m_blend_radius v))
          then add_contribution
                 (pixel_state st (c + (bmin_x intersect - bmin_x bbox))
                              (r + (bmin_y intersect - bmin_y bbox)))
                 (remove_mask (iv_pix trans_input (c + m_blend_radius v)
                                      (r + m_blend_radius v)),
                  weight)
          else pixel_state st (c + (bmin_x intersect - bmin_x bbox))
                           (r + (bmin_y intersect - bmin_y bbox)))
    /\ (forall x y,
           0 <= x < iv_cols trans_input -> 0 <= y < iv_rows trans_input ->
           dgtb (iv_pix (clamped_input_weights compute_line_weights
                           trans_input intersect (m_blend_radius v)) x y)
                cutoff = false
           /\ iv_pix (clamped_input_weights compute_line_weights
                        trans_input intersect (m_blend_radius v)) x y
              = (if dgtb (iv_pix (centerline_weights3 compute_line_weights
                                    trans_input hole_fill_value_default
                                    border_fill_value_default BBox2i_empty)
                                 x y) cutoff
                 then cutoff
                 else iv_pix (centerline_weights3 compute_line_weights
                                trans_input hole_fill_value_default
                                border_fill_value_default BBox2i_empty)
                             x y)).
Proof.
  intros Hb Hi Ht Hint Hintersect Htrans Hbr Hc Hr.
  pose proof (blend_cutoff_finite intersect (m_blend_radius v) Hbr
                ltac:(lia) ltac:(lia)) as Hcut.
  exists (blend_cutoff intersect (m_blend_radius v)).
  eexists. eexists.
  split; [exact Hcut |]. split; [reflexivity |]. split; [reflexivity |].
  assert (Hle : forall a : double,
             dgtb (if dgtb a (blend_cutoff intersect (m_blend_radius v))
                   then blend_cutoff intersect (m_blend_radius v) else a)
                  (blend_cutoff intersect (m_blend_radius v)) = false).
  { intros a.
    destruct (dgtb a (blend_cutoff intersect (m_blend_radius v))) eqn:Hgt;
      [apply dgtb_irrefl | exact Hgt]. }
  split; [apply Hle |].
  assert (Hcols : iv_cols trans_input
                  = bbox_width intersect + 2 * m_blend_radius v)
    by (rewrite Htrans; unfold crop_plane, bbox_expand, bbox_width;
        cbn [iv_cols bmin_x bmax_x]; lia).
  assert (Hrows : iv_rows trans_input
                  = bbox_height intersect + 2 * m_blend_radius v)
    by (rewrite Htrans; unfold crop_plane, bbox_expand, bbox_height;
        cbn [iv_rows bmin_y bmax_y]; lia).
  split.
  - unfold paste_image. rewrite Hb, Hi, Ht, Hint. cbn [negb].
    rewrite <- Hintersect, <- Htrans. rewrite paste_loop_pix.
    unfold bbox_sub. cbn [bmin_x bmin_y fst snd].
    replace (c + (bmin_x intersect - bmin_x bbox)
             - (bmin_x intersect - bmin_x bbox)) with c by lia.
    replace (r + (bmin_y intersect - bmin_y bbox)
             - (bmin_y intersect - bmin_y bbox)) with r by lia.
    replace ((bmin_x intersect - bmin_x bbox
              <=? c + (bmin_x intersect - bmin_x bbox))
             && (c + (bmin_x intersect - bmin_x bbox)
                 <? bbox_width intersect + (bmin_x intersect - bmin_x bbox))
             && (bmin_y intersect - bmin_y bbox
                 <=? r + (bmin_y intersect - bmin_y bbox))
             && (r + (bmin_y intersect - bmin_y bbox)
                 <? bbox_height intersect + (bmin_y intersect - bmin_y bbox)))
      with true by (symmetry; zbool).
    cbn [andb]. unfold accumulation_weight.
    rewrite clamped_input_weights_pix by lia. reflexivity.
  - intros x y Hx Hy. rewrite clamped_input_weights_pix by assumption.
    split; [apply Hle | reflexivity].
Qed.

End Accumulation.

(** ** Concrete runs *)

(** C3 as stated fails: with orientation [vertical] and two readable
    images the configuration error is raised, but only after the files of
    both images have been opened to read their sizes. *)
Lemma C3_counterexample :
  fst (main shifted_strip_world
            (strip_command_line ["a.tif"; "b.tif"]%string
                                (Some "vertical"%string) None (256, 256)) [])
  = Err (ArgumentErr "Unrecognized image orientation!")
  /\ snd (main shifted_strip_world
               (strip_command_line ["a.tif"; "b.tif"]%string
                                   (Some "vertical"%string) None (256, 256)) [])
     = [EvFileImageSize "a.tif"; EvFileImageSize "a.tif";
        EvFileImageSize "b.tif"]
  /\ existsb opens_image
             (snd (main shifted_strip_world
                        (strip_command_line ["a.tif"; "b.tif"]%string
                                            (Some "vertical"%string) None
                                            (256, 256)) []))
     = true.
Proof. vm_compute. repeat split. Qed.

(** The same run, as an instance of the theorem. *)
Lemma C3_unsupported_orientation_error_witness :
  main shifted_strip_world
       (strip_command_line ["a.tif"; "b.tif"]%string (Some "vertical"%string)
                           None (256, 256)) []
  = (Err (ArgumentErr "Unrecognized image orientation!"),
     [EvFileImageSize "a.tif"; EvFileImageSize "a.tif";
      EvFileImageSize "b.tif"]).
Proof.
  eapply (C3_unsupported_orientation_error
            shifted_strip_world _ "vertical" "a.tif" "b.tif" [] "mosaic.tif");
    try reflexivity; discriminate.
Defined.

(** Three images, each 90 to the right of and 5 above the one before: the
    third one is placed by the translation (180, -10). *)
Lemma C4_absolute_transform_chain_witness :
  exists trs bbs size t',
    compute_all_image_positions
      shifted_strip_world (strip_options ["a.tif"; "b.tif"; "c.tif"]%string) []
    = (Ok (trs, bbs, size), t')
    /\ trs !! 2%nat = Some (Some (affine_of_matrix (translation 180 (-10))))
    /\ exists absolute : list Matrix3,
        length absolute = 3%nat
        /\ absolute !! 0%nat = Some identity_matrix3
        /\ (forall i a, absolute !! i = Some a ->
                        trs !! i = Some (Some (affine_of_matrix a)))
        /\ (forall i, (1 <= i < 3)%nat ->
              exists prev cur rel ti ti',
                absolute !! (i - 1)%nat = Some prev
                /\ absolute !! i = Some cur
                /\ compute_relative_transform
                     shifted_strip_world
                     (image_file (strip_options ["a.tif"; "b.tif"; "c.tif"]%string)
                                 (i - 1))
                     (image_file (strip_options ["a.tif"; "b.tif"; "c.tif"]%string)
                                 i)
                     (strip_options ["a.tif"; "b.tif"; "c.tif"]%string) ti
                   = (Ok rel, ti')
                /\ cur = mmul prev rel)
        /\ t' = [] ++ EvFileImageSize "a.tif"
                  :: flat_map
                       (fun i =>
                          pair_events
                            (image_file
                               (strip_options ["a.tif"; "b.tif"; "c.tif"]%string)
                               (i - 1))
                            (image_file
                               (strip_options ["a.tif"; "b.tif"; "c.tif"]%string)
                               i))
                       (seq 1 2).
Proof.
  do 4 eexists. split; [vm_compute; reflexivity |].
  split; [vm_compute; reflexivity |].
  eapply (C4_absolute_transform_chain
            shifted_strip_world
            (strip_options ["a.tif"; "b.tif"; "c.tif"]%string) []);
    [simpl; lia | vm_compute; reflexivity].
Defined.

(** Two images of 100x100: the first keeps the box (0,0)-(100,100). *)
Lemma C5_first_image_anchors_canvas_witness :
  exists trs bbs size t',
    compute_all_image_positions
      shifted_strip_world (strip_options ["a.tif"; "b.tif"]%string) []
    = (Ok (trs, bbs, size), t')
    /\ size = (190, 100)
    /\ exists d0,
        disk shifted_strip_world
             (image_file (strip_options ["a.tif"; "b.tif"]%string) 0)
        = Some d0
        /\ trs !! 0%nat = Some (Some (mkAffine 1 0 0 1 0 0))
        /\ (0 <= fst (di_size d0) -> 0 <= snd (di_size d0) ->
            bbs !! 0%nat
            = Some (mkBBox2i 0 0 (fst (di_size d0)) (snd (di_size d0)))).
Proof.
  do 4 eexists. split; [vm_compute; reflexivity |].
  split; [reflexivity |].
  eapply (C5_first_image_anchors_canvas
            shifted_strip_world (strip_options ["a.tif"; "b.tif"]%string) []);
    [simpl; lia | vm_compute; reflexivity].
Defined.


(** The rasters on disk carry the nodata value -9999; the view and the
    writer still get NaN. *)
Lemma C10_default_output_nodata_witness :
  exists out_img,
    In (EvWriteSelectedImageType out_img quiet_NaN)
       (snd (main shifted_strip_world
                  (strip_command_line ["a.tif"; "b.tif"]%string None None
                                      (256, 256)) []))
    /\ m_output_nodata_value out_img = quiet_NaN.
Proof.
  apply (C10_default_output_nodata
           shifted_strip_world
           (strip_command_line ["a.tif"; "b.tif"]%string None None (256, 256))
           (fst (main shifted_strip_world
                      (strip_command_line ["a.tif"; "b.tif"]%string None None
                                          (256, 256)) []))
           (snd (main shifted_strip_world
                      (strip_command_line ["a.tif"; "b.tif"]%string None None
                                          (256, 256)) [])));
    [reflexivity | apply surjective_pairing | vm_compute; reflexivity].
Defined.

(** C2 fails on the code. The second image of the strip lies 5 pixels
    higher than the first: its extent is mapped to the rows -5 to 95 of
    the canvas, but the overall box, grown by the image of the lower right
    corner only, still starts at row 0 and does not cover the image of the
    upper left corner. *)
Theorem C2_overall_box_misses_image_extent :
  exists p t tf,
    compute_positions shifted_strip_world
                      (strip_options ["a.tif"; "b.tif"]%string) []
    = (Ok p, t)
    /\ output_bbox p = mkBBox2i 0 0 190 100
    /\ transforms p !! 1%nat = Some (Some tf)
    /\ canvas_corners tf (100, 100)
       = [(90, -5); (190, -5); (90, 95); (190, 95)]%Q
    /\ map (bbox_covers (output_bbox p)) (canvas_corners tf (100, 100))
       = [false; false; true; true].
Proof.
  do 3 eexists. split; [vm_compute; reflexivity |].
  repeat split; vm_compute; reflexivity.
Qed.

(** C1 fails on the code. Of the 4x4 image whose valid pixels are the 2x2
    block in its middle, the resampled image has one valid pixel, (1, 1).
    That pixel is alone on its row and on its column, so its centerline
    weight is 0: the paste loop takes the tile pixel for untouched,
    overwrites the nodata sentinel with [value * 0], and the pixel ends
    with accumulated weight 0 and value 0 instead of the sentinel, which
    the pixels that no valid pixel reaches do keep. *)
Theorem C1_zero_weight_pixel_loses_nodata :
  vw_bilinear_transform block_image identity_affine 1 1 = Some (Fin 5)
  /\ contributions vw_compute_line_weights vw_bilinear_transform
                   block_view (mkBBox2i 0 0 4 4) 1 1
     = [(Fin 5, Fin 0)]
  /\ m_output_nodata_value block_view = Fin (-32768)
  /\ iv_pix (weights (accumulate vw_compute_line_weights vw_bilinear_transform
                                 block_view (mkBBox2i 0 0 4 4))) 1 1
     = Fin 0
  /\ iv_pix (prerasterize vw_compute_line_weights vw_bilinear_transform
                          block_view (mkBBox2i 0 0 4 4)) 1 1
     = Fin 0
  /\ iv_pix (prerasterize vw_compute_line_weights vw_bilinear_transform
                          block_view (mkBBox2i 0 0 4 4)) 0 0
     = Fin (-32768).
Proof. vm_compute. repeat split. Qed.

(** The middle of a 6x6 image of valid pixels, pasted into an empty tile
    with blend radius 1: the centerline weight of the source pixel is 1,
    above the ceiling 1/4, and the pixel is accumulated with the weight
    1/4. *)
Lemma C7_weight_ceiling_witness :
  exists cutoff raw weight : double,
    deqb cutoff (Fin (1 # 4)) = true
    /\ deqb raw (Fin 1) = true
    /\ weight = cutoff
    /\ dgtb raw cutoff = true
    /\ dgtb weight cutoff = false
    /\ vw_bilinear_transform solid_image identity_affine 2 2 = Some (Fin 5)
    /\ pixel_state
         (paste_image vw_compute_line_weights vw_bilinear_transform
                      solid_view (mkBBox2i 0 0 6 6) 0
                      (mkTile (filled 6 6 (Fin (-32768)))
                              (filled 6 6 (Fin 0))))
         2 2
       = add_contribution (Fin (-32768), Fin 0) (Fin 5, weight)
    /\ add_contribution (Fin (-32768), Fin 0) (Fin 5, weight)
       = (Fin (5 # 4), Fin (1 # 4)).
Proof.
  destruct (C7_weight_ceiling
              vw_compute_line_weights vw_bilinear_transform
              solid_view (mkBBox2i 0 0 6 6) 0
              (mkBBox2i 0 0 6 6) solid_image identity_affine
              (mkBBox2i 0 0 6 6)
              (crop_plane (vw_bilinear_transform solid_image identity_affine)
                          (bbox_expand (mkBBox2i 0 0 6 6) 1))
              (mkTile (filled 6 6 (Fin (-32768))) (filled 6 6 (Fin 0)))
              2 2
              eq_refl eq_refl eq_refl eq_refl eq_refl eq_refl
              ltac:(simpl; lia)
              ltac:(unfold bbox_width; simpl; lia)
              ltac:(unfold bbox_height; simpl; lia))
    as (cutoff & raw & weight & Hcut & Hraw & Hweight & Hle & Hpaste & _).
  exists cutoff, raw, weight.
  assert (Hgt : dgtb raw cutoff = true)
    by (rewrite Hraw, Hcut; vm_compute; reflexivity).
  assert (Hw : weight = cutoff) by (rewrite Hweight, Hgt; reflexivity).
  split; [rewrite Hcut; vm_compute; reflexivity |].
  split; [rewrite Hraw; vm_compute; reflexivity |].
  split; [exact Hw |]. split; [exact Hgt |]. split; [exact Hle |].
  split; [vm_compute; reflexivity |].
  split; [exact Hpaste |].
  rewrite Hw, Hcut. vm_compute. reflexivity.
Defined.

(** * Further properties *)

(** ** One pixel of a tile *)

Section PixelLemmas.

Variable compute_line_weights :
  double * double -> bool -> list double -> list double -> double.

Variable vw_transform :
  ImageView PixelMask -> AffineTransform -> Z -> Z -> PixelMask.

Local Abbreviation contribution' :=
  (contribution compute_line_weights vw_transform).

(** One turn of the loop over the images, seen from one pixel. *)
Lemma paste_image_pix v bbox i st x y :
  pixel_state (paste_image compute_line_weights vw_transform v bbox i st) x y
  = match contribution' v bbox i x y with
    | Some vw => add_contribution (pixel_state st x y) vw
    | None => pixel_state st x y
    end.
Proof.
  unfold paste_image, contribution.
  destruct (m_bboxes v !! i) as [bbox_i |]; [| reflexivity].
  destruct (m_images v !! i) as [image_i |]; [| reflexivity].
  destruct (m_transforms v !! i) as [[temp |] |]; try reflexivity.
  destruct (bbox_intersects bbox_i bbox); [| reflexivity]. cbn [negb].
  rewrite paste_loop_pix.
  destruct (_ && is_valid _); reflexivity.
Qed.

Lemma accumulate_pix_from v bbox (l : list nat) st x y :
  pixel_state
    (fold_left (fun st i =>
                  paste_image compute_line_weights vw_transform v bbox i st)
               l st) x y
  = fold_left add_contribution
              (omap (fun i => contribution' v bbox i x y) l)
              (pixel_state st x y).
Proof.
  revert st. induction l as [| i l IH]; intros st; [reflexivity |].
  cbn [fold_left omap list_omap]. rewrite IH, paste_image_pix.
  destruct (contribution' v bbox i x y); reflexivity.
Qed.

(** The loops of [prerasterize], seen from one pixel of the tile. *)
Lemma prerasterize_pix v bbox x y :
  0 <= x < bbox_width bbox -> 0 <= y < bbox_height bbox ->
  iv_pix (prerasterize compute_line_weights vw_transform v bbox) x y
  = normalize_pixel
      (fold_left add_contribution
                 (contributions compute_line_weights vw_transform v bbox x y)
                 (to_float (m_output_nodata_value v), Fin 0)).
Proof.
  intros Hx Hy. unfold prerasterize. rewrite normalize_tile_pix.
  pose proof (accumulate_pix_from v bbox (seq 0 (length (m_images v)))
                (mkTile (filled (bbox_width bbox) (bbox_height bbox)
                                (to_float (m_output_nodata_value v)))
                        (filled (bbox_width bbox) (bbox_height bbox) (Fin 0)))
                x y) as Hacc.
  unfold pixel_state in Hacc. cbn [tile weights filled iv_pix] in Hacc.
  unfold contributions, normalize_pixel. rewrite <- Hacc.
  fold (accumulate compute_line_weights vw_transform v bbox).
  cbn [fst snd].
  replace ((0 <=? x) && (x <? bbox_width bbox) && (0 <=? y)
           && (y <? bbox_height bbox)) with true by (symmetry; zbool).
  reflexivity.
Qed.

End PixelLemmas.

Section PixelTheorems.

Variable compute_line_weights :
  double * double -> bool -> list double -> list double -> double.

Variable vw_transform :
  ImageView PixelMask -> AffineTransform -> Z -> Z -> PixelMask.

(** A contribution to the tile pixel [(x, y)] is the resampled pixel of
    the image at the canvas position of that tile pixel, and that
    position lies in the box of the image. *)
Lemma contribution_some v bbox i x y value weight :
  contribution compute_line_weights vw_transform v bbox i x y
  = Some (value, weight) ->
  exists bbox_i image_i temp,
    m_bboxes v !! i = Some bbox_i
    /\ m_images v !! i = Some image_i
    /\ m_transforms v !! i = Some (Some temp)
    /\ bmin_x bbox_i <= x + bmin_x bbox < bmax_x bbox_i
    /\ bmin_y bbox_i <= y + bmin_y bbox < bmax_y bbox_i
    /\ vw_transform image_i temp (x + bmin_x bbox) (y + bmin_y bbox)
       = Some value.
Proof.
  unfold contribution.
  destruct (m_bboxes v !! i) as [bbox_i |]; [| discriminate].
  destruct (m_images v !! i) as [image_i |]; [| discriminate].
  destruct (m_transforms v !! i) as [[temp |] |]; try discriminate.
  destruct (bbox_intersects bbox_i bbox); [| discriminate]. cbn [negb].
  cbv zeta.
  assert (Hpix :
            iv_pix (crop_plane (vw_transform image_i temp)
                      (bbox_expand (bbox_crop bbox_i bbox) (m_blend_radius v)))
                   (x - bmin_x (bbox_sub (bbox_crop bbox_i bbox)
                                         (bmin_x bbox, bmin_y bbox))
                    + m_blend_radius v)
                   (y - bmin_y (bbox_sub (bbox_crop bbox_i bbox)
                                         (bmin_x bbox, bmin_y bbox))
                    + m_blend_radius v)
            = vw_transform image_i temp (x + bmin_x bbox) (y + bmin_y bbox)).
  { unfold crop_plane, bbox_expand, bbox_sub, bbox_crop.
    cbn [iv_pix bmin_x bmin_y fst snd]. f_equal; lia. }
  rewrite !Hpix.
  destruct (vw_transform image_i temp (x + bmin_x bbox) (y + bmin_y bbox))
    as [p |] eqn:Hp; [| rewrite andb_false_r; discriminate].
  destruct (_ && is_valid (Some p)) eqn:Hin; [| discriminate].
  cbn [remove_mask]. intros [= -> _]. exists bbox_i, image_i, temp.
  repeat (apply andb_prop in Hin as [Hin ?]).
  unfold bbox_sub, bbox_crop, bbox_width, bbox_height in *.
  cbn [bmin_x bmin_y bmax_x bmax_y fst snd] in *.
  repeat match goal with
         | H : (_ <=? _) = true |- _ => apply Z.leb_le in H
         | H : (_ <? _) = true |- _ => apply Z.ltb_lt in H
         end.
  clear Hpix.
  repeat match goal with
         | H : context [Z.ltb ?a ?b] |- _ => destruct (Z.ltb_spec a b)
         end;
    cbv iota in *; repeat split; try reflexivity; try exact Hp; lia.
Qed.

Lemma omap_all_none {A B : Type} (f : A -> option B) (l : list A) :
  (forall a, f a = None) -> omap f l = [].
Proof.
  intros H. induction l as [| a l IH]; [reflexivity |].
  cbn [omap list_omap]. rewrite H. exact IH.
Qed.

(** X1. A pixel of the tile keeps the nodata sentinel, as the [float] that
    the tile was filled with, when no image has a valid resampled pixel at
    its canvas position inside the box of the image: pixels outside every
    image, and pixels that only invalid data reaches. *)
Theorem pixel_without_valid_source_is_nodata v bbox x y :
  0 <= x < bbox_width bbox -> 0 <= y < bbox_height bbox ->
  (forall i bbox_i image_i temp,
      m_bboxes v !! i = Some bbox_i ->
      m_images v !! i = Some image_i ->
      m_transforms v !! i = Some (Some temp) ->
      bmin_x bbox_i <= x + bmin_x bbox < bmax_x bbox_i ->
      bmin_y bbox_i <= y + bmin_y bbox < bmax_y bbox_i ->
      is_valid (vw_transform image_i temp (x + bmin_x bbox) (y + bmin_y bbox))
      = false) ->
  iv_pix (prerasterize compute_line_weights vw_transform v bbox) x y
  = to_float (m_output_nodata_value v).
Proof.
  intros Hx Hy Hnone. rewrite prerasterize_pix by assumption.
  unfold contributions. rewrite omap_all_none; [reflexivity |].
  intros i.
  destruct (contribution compute_line_weights vw_transform v bbox i x y)
    as [[value weight] |] eqn:Hc; [| reflexivity].
  destruct (contribution_some _ _ _ _ _ _ _ Hc)
    as (bbox_i & image_i & temp & Hb & Hi & Ht & Hbx & Hby & Hval).
  specialize (Hnone i bbox_i image_i temp Hb Hi Ht Hbx Hby).
  rewrite Hval in Hnone. discriminate.
Qed.

(** X2. A tile that the box of no image intersects is filled with the
    nodata sentinel, as a [float]; in particular every tile of a view
    without images. *)
Theorem tile_without_intersecting_image_is_nodata v bbox x y :
  0 <= x < bbox_width bbox -> 0 <= y < bbox_height bbox ->
  (forall i bbox_i,
      m_bboxes v !! i = Some bbox_i -> bbox_intersects bbox_i bbox = false) ->
  iv_pix (prerasterize compute_line_weights vw_transform v bbox) x y
  = to_float (m_output_nodata_value v).
Proof.
  intros Hx Hy Hnone. rewrite prerasterize_pix by assumption.
  unfold contributions. rewrite omap_all_none; [reflexivity |].
  intros i. unfold contribution.
  destruct (m_bboxes v !! i) as [bbox_i |] eqn:Hb; [| reflexivity].
  rewrite (Hnone i bbox_i Hb).
  destruct (m_images v !! i); [| reflexivity].
  destruct (m_transforms v !! i) as [[temp |] |]; reflexivity.
Qed.

End PixelTheorems.

(** The corner of the tile of [lone_pixel_view], which only invalid pixels
    reach. *)
Lemma pixel_without_valid_source_is_nodata_witness :
  iv_pix (prerasterize vw_compute_line_weights vw_bilinear_transform
                       lone_pixel_view (mkBBox2i 0 0 3 3)) 0 0
  = to_float (m_output_nodata_value lone_pixel_view).
Proof.
  apply pixel_without_valid_source_is_nodata;
    [unfold bbox_width; simpl; lia | unfold bbox_height; simpl; lia |].
  intros [| i] bbox_i image_i temp Hb Hi Ht _ _;
    [| discriminate].
  injection Hi as <-. injection Ht as <-. reflexivity.
Defined.

(** A tile away from the only image of [lone_pixel_view]. *)
Lemma tile_without_intersecting_image_is_nodata_witness :
  iv_pix (prerasterize vw_compute_line_weights vw_bilinear_transform
                       lone_pixel_view (mkBBox2i 5 5 8 8)) 1 1
  = to_float (m_output_nodata_value lone_pixel_view).
Proof.
  apply tile_without_intersecting_image_is_nodata;
    [unfold bbox_width; simpl; lia | unfold bbox_height; simpl; lia |].
  intros [| i] bbox_i Hb; [| discriminate].
  injection Hb as <-. reflexivity.
Defined.

(** ** The weight field *)

(** X5. After the single pass of [centerline_weights3], the extent recorded
    for a row is the leftmost and the rightmost valid column of that row;
    for a row without valid pixel it is left at its initial value, the
    number of columns and 0. *)
Theorem row_extent_is_leftmost_rightmost (img : ImageView PixelMask) (row : Z) :
  0 <= row < iv_rows img ->
  ((forall col, 0 <= col < iv_cols img -> ~ valid_at img col row) ->
   vget (minValInRow (scan_extents img)) row = iv_cols img
   /\ vget (maxValInRow (scan_extents img)) row = 0)
  /\ ((exists col, 0 <= col < iv_cols img /\ valid_at img col row) ->
      valid_at img (vget (minValInRow (scan_extents img)) row) row
      /\ valid_at img (vget (maxValInRow (scan_extents img)) row) row
      /\ 0 <= vget (minValInRow (scan_extents img)) row
      /\ vget (maxValInRow (scan_extents img)) row < iv_cols img
      /\ forall col, 0 <= col < iv_cols img -> valid_at img col row ->
                     vget (minValInRow (scan_extents img)) row <= col
                     /\ col <= vget (maxValInRow (scan_extents img)) row).
Proof.
  intros Hrow.
  assert (Hcols : 0 <= iv_cols img \/ iv_cols img < 0) by lia.
  destruct Hcols as [Hcols | Hcols].
  2: { split.
       - intros _. unfold scan_extents.
         rewrite (for_range_ind
                    (fun _ e => e = init_extents (iv_rows img) (iv_cols img)));
           [| lia | reflexivity |].
         + unfold init_extents. cbn [minValInRow maxValInRow].
           rewrite !vget_replicate by lia. split; reflexivity.
         + intros i s Hi ->. apply for_range_empty. lia.
       - intros (col & Hc & _). lia. }
  destruct (scan_extents_inv img ltac:(lia) Hcols) as [(_ & _ & H) _].
  destruct (H row Hrow) as (Hb & Hlo & Hhi). cbn [fst snd] in *.
  split.
  - intros Hnone.
    destruct Hlo as [Hlo | [[Hin _] Hv]]; [| exfalso; exact (Hnone _ Hin Hv)].
    destruct Hhi as [Hhi | [[Hin _] Hv]]; [| exfalso; exact (Hnone _ Hin Hv)].
    split; assumption.
  - intros (col & Hc & Hv).
    pose proof (Hb col ltac:(lia) Hv) as Hcol.
    destruct Hlo as [Hlo | [[Hin _] Hv1]]; [lia |].
    assert (Hmax : valid_at img (vget (maxValInRow (scan_extents img)) row) row
                   /\ vget (maxValInRow (scan_extents img)) row < iv_cols img).
    { destruct Hhi as [Hhi | [[Hin' _] Hv2]]; [| split; [exact Hv2 | lia]].
      rewrite Hhi in *.
      replace 0 with (vget (minValInRow (scan_extents img)) row) by lia.
      split; [exact Hv1 | lia]. }
    destruct Hmax as [Hv2 Hlt].
    repeat split; try assumption; try lia;
      destruct (Hb col0 ltac:(lia) ltac:(assumption)); assumption.
Qed.

Lemma row_extent_is_leftmost_rightmost_witness :
  valid_at ring_image (vget (minValInRow (scan_extents ring_image)) 1) 1
  /\ valid_at ring_image (vget (maxValInRow (scan_extents ring_image)) 1) 1
  /\ 0 <= vget (minValInRow (scan_extents ring_image)) 1
  /\ vget (maxValInRow (scan_extents ring_image)) 1 < iv_cols ring_image
  /\ forall col, 0 <= col < iv_cols ring_image -> valid_at ring_image col 1 ->
                 vget (minValInRow (scan_extents ring_image)) 1 <= col
                 /\ col <= vget (maxValInRow (scan_extents ring_image)) 1.
Proof.
  apply (row_extent_is_leftmost_rightmost ring_image 1); [simpl; lia |].
  exists 0. split; [simpl; lia | reflexivity].
Defined.

(** X6. The extent recorded for a column is the topmost and the
    bottommost valid row of that column; for a column without valid pixel
    it is left at its initial value, the number of rows and 0. *)
Theorem col_extent_is_topmost_bottommost (img : ImageView PixelMask) (col : Z) :
  0 <= col < iv_cols img -> 0 <= iv_rows img ->
  ((forall row, 0 <= row < iv_rows img -> ~ valid_at img col row) ->
   vget (minValInCol (scan_extents img)) col = iv_rows img
   /\ vget (maxValInCol (scan_extents img)) col = 0)
  /\ ((exists row, 0 <= row < iv_rows img /\ valid_at img col row) ->
      valid_at img col (vget (minValInCol (scan_extents img)) col)
      /\ valid_at img col (vget (maxValInCol (scan_extents img)) col)
      /\ 0 <= vget (minValInCol (scan_extents img)) col
      /\ vget (maxValInCol (scan_extents img)) col < iv_rows img
      /\ forall row, 0 <= row < iv_rows img -> valid_at img col row ->
                     vget (minValInCol (scan_extents img)) col <= row
                     /\ row <= vget (maxValInCol (scan_extents img)) col).
Proof.
  intros Hcol Hrows.
  destruct (scan_extents_inv img Hrows ltac:(lia)) as [_ (_ & _ & H)].
  destruct (H col Hcol) as (Hb & Hlo & Hhi). cbn [fst snd] in *.
  split.
  - intros Hnone.
    destruct Hlo as [Hlo | [[_ Hin] Hv]]; [| exfalso; exact (Hnone _ Hin Hv)].
    destruct Hhi as [Hhi | [[_ Hin] Hv]]; [| exfalso; exact (Hnone _ Hin Hv)].
    split; assumption.
  - intros (row & Hr & Hv).
    pose proof (Hb row ltac:(lia) Hv) as Hrow.
    destruct Hlo as [Hlo | [[_ Hin] Hv1]]; [lia |].
    assert (Hmax : valid_at img col (vget (maxValInCol (scan_extents img)) col)
                   /\ vget (maxValInCol (scan_extents img)) col < iv_rows img).
    { destruct Hhi as [Hhi | [[_ Hin'] Hv2]]; [| split; [exact Hv2 | lia]].
      rewrite Hhi in *.
      replace 0 with (vget (minValInCol (scan_extents img)) col) by lia.
      split; [exact Hv1 | lia]. }
    destruct Hmax as [Hv2 Hlt].
    repeat split; try assumption; try lia;
      destruct (Hb row0 ltac:(lia) ltac:(assumption)); assumption.
Qed.

Lemma col_extent_is_topmost_bottommost_witness :
  valid_at ring_image 1 (vget (minValInCol (scan_extents ring_image)) 1)
  /\ valid_at ring_image 1 (vget (maxValInCol (scan_extents ring_image)) 1)
  /\ 0 <= vget (minValInCol (scan_extents ring_image)) 1
  /\ vget (maxValInCol (scan_extents ring_image)) 1 < iv_rows ring_image
  /\ forall row, 0 <= row < iv_rows ring_image -> valid_at ring_image 1 row ->
                 vget (minValInCol (scan_extents ring_image)) 1 <= row
                 /\ row <= vget (maxValInCol (scan_extents ring_image)) 1.
Proof.
  apply (col_extent_is_topmost_bottommost ring_image 1);
    [simpl; lia | simpl; lia |].
  exists 0. split; [simpl; lia | reflexivity].
Defined.

Section BlankImage.

Variable compute_line_weights :
  double * double -> bool -> list double -> list double -> double.

(** X7. For an image without any valid pixel, every weight of the field is
    the border weight: no pixel is taken for a hole. *)
Theorem blank_image_weights_are_border img hole border roi col row :
  (forall c r, 0 <= c < iv_cols img -> 0 <= r < iv_rows img ->
               is_valid (iv_pix img c r) = false) ->
  0 <= col < iv_cols img -> 0 <= row < iv_rows img ->
  bmin_x (weights_bbox img roi) <= col < bmax_x (weights_bbox img roi) ->
  bmin_y (weights_bbox img roi) <= row < bmax_y (weights_bbox img roi) ->
  weight_at compute_line_weights img hole border roi col row = border.
Proof.
  intros Hblank Hcol Hrow Hbx Hby.
  rewrite weight_at_new_weight by assumption.
  unfold new_weight. rewrite (Hblank col row Hcol Hrow).
  pose proof (inner_col_spec img row col Hrow Hcol) as Hc.
  destruct (Z.leb_spec (vget (minValInRow (scan_extents img)) row) col);
    [| rewrite andb_false_r; reflexivity].
  destruct (Z.leb_spec col (vget (maxValInRow (scan_extents img)) row));
    [| rewrite andb_false_r; reflexivity].
  exfalso.
  destruct (proj1 Hc ltac:(split; assumption))
    as (c1 & _ & Hc1 & _ & Hv & _).
  unfold valid_at in Hv. rewrite Hblank in Hv by lia. discriminate.
Qed.

End BlankImage.

Lemma blank_image_weights_are_border_witness :
  weight_at vw_compute_line_weights blank_image
            hole_fill_value_default border_fill_value_default BBox2i_empty 1 1
  = border_fill_value_default.
Proof.
  apply blank_image_weights_are_border;
    try (cbn; lia); intros; reflexivity.
Defined.

Lemma clamp_weights_size (cutoff : double) (wts : ImageView double) :
  iv_cols (clamp_weights cutoff wts) = iv_cols wts
  /\ iv_rows (clamp_weights cutoff wts) = iv_rows wts.
Proof.
  unfold clamp_weights.
  apply (for_range_preserves
           (fun s => iv_cols s = iv_cols wts /\ iv_rows s = iv_rows wts));
    [split; reflexivity |].
  intros r s Hs. apply for_range_preserves; [exact Hs |].
  intros c s' Hs'. destruct (dgtb _ _); exact Hs'.
Qed.

(** X8. Clamping a weight field is idempotent and never raises a weight:
    a field that was clamped at a cutoff is left as it is by a second
    clamping at the same cutoff, and no clamped weight exceeds the weight
    it comes from. *)
Theorem clamp_weights_idempotent (cutoff : double) (wts : ImageView double)
        (c r : Z) :
  iv_pix (clamp_weights cutoff (clamp_weights cutoff wts)) c r
  = iv_pix (clamp_weights cutoff wts) c r
  /\ iv_cols (clamp_weights cutoff (clamp_weights cutoff wts)) = iv_cols wts
  /\ iv_rows (clamp_weights cutoff (clamp_weights cutoff wts)) = iv_rows wts
  /\ dgtb (iv_pix (clamp_weights cutoff wts) c r) (iv_pix wts c r) = false.
Proof.
  destruct (clamp_weights_size cutoff wts) as [Hc Hr].
  destruct (clamp_weights_size cutoff (clamp_weights cutoff wts)) as [Hc' Hr'].
  split; [| split; [congruence | split; [congruence |]]].
  - rewrite (clamp_weights_pix cutoff (clamp_weights cutoff wts)).
    rewrite Hc, Hr, clamp_weights_pix.
    destruct ((0 <=? c) && (c <? iv_cols wts) && (0 <=? r)
              && (r <? iv_rows wts)); [| reflexivity].
    destruct (dgtb (iv_pix wts c r) cutoff) eqn:Hgt.
    + rewrite dgtb_irrefl. reflexivity.
    + rewrite Hgt. reflexivity.
  - rewrite clamp_weights_pix.
    destruct ((0 <=? c) && (c <? iv_cols wts) && (0 <=? r)
              && (r <? iv_rows wts)); [| apply dgtb_irrefl].
    destruct (dgtb (iv_pix wts c r) cutoff) eqn:Hgt; [| apply dgtb_irrefl].
    unfold dgtb, dltb in *.
    destruct (iv_pix wts c r) as [| q], cutoff as [| k]; try discriminate.
    apply negb_true_iff in Hgt. apply negb_false_iff, Qle_bool_iff.
    destruct (Qlt_le_dec k q) as [Hlt | Hle]; [apply Qlt_le_weak; exact Hlt |].
    apply Qle_bool_iff in Hle. congruence.
Qed.

(** X9. For a blend radius that is not negative and an intersection that
    is not empty, the weight ceiling is a number of [0, 1), and it is 0
    exactly when the blend radius is 0. *)
Theorem blend_cutoff_range (intersect : BBox2i) (blend_radius : Z) :
  0 <= blend_radius ->
  0 < bbox_width intersect -> 0 < bbox_height intersect ->
  exists q,
    blend_cutoff intersect blend_radius = Fin q
    /\ (0 <= q < 1)%Q
    /\ ((q == 0)%Q <-> blend_radius = 0).
Proof.
  intros Hbr Hw Hh. rewrite blend_cutoff_finite by assumption.
  eexists. split; [reflexivity |].
  assert (H1 : (inject_Z 1 <= inject_Z (Z.min (bbox_height intersect)
                                              (bbox_width intersect)))%Q)
    by (rewrite <- Zle_Qle; lia).
  assert (H2 : (inject_Z 0 <= inject_Z blend_radius)%Q)
    by (rewrite <- Zle_Qle; lia).
  assert (H3 : (inject_Z blend_radius == 0)%Q <-> blend_radius = 0).
  { change 0%Q with (inject_Z 0). rewrite inject_Z_injective. reflexivity. }
  change (inject_Z 1) with 1%Q in H1. change (inject_Z 0) with 0%Q in H2.
  revert H1 H2 H3.
  generalize (inject_Z (Z.min (bbox_height intersect) (bbox_width intersect))).
  generalize (inject_Z blend_radius).
  intros b m H1 H2 H3.
  assert (Hden : (0 < m / 2 + b)%Q)
    by (unfold Qdiv; change (/ 2)%Q with (1 # 2)%Q; lra).
  split; [split |].
  - apply Qle_shift_div_l; [exact Hden | lra].
  - apply Qlt_shift_div_r; [exact Hden |].
    unfold Qdiv; change (/ 2)%Q with (1 # 2)%Q; lra.
  - rewrite <- H3. split.
    + intros Hq.
      assert (Hmul : (b / (m / 2 + b) * (m / 2 + b) == b)%Q)
        by (field; lra).
      rewrite Hq in Hmul. lra.
    + intros Hb. rewrite Hb. unfold Qdiv. ring.
Qed.

Lemma blend_cutoff_range_witness :
  exists q,
    blend_cutoff (mkBBox2i 0 0 3 3) 1 = Fin q
    /\ (0 <= q < 1)%Q
    /\ ((q == 0)%Q <-> 1 = 0).
Proof.
  apply blend_cutoff_range; [lia | unfold bbox_width; simpl; lia
                             | unfold bbox_height; simpl; lia].
Defined.

(** ** The layout *)

Lemma truncate_le (q : Q) (z : Z) : (q <= inject_Z z)%Q -> truncate q <= z.
Proof.
  destruct q as [n d]. unfold Qle, truncate. simpl. rewrite Z.mul_1_r.
  intros H. pose proof (Z.quot_rem' n (Zpos d)) as Hqr.
  destruct (Z_le_gt_dec 0 n) as [Hn | Hn].
  - pose proof (Z.rem_bound_pos_pos n (Zpos d) ltac:(lia) Hn). nia.
  - pose proof (Z.rem_bound_pos_neg n (Zpos d) ltac:(lia) ltac:(lia)). nia.
Qed.

Lemma truncate_ge (q : Q) (z : Z) : (inject_Z z <= q)%Q -> z <= truncate q.
Proof.
  destruct q as [n d]. unfold Qle, truncate. simpl. rewrite Z.mul_1_r.
  intros H. pose proof (Z.quot_rem' n (Zpos d)) as Hqr.
  destruct (Z_le_gt_dec 0 n) as [Hn | Hn].
  - pose proof (Z.rem_bound_pos_pos n (Zpos d) ltac:(lia) Hn). nia.
  - pose proof (Z.rem_bound_pos_neg n (Zpos d) ltac:(lia) ltac:(lia)). nia.
Qed.

Lemma truncate_inject_Z (z : Z) : truncate (inject_Z z) = z.
Proof. unfold truncate, inject_Z. simpl. apply Z.quot_1_r. Qed.

(** A box cropped to an overall box and converted to integers does not
    pass the corners of the overall box. *)
Lemma cropped_box_within (b : BBox2f) (o : BBox2i) :
  bbox_within (bbox2i_of_bbox2f (bbox2f_crop b o)) o.
Proof.
  unfold bbox_within, bbox2i_of_bbox2f, bbox2f_crop.
  cbn [bmin_x bmin_y bmax_x bmax_y fmin_x fmin_y fmax_x fmax_y].
  repeat split;
    match goal with
    | |- context [Qle_bool ?a ?c] =>
        destruct (Qle_bool a c) eqn:Hle; cbn [negb];
          [apply Qle_bool_iff in Hle | rewrite truncate_inject_Z; lia]
    end;
    first [apply truncate_ge; exact Hle | apply truncate_le; exact Hle].
Qed.

Lemma bbox_within_trans (a b c : BBox2i) :
  bbox_within a b -> bbox_within b c -> bbox_within a c.
Proof. unfold bbox_within. lia. Qed.

Lemma bbox_within_refl (a : BBox2i) : bbox_within a a.
Proof. unfold bbox_within. lia. Qed.

Section LayoutBoxes.

Variable w : World.

Lemma position_image_box opt i p t p' t' :
  position_image w opt i p t = (Ok p', t') ->
  bbox_within (output_bbox p) (output_bbox p')
  /\ exists b, bboxes p' = <[i := b]> (bboxes p)
               /\ bbox_within b (output_bbox p').
Proof.
  intros H.
  pose proof (output_bbox_grows w _ _ _ _ _ _ H) as Hgrow.
  split; [unfold bbox_within; lia |].
  revert H. unfold position_image. rewrite bind_run.
  destruct (compute_relative_transform w _ _ opt t) as [[rel | e] t1];
    [| discriminate].
  cbv beta iota. rewrite bind_run, file_image_size_run.
  destruct (disk w (image_file opt i)) as [d |]; [| discriminate].
  destruct (inverse w _); [| discriminate].
  intros [= <- _]. cbn [bboxes output_bbox].
  eexists. split; [reflexivity | apply cropped_box_within].
Qed.

(** The boxes after [k] turns of the loop. *)
Lemma positions_boxes opt k t p t' d0 :
  (1 <= length (image_files opt))%nat ->
  disk w (image_file opt 0) = Some d0 ->
  0 <= fst (di_size d0) -> 0 <= snd (di_size d0) ->
  compute_positions_upto w opt k t = (Ok p, t') ->
  bbox_within (mkBBox2i 0 0 (fst (di_size d0)) (snd (di_size d0)))
              (output_bbox p)
  /\ forall i b, (i <= k)%nat -> bboxes p !! i = Some b ->
                 bbox_within b (output_bbox p).
Proof.
  intros Hn Hd0 Hw0 Hh0. revert p t'. induction k as [| k IH]; intros p t'.
  - unfold compute_positions_upto. rewrite bind_run, file_image_size_run, Hd0.
    simpl. intros [= <- _]. cbn [output_bbox bboxes].
    destruct (di_size d0) as [cols rows]. cbn [fst snd] in *.
    rewrite first_bbox_is_extent by assumption.
    split; [apply bbox_within_refl |].
    intros i b Hi. replace i with 0%nat by lia.
    rewrite list_lookup_insert_eq by (rewrite length_replicate; lia).
    intros [= <-]. apply bbox_within_refl.
  - rewrite compute_positions_upto_S.
    destruct (compute_positions_upto w opt k t) as [[p1 | e] t1] eqn:Hrun;
      [| discriminate].
    intros Hstep. destruct (IH _ _ eq_refl) as [Hfirst Hall].
    destruct (position_image_box _ _ _ _ _ _ Hstep)
      as (Hgrow & b' & Hbb & Hb').
    split; [eapply bbox_within_trans; eassumption |].
    intros i b Hi. rewrite Hbb.
    destruct (Nat.eq_dec i (S k)) as [-> | Hne].
    + intros Hb.
      assert (Hlt : (S k < length (bboxes p1))%nat).
      { rewrite <- (length_insert (bboxes p1) (S k) b').
        apply lookup_lt_is_Some. eexists. exact Hb. }
      rewrite list_lookup_insert_eq in Hb by exact Hlt.
      injection Hb as <-. exact Hb'.
    + rewrite list_lookup_insert_ne by lia. intros Hb.
      eapply bbox_within_trans; [apply (Hall i b); [lia | exact Hb] |].
      exact Hgrow.
Qed.

(** X10. The canvas is at least as large as the first image, in both
    dimensions, whatever transforms are fitted for the other images. *)
Theorem canvas_covers_first_image opt t trs bbs size t' d0 :
  (1 <= length (image_files opt))%nat ->
  disk w (image_file opt 0) = Some d0 ->
  0 <= fst (di_size d0) -> 0 <= snd (di_size d0) ->
  compute_all_image_positions w opt t = (Ok (trs, bbs, size), t') ->
  fst (di_size d0) <= fst size /\ snd (di_size d0) <= snd size.
Proof.
  intros Hn Hd0 Hw0 Hh0. unfold compute_all_image_positions, compute_positions.
  rewrite bind_run.
  destruct (compute_positions_upto w opt _ t) as [[p | e] t1] eqn:Hrun;
    [| discriminate].
  intros [= _ _ <- _].
  destruct (positions_boxes _ _ _ _ _ _ Hn Hd0 Hw0 Hh0 Hrun) as [Hfirst _].
  unfold bbox_within in Hfirst. cbn [bmin_x bmin_y bmax_x bmax_y] in Hfirst.
  unfold bbox_size, bbox_width, bbox_height. cbn [fst snd]. lia.
Qed.

(** X11. The box stored for every image ends inside the canvas: its lower
    right corner does not pass the size of the output image. *)
Theorem stored_boxes_end_inside_canvas opt t trs bbs size t' d0 i b :
  (1 <= length (image_files opt))%nat ->
  disk w (image_file opt 0) = Some d0 ->
  0 <= fst (di_size d0) -> 0 <= snd (di_size d0) ->
  compute_all_image_positions w opt t = (Ok (trs, bbs, size), t') ->
  bbs !! i = Some b ->
  bmax_x b <= fst size /\ bmax_y b <= snd size.
Proof.
  intros Hn Hd0 Hw0 Hh0. unfold compute_all_image_positions, compute_positions.
  rewrite bind_run.
  destruct (compute_positions_upto w opt _ t) as [[p | e] t1] eqn:Hrun;
    [| discriminate].
  intros [= _ <- <- _] Hb.
  destruct (positions_boxes _ _ _ _ _ _ Hn Hd0 Hw0 Hh0 Hrun) as [Hfirst Hall].
  destruct (positions_first w opt _ t p _ Hn Hrun)
    as (_ & _ & _ & _ & _ & Hlen).
  assert (Hi : (i < length (bboxes p))%nat)
    by (apply lookup_lt_is_Some; eexists; exact Hb).
  pose proof (Hall i b ltac:(lia) Hb) as Hin.
  unfold bbox_within in *. cbn [bmin_x bmin_y bmax_x bmax_y] in Hfirst.
  unfold bbox_size, bbox_width, bbox_height. cbn [fst snd]. lia.
Qed.

(** X12. The overall box grows monotonically: the box after more turns of
    the layout loop includes the box after fewer turns. *)
Theorem overall_box_is_monotone opt k m t p tk p' t' :
  compute_positions_upto w opt k t = (Ok p, tk) ->
  compute_positions_upto w opt (k + m) t = (Ok p', t') ->
  bbox_within (output_bbox p) (output_bbox p').
Proof.
  intros Hk. revert p' t'. induction m as [| m IH]; intros p' t'.
  - rewrite Nat.add_0_r, Hk. intros [= <- _]. apply bbox_within_refl.
  - replace (k + S m)%nat with (S (k + m)) by lia.
    rewrite compute_positions_upto_S.
    destruct (compute_positions_upto w opt (k + m) t) as [[p1 | e] t1];
      [| discriminate].
    intros Hstep.
    eapply bbox_within_trans; [apply (IH _ _ eq_refl) |].
    apply (position_image_box _ _ _ _ _ _ Hstep).
Qed.

End LayoutBoxes.

Lemma canvas_covers_first_image_witness :
  exists trs bbs size t' d0,
    compute_all_image_positions
      shifted_strip_world (strip_options ["a.tif"; "b.tif"]%string) []
    = (Ok (trs, bbs, size), t')
    /\ disk shifted_strip_world
            (image_file (strip_options ["a.tif"; "b.tif"]%string) 0) = Some d0
    /\ fst (di_size d0) <= fst size /\ snd (di_size d0) <= snd size.
Proof.
  do 5 eexists. split; [vm_compute; reflexivity |].
  split; [vm_compute; reflexivity |].
  eapply (canvas_covers_first_image
            shifted_strip_world (strip_options ["a.tif"; "b.tif"]%string) []);
    [simpl; lia | vm_compute; reflexivity | simpl; lia | simpl; lia
    | vm_compute; reflexivity].
Defined.

Lemma stored_boxes_end_inside_canvas_witness :
  exists trs bbs size t' b,
    compute_all_image_positions
      shifted_strip_world (strip_options ["a.tif"; "b.tif"]%string) []
    = (Ok (trs, bbs, size), t')
    /\ bbs !! 1%nat = Some b
    /\ bmax_x b <= fst size /\ bmax_y b <= snd size.
Proof.
  do 5 eexists. split; [vm_compute; reflexivity |].
  split; [vm_compute; reflexivity |].
  eapply (stored_boxes_end_inside_canvas
            shifted_strip_world (strip_options ["a.tif"; "b.tif"]%string) []
            _ _ _ _ _ 1%nat);
    [simpl; lia | vm_compute; reflexivity | simpl; lia | simpl; lia
    | vm_compute; reflexivity | vm_compute; reflexivity].
Defined.

Lemma overall_box_is_monotone_witness :
  exists p tk p' t',
    compute_positions_upto
      shifted_strip_world (strip_options ["a.tif"; "b.tif"]%string) 0 []
    = (Ok p, tk)
    /\ compute_positions_upto
         shifted_strip_world (strip_options ["a.tif"; "b.tif"]%string) (0 + 1) []
       = (Ok p', t')
    /\ bbox_within (output_bbox p) (output_bbox p').
Proof.
  do 4 eexists. split; [vm_compute; reflexivity |].
  split; [vm_compute; reflexivity |].
  eapply (overall_box_is_monotone
            shifted_strip_world (strip_options ["a.tif"; "b.tif"]%string)
            0 1 []); vm_compute; reflexivity.
Defined.

Section LayoutShape.

Variable w : World.

(** The slots of the three results of the layout. *)
Lemma layout_slots opt t trs bbs size t' :
  (1 <= length (image_files opt))%nat ->
  compute_all_image_positions w opt t = (Ok (trs, bbs, size), t') ->
  length trs = length (image_files opt)
  /\ length bbs = length (image_files opt)
  /\ forall i, (i < length (image_files opt))%nat ->
               exists tf, trs !! i = Some (Some tf).
Proof.
  intros Hn. unfold compute_all_image_positions, compute_positions.
  rewrite bind_run.
  destruct (compute_positions_upto w opt _ t) as [[p | e] t1] eqn:Hrun;
    [| discriminate].
  intros [= <- <- _ _].
  destruct (positions_first w opt _ t p _ Hn Hrun)
    as (_ & _ & _ & _ & Hlt & Hlb).
  split; [exact Hlt | split; [exact Hlb |]].
  intros i Hi.
  assert (Hk : (length (image_files opt) - 1 < length (image_files opt))%nat)
    by lia.
  destruct (positions_chain w opt _ t p _ Hk Hrun)
    as (absolute & Hlen & _ & _ & Hstored & _).
  assert (Hia : (i < length absolute)%nat) by lia.
  destruct (lookup_lt_is_Some_2 absolute i Hia) as [a Ha].
  exists (affine_of_matrix a). exact (Hstored i a Ha).
Qed.

(** X13. A successful layout fills every slot: there are as many transforms
    and boxes as images, and no transform is left null, so the renderer can
    dereference the transform of every image. *)
Theorem layout_fills_every_slot opt t trs bbs size t' :
  (1 <= length (image_files opt))%nat ->
  compute_all_image_positions w opt t = (Ok (trs, bbs, size), t') ->
  length trs = length (image_files opt)
  /\ length bbs = length (image_files opt)
  /\ forall i, (i < length (image_files opt))%nat ->
               exists tf, trs !! i = Some (Some tf).
Proof. intros Hn Hrun. exact (layout_slots _ _ _ _ _ _ Hn Hrun). Qed.

(** X14. A mosaic of a single image needs no alignment: whatever the
    orientation and the overlap width, the layout succeeds as soon as the
    file can be read, with the identity transform, the image extent as its
    box, the image size as the canvas size, and the file opened once for
    its size. *)
Theorem single_image_layout opt f d t :
  image_files opt = [f] ->
  disk w f = Some d ->
  0 <= fst (di_size d) -> 0 <= snd (di_size d) ->
  compute_all_image_positions w opt t
  = (Ok ([Some identity_affine],
         [mkBBox2i 0 0 (fst (di_size d)) (snd (di_size d))],
         di_size d),
     t ++ [EvFileImageSize f]).
Proof.
  intros Hf Hd Hc Hr.
  unfold compute_all_image_positions, compute_positions,
    compute_positions_upto.
  assert (Hfile : image_file opt 0 = f)
    by (unfold image_file; rewrite Hf; reflexivity).
  rewrite Hf, Hfile. cbn [length Nat.sub seq]. rewrite !bind_run.
  rewrite file_image_size_run, Hd.
  destruct (di_size d) as [cols rows]. cbn [fst snd] in *.
  cbv beta iota. rewrite first_bbox_is_extent by assumption.
  simpl. unfold bbox_size, bbox_width, bbox_height.
  cbn [bmin_x bmin_y bmax_x bmax_y].
  rewrite !Z.sub_0_r. reflexivity.
Qed.

(** X15. With the orientation [horizontal] and two readable files, the
    error "Unrecognized image orientation!" is raised exactly when a region
    of interest is empty: when the overlap width is not positive or one of
    the two images has no row. *)
Theorem horizontal_orientation_error opt image1 image2 d1 d2 t :
  orientation opt = "horizontal"%string ->
  disk w image1 = Some d1 ->
  disk w image2 = Some d2 ->
  fst (compute_relative_transform w image1 image2 opt t)
  = Err (ArgumentErr "Unrecognized image orientation!")
  <-> (overlap_width opt <= 0 \/ snd (di_size d1) <= 0
       \/ snd (di_size d2) <= 0).
Proof.
  intros Ho H1 H2. unfold compute_relative_transform.
  rewrite !bind_run, file_image_size_run, H1. cbv beta iota.
  rewrite !bind_run, file_image_size_run, H2. cbv beta iota.
  rewrite Ho. cbn [String.eqb Ascii.eqb Bool.eqb].
  unfold bbox_empty. cbn [bmin_x bmin_y bmax_x bmax_y].
  destruct (Z.leb_spec (fst (di_size d1))
                       (fst (di_size d1) - overlap_width opt));
    destruct (Z.leb_spec (snd (di_size d1)) 0);
    destruct (Z.leb_spec (overlap_width opt) 0);
    destruct (Z.leb_spec (snd (di_size d2)) 0);
    cbn [orb]; try (split; [intros _; lia | reflexivity]); try lia.
  split; [| lia]. intros Herr. exfalso. revert Herr.
  unfold affine_ip_matching, match_ip_in_regions, get_input_image.
  unfold mbind, M_bind, bind, mret, M_ret, ret, vw_throw, emit.
  rewrite H1, H2. cbv beta iota.
  destruct (detect_match_ip w _ _ _ _ _) as [ip1 ip2]. cbv beta iota.
  destruct (ransac w _ _ _) as [tf |]; [| discriminate].
  destruct (inlier_indices w _ _ _ _); discriminate.
Qed.

End LayoutShape.

Lemma layout_fills_every_slot_witness :
  exists trs bbs size t',
    compute_all_image_positions
      shifted_strip_world (strip_options ["a.tif"; "b.tif"]%string) []
    = (Ok (trs, bbs, size), t')
    /\ length trs = 2%nat /\ length bbs = 2%nat
    /\ forall i, (i < 2)%nat -> exists tf, trs !! i = Some (Some tf).
Proof.
  do 4 eexists. split; [vm_compute; reflexivity |].
  eapply (layout_fills_every_slot
            shifted_strip_world (strip_options ["a.tif"; "b.tif"]%string) []);
    [simpl; lia | vm_compute; reflexivity].
Defined.

Lemma single_image_layout_witness :
  compute_all_image_positions
    lone_world
    (mkOptions (256, 256) ["lone.tif"%string] "vertical" "mosaic.tif"
               "Float32" 0 0 0 false false quiet_NaN quiet_NaN) []
  = (Ok ([Some identity_affine], [mkBBox2i 0 0 40 30], (40, 30)),
     [EvFileImageSize "lone.tif"]).
Proof.
  apply (single_image_layout lone_world _ "lone.tif"%string lone_raster []);
    [reflexivity | reflexivity | simpl; lia | simpl; lia].
Defined.

Lemma horizontal_orientation_error_witness :
  exists d1 d2,
    disk shifted_strip_world "a.tif" = Some d1
    /\ disk shifted_strip_world "b.tif" = Some d2
    /\ (fst (compute_relative_transform
               shifted_strip_world "a.tif" "b.tif" no_overlap_options [])
         = Err (ArgumentErr "Unrecognized image orientation!")
         <-> (overlap_width no_overlap_options <= 0
              \/ snd (di_size d1) <= 0 \/ snd (di_size d2) <= 0)).
Proof.
  do 2 eexists. split; [vm_compute; reflexivity |].
  split; [vm_compute; reflexivity |].
  apply (horizontal_orientation_error shifted_strip_world no_overlap_options
           "a.tif"%string "b.tif"%string _ _ []);
    [reflexivity | vm_compute; reflexivity | vm_compute; reflexivity].
Defined.

(** ** Argument handling, continued *)

(** X16. The rounding of a tile dimension, over the whole range of an
    [int]: the result is a multiple of 16 that is not smaller than the
    size, and rounding it again changes nothing. For a size that is not
    negative it is the next multiple of 16; for a negative size that is not
    a multiple of 16 the truncating division makes it overshoot the next
    multiple by 16. *)
Theorem fix_tile_multiple_rounding (size : Z) :
  INT_MIN <= size <= INT_MAX - TILE_MULTIPLE ->
  Z.rem (fix_tile_multiple size) TILE_MULTIPLE = 0
  /\ size <= fix_tile_multiple size
  /\ (0 <= size -> fix_tile_multiple size < size + TILE_MULTIPLE)
  /\ (size < 0 -> Z.rem size TILE_MULTIPLE <> 0 ->
      size + TILE_MULTIPLE < fix_tile_multiple size < size + 2 * TILE_MULTIPLE)
  /\ fix_tile_multiple (fix_tile_multiple size) = fix_tile_multiple size.
Proof.
  unfold INT_MIN, INT_MAX, TILE_MULTIPLE. intros H.
  assert (Hrem : Z.rem (fix_tile_multiple size) 16 = 0
                 /\ (Z.rem size 16 = 0 -> fix_tile_multiple size = size)
                 /\ (Z.rem size 16 <> 0 ->
                     fix_tile_multiple size = (Z.quot size 16 + 1) * 16)).
  { unfold fix_tile_multiple, TILE_MULTIPLE.
    pose proof (Z.quot_rem' size 16) as Hqr.
    destruct (Z.eqb_spec (Z.rem size 16) 0) as [Hz | Hnz]; cbn [negb].
    - repeat split; [exact Hz | contradiction].
    - assert (Hq : -134217728 <= Z.quot size 16 <= 134217726).
      { destruct (Z_le_gt_dec 0 size) as [Hs | Hs].
        - pose proof (Z.rem_bound_pos_pos size 16 ltac:(lia) Hs). lia.
        - pose proof (Z.rem_bound_pos_neg size 16 ltac:(lia) ltac:(lia)).
          lia. }
      rewrite (wrap_int_id (Z.quot size 16 + 1))
        by (unfold in_int_range, INT_MIN, INT_MAX; lia).
      rewrite wrap_int_id by (unfold in_int_range, INT_MIN, INT_MAX; lia).
      repeat split; [apply Z.rem_mul; lia | contradiction]. }
  destruct Hrem as (Hmul & Hkeep & Hup).
  pose proof (Z.quot_rem' size 16) as Hqr.
  assert (Hb : (0 <= size -> 0 <= Z.rem size 16 < 16)
               /\ (size < 0 -> -16 < Z.rem size 16 <= 0)).
  { split; intros Hs.
    - apply Z.rem_bound_pos_pos; lia.
    - pose proof (Z.rem_bound_pos_neg size 16 ltac:(lia) ltac:(lia)). lia. }
  destruct Hb as [Hpos Hneg].
  split; [exact Hmul |].
  destruct (Z.eq_dec (Z.rem size 16) 0) as [Hz | Hnz].
  - rewrite !(Hkeep Hz). repeat split; lia.
  - rewrite (Hup Hnz). repeat split; try lia.
    unfold fix_tile_multiple at 1. unfold TILE_MULTIPLE.
    rewrite Z.rem_mul by lia. reflexivity.
Qed.

Lemma fix_tile_multiple_rounding_witness :
  Z.rem (fix_tile_multiple (-5)) TILE_MULTIPLE = 0
  /\ -5 <= fix_tile_multiple (-5)
  /\ (0 <= -5 -> fix_tile_multiple (-5) < -5 + TILE_MULTIPLE)
  /\ (-5 < 0 -> Z.rem (-5) TILE_MULTIPLE <> 0 ->
      -5 + TILE_MULTIPLE < fix_tile_multiple (-5) < -5 + 2 * TILE_MULTIPLE)
  /\ fix_tile_multiple (fix_tile_multiple (-5)) = fix_tile_multiple (-5).
Proof.
  apply (fix_tile_multiple_rounding (-5)).
  unfold INT_MIN, INT_MAX, TILE_MULTIPLE. lia.
Defined.

(** X17. Argument handling looks at two things only: it succeeds exactly
    when at least one input image and a non-empty output name are given; an
    empty image list is reported first. No orientation, output type, band,
    overlap width or blend radius is rejected here, and no file is
    touched. *)
Theorem handle_arguments_accepts (cl : CommandLine) (t : list Event) :
  snd (handle_arguments cl t) = t
  /\ ((exists opt, fst (handle_arguments cl t) = Ok opt)
      <-> (cl_input_files cl <> []
           /\ default ""%string (cl_output_image cl) <> ""%string))
  /\ (fst (handle_arguments cl t)
      = Err (ArgumentErr ("No images to mosaic." ++ newline ++ usage
                            ++ cl_options_help cl))
      <-> cl_input_files cl = [])
  /\ (fst (handle_arguments cl t)
      = Err (ArgumentErr ("Missing output image name." ++ newline ++ usage
                            ++ cl_options_help cl))
      <-> (cl_input_files cl <> []
           /\ default ""%string (cl_output_image cl) = ""%string)).
Proof.
  unfold handle_arguments. cbn [parsed_options image_files output_image].
  destruct (decide (cl_input_files cl = [])) as [He | Hne];
    [| destruct (String.eqb_spec (default ""%string (cl_output_image cl)) "")
        as [Ho | Ho]];
    unfold vw_throw, mret, M_ret, ret; cbn [fst snd];
    (split; [reflexivity |]); repeat split;
    try discriminate; try tauto;
    try (intros [opt Hx]; discriminate Hx);
    try (intros [Hx Hy]; contradiction);
    try (intros Hx; contradiction);
    try (eexists; reflexivity);
    try (exfalso;
         match goal with
         | Hx : exists _, _ |- _ => destruct Hx as [? Hx]; discriminate Hx
         end);
    try congruence.
Qed.



(** ** The whole run *)

Lemma emits_only_for_each_in {St : Type} P (l : list nat)
      (body : nat -> St -> M St) (s : St) :
  (forall i s', In i l -> emits_only P (body i s')) ->
  emits_only P (for_each l body s).
Proof.
  revert s. induction l as [| i l IH]; intros s Hbody; simpl.
  - apply emits_only_ret.
  - apply emits_only_bind; [apply Hbody; left; reflexivity |].
    intros s'. apply IH. intros j s'' Hj. apply Hbody. right. exact Hj.
Qed.

Lemma image_file_listed opt i :
  (i < length (image_files opt))%nat ->
  existsb (String.eqb (image_file opt i)) (image_files opt) = true.
Proof.
  intros Hi. unfold image_file.
  destruct (lookup_lt_is_Some_2 (image_files opt) i Hi) as [f Hf].
  rewrite Hf. cbn [default from_option]. unfold id.
  apply existsb_exists. exists f. split; [| apply String.eqb_refl].
  apply list_elem_of_In. eapply list_elem_of_lookup_2. exact Hf.
Qed.


Section WholeRun.

Variable w : World.

Lemma get_input_image_run path opt t :
  get_input_image w path opt t =
  match disk w path with
  | Some d => (Ok (input_channel opt d, disk_nodata d),
               t ++ [EvGetInputImage path])
  | None => (Err (IOErr path), t ++ [EvGetInputImage path])
  end.
Proof.
  unfold get_input_image. rewrite bind_run. simpl.
  destruct (disk w path); reflexivity.
Qed.

Lemma file_image_size_listed files path :
  existsb (String.eqb path) files = true ->
  emits_only (opens_one_of files) (file_image_size w path).
Proof.
  intros Hin t r t'. rewrite file_image_size_run.
  destruct (disk w path); intros [= _ <-]; exists [EvFileImageSize path];
    (split; [reflexivity | simpl; rewrite Hin; reflexivity]).
Qed.

Lemma get_input_image_listed files path opt :
  existsb (String.eqb path) files = true ->
  emits_only (opens_one_of files) (get_input_image w path opt).
Proof.
  intros Hin t r t'. rewrite get_input_image_run.
  destruct (disk w path); intros [= _ <-]; exists [EvGetInputImage path];
    (split; [reflexivity | simpl; rewrite Hin; reflexivity]).
Qed.

Lemma compute_relative_transform_listed files f1 f2 opt :
  existsb (String.eqb f1) files = true ->
  existsb (String.eqb f2) files = true ->
  emits_only (opens_one_of files) (compute_relative_transform w f1 f2 opt).
Proof.
  intros H1 H2. unfold compute_relative_transform.
  apply emits_only_bind; [apply file_image_size_listed, H1 | intros size1].
  apply emits_only_bind; [apply file_image_size_listed, H2 | intros size2].
  destruct (if String.eqb (orientation opt) "horizontal" then _ else _)
    as [roi1 roi2].
  destruct (bbox_empty roi1 || bbox_empty roi2); [apply emits_only_throw |].
  unfold affine_ip_matching, match_ip_in_regions.
  apply emits_only_bind.
  - apply emits_only_bind;
      [apply get_input_image_listed, H1 | intros [i1 n1]].
    apply emits_only_bind;
      [apply get_input_image_listed, H2 | intros [i2 n2]].
    emits.
  - intros [ip1 ip2]. emits.
Qed.

Lemma compute_all_image_positions_listed opt :
  (1 <= length (image_files opt))%nat ->
  emits_only (opens_one_of (image_files opt))
             (compute_all_image_positions w opt).
Proof.
  intros Hn.
  unfold compute_all_image_positions, compute_positions,
    compute_positions_upto.
  apply emits_only_bind; [| intros p; apply emits_only_ret].
  apply emits_only_bind;
    [apply file_image_size_listed, image_file_listed; lia | intros size].
  apply emits_only_for_each_in. intros i p Hi.
  apply in_seq in Hi. unfold position_image.
  apply emits_only_bind;
    [apply compute_relative_transform_listed; apply image_file_listed; lia
    | intros rel].
  apply emits_only_bind;
    [apply file_image_size_listed, image_file_listed; lia | intros size'].
  emits.
Qed.

Lemma load_images_listed opt st :
  emits_only (opens_one_of (image_files opt))
             (for_each (seq 0 (length (image_files opt)))
                       (load_image w opt) st).
Proof.
  apply emits_only_for_each_in. intros i st' Hi. apply in_seq in Hi.
  unfold load_image.
  apply emits_only_bind;
    [apply get_input_image_listed, image_file_listed; lia | intros [img nd]].
  apply emits_only_ret.
Qed.

Lemma write_selected_image_type_listed files out_img nodata opt :
  emits_only (opens_one_of files)
             (write_selected_image_type w out_img nodata opt).
Proof. unfold write_selected_image_type. emits. Qed.

Lemma handle_arguments_files cl t opt t' :
  handle_arguments cl t = (Ok opt, t') ->
  image_files opt = cl_input_files cl /\ cl_input_files cl <> [].
Proof.
  unfold handle_arguments. cbn [parsed_options image_files].
  destruct (decide _) as [He | Hne]; [discriminate |].
  destruct (String.eqb _ _); [discriminate |].
  intros [= <- _]. split; [reflexivity | exact Hne].
Qed.

(** The stages of a run: it fails before the output stage, having only
    opened input images, or it enters [write_selected_image_type] with the
    results of the layout and of the loop that loads the images. *)
Lemma main_run cl r t :
  main w cl [] = (r, t) ->
  (exists e, r = Err e /\ forallb opens_image t = true)
  \/ (exists opt trs bbs size images nodata t0 t1,
         handle_arguments cl [] = (Ok opt, [])
         /\ compute_all_image_positions w opt [] = (Ok (trs, bbs, size), t0)
         /\ for_each (seq 0 (length (image_files opt))) (load_image w opt)
                     (replicate (length (image_files opt)) (filled 0 0 None),
                      quiet_NaN) t0
            = (Ok (images, nodata), t1)
         /\ forallb opens_image t1 = true
         /\ write_selected_image_type
              w (mkView images trs bbs (blend_radius opt) size
                        (output_nodata_value opt))
              (output_nodata_value opt) opt t1
            = (r, t)).
Proof.
  unfold main. rewrite bind_run.
  destruct (handle_arguments cl []) as [[opt | e] t0] eqn:Hargs;
    pose proof (handle_arguments_silent _ _ _ _ Hargs) as ->.
  2: { intros [= <- <-]. left. exists e. split; reflexivity. }
  cbv beta iota. rewrite bind_run.
  destruct (compute_all_image_positions w opt [])
    as [[[[trs bbs] size] | e] t1] eqn:Hpos;
    destruct (compute_all_image_positions_opens w opt _ _ _ Hpos)
      as (evs1 & Ht1 & Hevs1); simpl in Ht1; subst t1.
  2: { intros [= <- <-]. left. exists e. split; [reflexivity | exact Hevs1]. }
  cbv beta iota. rewrite bind_run.
  destruct (for_each _ (load_image w opt) _ evs1)
    as [[[images nodata] | e] t2] eqn:Hload;
    destruct (emits_only_for_each opens_image _ _ _
                (load_image_opens w opt) _ _ _ Hload)
      as (evs2 & -> & Hevs2);
    assert (Hall : forallb opens_image (evs1 ++ evs2) = true)
      by (rewrite forallb_app, Hevs1, Hevs2; reflexivity).
  2: { intros [= <- <-]. left. exists e. split; [reflexivity | exact Hall]. }
  cbv beta iota zeta. intros Hwrite. right.
  exists opt, trs, bbs, size, images, nodata, evs1, (evs1 ++ evs2).
  repeat split; assumption.
Qed.

Lemma write_selected_image_type_cases out_img nodata opt t :
  (supported_output_type (output_type opt) = true
   /\ exists nd,
       write_selected_image_type w out_img nodata opt t
       = (match write_failure w (output_image opt) out_img (output_type opt)
                              nd with
          | Some e => Err e
          | None => Ok tt
          end,
          t ++ [EvWriteSelectedImageType out_img nodata;
                EvBlockWrite (output_image opt) (output_type opt) nd]))
  \/ (supported_output_type (output_type opt) = false
      /\ write_selected_image_type w out_img nodata opt t
         = (Err (NoImplErr ("Unsupported output type: "
                              ++ output_type opt ++ "." ++ newline)),
            t ++ [EvWriteSelectedImageType out_img nodata])).
Proof.
  unfold write_selected_image_type, supported_output_type.
  rewrite bind_run. unfold emit at 1. cbv beta iota.
  destruct (String.eqb (output_type opt) "Float32"); cbn [orb].
  - left. split; [reflexivity |]. eexists.
    rewrite block_write_gdal_image_run, <- app_assoc. reflexivity.
  - destruct (existsb _ _).
    + left. split; [reflexivity |]. eexists.
      rewrite block_write_gdal_image_run, <- app_assoc. reflexivity.
    + right. split; reflexivity.
Qed.


(** X20. A run opens no file but the input images of the command line:
    every file whose size is read or that is loaded is one of them. *)
Theorem main_opens_only_listed_files cl r t :
  main w cl [] = (r, t) ->
  forallb (opens_one_of (cl_input_files cl)) t = true.
Proof.
  unfold main. rewrite bind_run.
  destruct (handle_arguments cl []) as [[opt | e] t0] eqn:Hargs;
    pose proof (handle_arguments_silent _ _ _ _ Hargs) as ->.
  2: { intros [= _ <-]. reflexivity. }
  destruct (handle_arguments_files _ _ _ _ Hargs) as [Hfiles Hne].
  rewrite <- Hfiles in *.
  assert (Hn : (1 <= length (image_files opt))%nat)
    by (destruct (image_files opt); [contradiction | simpl; lia]).
  cbv beta iota. intros Hrun.
  assert (Hemits : emits_only (opens_one_of (image_files opt))
            ('(transforms, bboxes, output_image_size) ←
               compute_all_image_positions w opt;
             '(images, nodata) ←
               for_each (seq 0 (length (image_files opt))) (load_image w opt)
                 (replicate (length (image_files opt)) (filled 0 0 None),
                  quiet_NaN);
             write_selected_image_type
               w (mkView images transforms bboxes (blend_radius opt)
                         output_image_size (output_nodata_value opt))
               (output_nodata_value opt) opt)).
  { apply emits_only_bind;
      [apply compute_all_image_positions_listed, Hn | intros [[trs bbs] size]].
    apply emits_only_bind; [apply load_images_listed | intros [images nd]].
    apply write_selected_image_type_listed. }
  destruct (Hemits _ _ _ Hrun) as (evs & -> & Hevs). exact Hevs.
Qed.

(** The loop of [main] that loads the images: it keeps the number of
    slots and fills slot [i] with file [i], masked by the nodata value
    read from that file. *)
Lemma load_images_run opt k st t st' t' :
  for_each (seq 0 k) (load_image w opt) st t = (Ok st', t') ->
  length (fst st') = length (fst st)
  /\ forall i, (i < k)%nat -> (i < length (fst st))%nat ->
       exists d, disk w (image_file opt i) = Some d
                 /\ fst st' !! i
                    = Some (create_mask_less_or_equal (input_channel opt d)
                                                      (disk_nodata d)).
Proof.
  revert st' t'. induction k as [| k IH]; intros st' t'.
  - simpl. intros [= <- _]. split; [reflexivity | intros i Hi; lia].
  - rewrite seq_S, for_each_app. cbn [Nat.add].
    destruct (for_each (seq 0 k) (load_image w opt) st t)
      as [[st1 | e] t1] eqn:Hrun; [| discriminate].
    destruct (IH _ _ eq_refl) as [Hlen Hslots].
    cbn [for_each]. rewrite bind_run. unfold load_image at 1.
    rewrite bind_run, get_input_image_run.
    destruct (disk w (image_file opt k)) as [d |] eqn:Hd; [| discriminate].
    cbv beta iota. unfold mret, M_ret, ret. intros [= <- _].
    cbn [fst]. split; [rewrite length_insert; exact Hlen |].
    intros i Hi Hil. destruct (Nat.eq_dec i k) as [-> | Hne].
    + exists d. split; [exact Hd |].
      apply list_lookup_insert_eq. lia.
    + rewrite list_lookup_insert_ne by lia. apply Hslots; lia.
Qed.

(** The view that [main] hands to the writer. *)
Lemma main_view cl r t out_img nodata :
  main w cl [] = (r, t) ->
  In (EvWriteSelectedImageType out_img nodata) t ->
  exists opt trs bbs size images nd t0 t1,
    handle_arguments cl [] = (Ok opt, [])
    /\ compute_all_image_positions w opt [] = (Ok (trs, bbs, size), t0)
    /\ for_each (seq 0 (length (image_files opt))) (load_image w opt)
                (replicate (length (image_files opt)) (filled 0 0 None),
                 quiet_NaN) t0
       = (Ok (images, nd), t1)
    /\ out_img = mkView images trs bbs (blend_radius opt) size
                        (output_nodata_value opt).
Proof.
  intros Hmain Hin.
  destruct (main_run _ _ _ Hmain)
    as [(e & -> & Hopen)
       | (opt & trs & bbs & size & images & nd & t0 & t1
          & Hargs & Hpos & Hload & Hopen & Hwrite)].
  - apply (opens_image_no_write _ _ Hopen) in Hin. discriminate.
  - exists opt, trs, bbs, size, images, nd, t0, t1.
    repeat split; try assumption.
    destruct (write_selected_image_type_cases
                (mkView images trs bbs (blend_radius opt) size
                        (output_nodata_value opt))
                (output_nodata_value opt) opt t1)
      as [(_ & nd' & Hrun) | (_ & Hrun)];
      rewrite Hrun in Hwrite; injection Hwrite as <- <-;
      apply in_app_or in Hin; destruct Hin as [Hin | Hin];
      try (apply (opens_image_no_write _ _ Hopen) in Hin; discriminate).
    + destruct Hin as [[= <- _] | [Hin | []]]; [reflexivity | discriminate].
    + destruct Hin as [[= <- _] | []]. reflexivity.
Qed.

(** X21. The view that reaches the writer is well formed: it has one
    image, one transform and one box per input file, no transform is null,
    and its blend radius is the one argument handling settled on. *)
Theorem main_view_is_well_formed cl r t out_img nodata :
  main w cl [] = (r, t) ->
  In (EvWriteSelectedImageType out_img nodata) t ->
  length (m_images out_img) = length (cl_input_files cl)
  /\ length (m_transforms out_img) = length (cl_input_files cl)
  /\ length (m_bboxes out_img) = length (cl_input_files cl)
  /\ (forall i, (i < length (cl_input_files cl))%nat ->
                exists tf, m_transforms out_img !! i = Some (Some tf))
  /\ exists opt, handle_arguments cl [] = (Ok opt, [])
                 /\ m_blend_radius out_img = blend_radius opt.
Proof.
  intros Hmain Hin.
  destruct (main_view _ _ _ _ _ Hmain Hin)
    as (opt & trs & bbs & size & images & nd & t0 & t1
        & Hargs & Hpos & Hload & ->).
  destruct (handle_arguments_files _ _ _ _ Hargs) as [Hfiles Hne].
  rewrite <- Hfiles in *.
  assert (Hn : (1 <= length (image_files opt))%nat)
    by (destruct (image_files opt); [contradiction | simpl; lia]).
  destruct (layout_slots w _ _ _ _ _ _ Hn Hpos) as (Hlt & Hlb & Hsome).
  destruct (load_images_run _ _ _ _ _ _ Hload) as [Hli _].
  cbn [fst] in Hli. rewrite length_replicate in Hli.
  cbn [m_images m_transforms m_bboxes m_blend_radius].
  repeat split; try assumption.
  exists opt. split; [exact Hargs | reflexivity].
Qed.

(** X22. Image [i] of the view that reaches the writer is input file [i]:
    the band that [get_input_image] selects, in which the pixels not
    greater than the nodata value read from that same file are invalid. *)
Theorem main_masks_each_image_with_its_nodata cl r t out_img nodata i f :
  main w cl [] = (r, t) ->
  In (EvWriteSelectedImageType out_img nodata) t ->
  cl_input_files cl !! i = Some f ->
  exists opt d,
    handle_arguments cl [] = (Ok opt, [])
    /\ disk w f = Some d
    /\ m_images out_img !! i
       = Some (create_mask_less_or_equal (input_channel opt d)
                                         (disk_nodata d)).
Proof.
  intros Hmain Hin Hf.
  destruct (main_view _ _ _ _ _ Hmain Hin)
    as (opt & trs & bbs & size & images & nd & t0 & t1
        & Hargs & Hpos & Hload & ->).
  destruct (handle_arguments_files _ _ _ _ Hargs) as [Hfiles Hne].
  assert (Hi : (i < length (image_files opt))%nat)
    by (rewrite Hfiles; apply lookup_lt_is_Some; eexists; exact Hf).
  destruct (load_images_run _ _ _ _ _ _ Hload) as [_ Hslots].
  destruct (Hslots i Hi ltac:(cbn [fst]; rewrite length_replicate; exact Hi))
    as (d & Hd & Himg).
  exists opt, d. split; [exact Hargs |].
  unfold image_file in Hd. rewrite Hfiles, Hf in Hd.
  split; [exact Hd | exact Himg].
Qed.

(** X23. The option [input-nodata-value] has no effect on a run: with any
    value, or without the option, the result and the events are the
    same. *)
Theorem input_nodata_option_is_ignored cl (o : option double) t :
  main w (with_input_nodata_value cl o) t = main w cl t.
Proof.
  unfold main. rewrite !bind_run. unfold handle_arguments.
  cbn [with_input_nodata_value parsed_options image_files output_image
       cl_input_files cl_output_image].
  destruct (decide (cl_input_files cl = [])); [reflexivity |].
  destruct (String.eqb _ _); [reflexivity |].
  reflexivity.
Qed.

End WholeRun.


Lemma main_opens_only_listed_files_witness :
  forallb (opens_one_of (cl_input_files two_strip_command_line))
          (snd (main shifted_strip_world two_strip_command_line [])) = true.
Proof.
  apply (main_opens_only_listed_files
           shifted_strip_world two_strip_command_line
           (fst (main shifted_strip_world two_strip_command_line []))).
  apply surjective_pairing.
Defined.

Lemma main_view_is_well_formed_witness :
  exists out_img nodata,
    In (EvWriteSelectedImageType out_img nodata)
       (snd (main shifted_strip_world two_strip_command_line []))
    /\ length (m_images out_img) = 2%nat
    /\ length (m_transforms out_img) = 2%nat
    /\ length (m_bboxes out_img) = 2%nat.
Proof.
  assert (Hin : exists out_img nodata,
             In (EvWriteSelectedImageType out_img nodata)
                (snd (main shifted_strip_world two_strip_command_line []))).
  { do 2 eexists. cbv. repeat (first [left; reflexivity | right]). }
  destruct Hin as (out_img & nodata & Hin).
  exists out_img, nodata. split; [exact Hin |].
  destruct (main_view_is_well_formed
              shifted_strip_world two_strip_command_line _ _ out_img nodata
              (surjective_pairing _) Hin) as (H1 & H2 & H3 & _).
  repeat split; assumption.
Defined.

Lemma main_masks_each_image_with_its_nodata_witness :
  exists out_img nodata opt d,
    In (EvWriteSelectedImageType out_img nodata)
       (snd (main shifted_strip_world two_strip_command_line []))
    /\ handle_arguments two_strip_command_line [] = (Ok opt, [])
    /\ disk shifted_strip_world "b.tif" = Some d
    /\ m_images out_img !! 1%nat
       = Some (create_mask_less_or_equal (input_channel opt d)
                                         (disk_nodata d)).
Proof.
  assert (Hin : exists out_img nodata,
             In (EvWriteSelectedImageType out_img nodata)
                (snd (main shifted_strip_world two_strip_command_line []))).
  { do 2 eexists. cbv. repeat (first [left; reflexivity | right]). }
  destruct Hin as (out_img & nodata & Hin).
  destruct (main_masks_each_image_with_its_nodata
              shifted_strip_world two_strip_command_line _ _ out_img nodata
              1%nat "b.tif"%string (surjective_pairing _) Hin eq_refl)
    as (opt & d & H).
  exists out_img, nodata, opt, d. split; [exact Hin | exact H].
Defined.

(** ** The weights and the pixel values *)

Lemma for_range_ext {St : Type} (lo hi : Z) (body1 body2 : Z -> St -> St)
      (s : St) :
  (forall i s', lo <= i < hi -> body1 i s' = body2 i s') ->
  for_range lo hi body1 s = for_range lo hi body2 s.
Proof.
  intros Hext. destruct (Z_le_gt_dec lo hi) as [Hle | Hgt].
  - apply (for_range_ind (fun i s' => s' = for_range lo i body2 s));
      [exact Hle | symmetry; apply for_range_empty; lia |].
    intros i s' Hi ->. rewrite for_range_last by lia. apply Hext. exact Hi.
  - rewrite !for_range_empty by lia. reflexivity.
Qed.

Lemma scan_extents_validity (a b : ImageView PixelMask) :
  iv_cols a = iv_cols b -> iv_rows a = iv_rows b ->
  (forall c r, is_valid (iv_pix a c r) = is_valid (iv_pix b c r)) ->
  scan_extents a = scan_extents b.
Proof.
  intros Hc Hr Hv. unfold scan_extents. rewrite Hc, Hr.
  apply for_range_ext. intros row e _.
  apply for_range_ext. intros col e' _.
  unfold scan_pixel. rewrite Hv. reflexivity.
Qed.

Section WeightsAndValues.

Variable compute_line_weights :
  double * double -> bool -> list double -> list double -> double.

(** X24. The weights do not depend on the pixel values: two images of the
    same size whose valid pixels are the same get the same weight at every
    pixel of the region, whatever their values. *)
Theorem weights_depend_on_validity_only (a b : ImageView PixelMask)
        (hole border : double) (roi : BBox2i) (col row : Z) :
  iv_cols a = iv_cols b -> iv_rows a = iv_rows b ->
  (forall c r, is_valid (iv_pix a c r) = is_valid (iv_pix b c r)) ->
  bmin_x (weights_bbox a roi) <= col < bmax_x (weights_bbox a roi) ->
  bmin_y (weights_bbox a roi) <= row < bmax_y (weights_bbox a roi) ->
  weight_at compute_line_weights a hole border roi col row
  = weight_at compute_line_weights b hole border roi col row.
Proof.
  intros Hc Hr Hv Hcol Hrow.
  assert (Hbox : weights_bbox a roi = weights_bbox b roi)
    by (unfold weights_bbox, bounding_box; rewrite Hc, Hr; reflexivity).
  rewrite weight_at_new_weight by assumption.
  rewrite weight_at_new_weight by (rewrite <- Hbox; assumption).
  unfold new_weight.
  rewrite (scan_extents_validity a b Hc Hr Hv), Hv. reflexivity.
Qed.

End WeightsAndValues.

Lemma weights_depend_on_validity_only_witness :
  weight_at vw_compute_line_weights ring_image
            hole_fill_value_default border_fill_value_default BBox2i_empty 0 2
  = weight_at vw_compute_line_weights bright_ring_image
              hole_fill_value_default border_fill_value_default
              BBox2i_empty 0 2.
Proof.
  apply (weights_depend_on_validity_only
           vw_compute_line_weights ring_image bright_ring_image);
    try reflexivity; try (cbn; lia).
  intros c r. simpl. destruct ((c =? 1) && (r =? 1)); reflexivity.
Defined.
